(** * Reconfigurable-precision synthesis: circuit, scenario and optimizer

    Shallow embedding of [axpy/circuit.py], [axpy/helper.py],
    [axpy/scenario.py] and [axpy/reconf/reconf.py].

    Conventions of the embedding.
    - Python [int] is [Z]; [str] is [string].
    - Python [float] (voltages, powers, weights, clock multipliers) is
      idealised as an exact rational [Q]: no rounding of sums and products,
      no NaN, no infinities, no signed zero.  Comparisons are [Qle_bool].
      [voltage_to_string] and [AxScenario.name], which compute nothing but
      a sign test and a rendering, are embedded a second time over the
      IEEE 754 floats of [SpecFloat] (module [Float]), special values
      included; the two embeddings agree on every float that is a number
      other than negative zero.
    - [ReconfSynthesis] is the object with lists of numbers in its list
      fields, as [read_config] leaves it for a file whose JSON values have
      the expected types.  [Reconf.init] has empty lists where [__init__]
      has [None]; what [run] does with [None] in a list field, or with
      values of another type, is not embedded.
    - A Python [dict] is an insertion-ordered association list with the
      update-in-place / append-at-end behaviour of [d[k] = v].
    - Exceptions are values of [exn]; fallible code returns [exn + A].
    - The synthesis tool behind [_call_dc] is an oracle: its answer to the
      k-th invocation, given the command of that invocation.  Its result
      line is taken to be well formed ([_parse_data] succeeds).
    - The file system is a log of events; what [os.path.exists] and
      [os.access] answer is an oracle over that log.
    - [_parse_data] and [set_csh_env] are embedded on the lines
      [f.readlines()] gives them, the file being there.  Text is ASCII;
      [float(str)], [os.path.expandvars] and what [os.environ] accepts are
      oracles.
    - [AxScenario.duplicate] is embedded over objects whose [accuracy] and
      [vdd] hold an [int] or a [float], as Python lets them. *)

From Stdlib Require Import ZArith QArith Qround Qabs Bool String Ascii List Lia.
From Stdlib Require Import DecimalString Lqa Sorted Permutation.
From Stdlib Require Import DecimalPos DecimalZ.
From Stdlib Require Import Qpower SpecFloat.
Import ListNotations.

Local Open Scope string_scope.
Local Open Scope Z_scope.

(* ====================================================================== *)
(** ** Exceptions and results *)

Inductive exn : Type :=
| DuplicatePortException (msg : string)
| UnknownPortException (msg : string)
| TimingException (msg : string)
| ConfigException (msg : string)
| FileNotFoundError (msg : string)
| IndexError
| KeyError
| TypeError
| AttributeError
| UnboundLocalError (var : string).

Definition result (A : Type) : Type := (exn + A)%type.

Definition ret {A} (a : A) : result A := inr a.
Definition raise {A} (e : exn) : result A := inl e.

Definition rbind {A B} (r : result A) (k : A -> result B) : result B :=
  match r with
  | inl e => inl e
  | inr a => k a
  end.

(** [l[i]] for a non-negative index. *)
Definition index {A} (l : list A) (i : nat) : result A :=
  match nth_error l i with
  | Some a => ret a
  | None => raise IndexError
  end.

(* ====================================================================== *)
(** ** Text rendering of numbers *)

Definition dquote : string := String (ascii_of_nat 34) EmptyString.

(** ["{}".format(n)] for an [int]. *)
Definition str_int (n : Z) : string := NilZero.string_of_int (Z.to_int n).

Definition digit_char (d : Z) : ascii := ascii_of_nat (48 + Z.to_nat d).

Definition is_digit (c : ascii) : bool :=
  (48 <=? nat_of_ascii c)%nat && (nat_of_ascii c <=? 57)%nat.

(** Nearest integer, ties to the even neighbour. *)
Definition round_half_even (q : Q) : Z :=
  let f := Qfloor q in
  match Qcompare (q - inject_Z f) (1 # 2) with
  | Lt => f
  | Gt => f + 1
  | Eq => if Z.even f then f else f + 1
  end.

(** ["{:.2f}".format(q)] for [0 <= q]. *)
Definition format_2f (q : Q) : string :=
  let n := round_half_even (q * inject_Z 100) in
  str_int (n / 100) ++ "."
    ++ String (digit_char ((n / 10) mod 10))
         (String (digit_char (n mod 10)) EmptyString).

Definition Qltb (a b : Q) : bool := negb (Qle_bool b a).

(* ====================================================================== *)
(** ** helper.py *)

(** [voltage_to_string] of a float given by its value: a number other
    than negative zero.  [Float.voltage_to_string] below takes every
    float. *)
Definition voltage_to_string (v : Q) : string :=
  if Qltb v 0 then "m" ++ format_2f (Qabs v)
  else format_2f v.

(* ====================================================================== *)
(** ** Python dictionaries *)

(** Hashable keys: what a dictionary needs to compare them. *)
Class Key (K : Type) : Type := {
  keqb : K -> K -> bool;
  keqb_spec : forall a b : K, reflect (a = b) (keqb a b)
}.

#[export] Instance Key_string : Key string :=
  {| keqb := String.eqb; keqb_spec := String.eqb_spec |}.

#[export] Instance Key_Z : Key Z :=
  {| keqb := Z.eqb; keqb_spec := Z.eqb_spec |}.

Module Dict.
Section Dict.
Context {K V : Type} `{Key K}.

Definition t := list (K * V).

Definition keys (d : t) : list K := map fst d.

Definition values (d : t) : list V := map snd d.

Fixpoint mem (k : K) (d : t) : bool :=
  match d with
  | [] => false
  | (k', _) :: d' => if keqb k k' then true else mem k d'
  end.

Fixpoint get (k : K) (d : t) : option V :=
  match d with
  | [] => None
  | (k', v) :: d' => if keqb k k' then Some v else get k d'
  end.

(** [d[k] = v]: overwrite in place, or append a new key at the end. *)
Fixpoint set (k : K) (v : V) (d : t) : t :=
  match d with
  | [] => [(k, v)]
  | (k', v') :: d' =>
      if keqb k k' then (k', v) :: d' else (k', v') :: set k v d'
  end.

(** [del d[k]] for a key that is present. *)
Fixpoint del (k : K) (d : t) : t :=
  match d with
  | [] => []
  | (k', v') :: d' =>
      if keqb k k' then d' else (k', v') :: del k d'
  end.

(** [{k : v for k, v in kvs}]. *)
Definition of_list (kvs : list (K * V)) : t :=
  fold_left (fun d '(k, v) => set k v d) kvs [].
End Dict.
Arguments t : clear implicits.
End Dict.

(* ====================================================================== *)
(** ** circuit.py *)

Inductive PortDirection : Type := INPUT | OUTPUT.

Record AxCircuit : Type := mkAxCircuit {
  input_ports : Dict.t string Z;
  output_ports : Dict.t string Z;
  port_multipliers : Dict.t string Z
}.

Module Circuit.

(** The check of [AxCircuit.__init__]. *)
Definition init (ip op pm : Dict.t string Z) : result AxCircuit :=
  match find (fun name => negb (Dict.mem name ip) && negb (Dict.mem name op))
             (Dict.keys pm) with
  | Some name => raise (UnknownPortException ("No port with name " ++ name))
  | None => ret (mkAxCircuit ip op pm)
  end.

Definition add_port (c : AxCircuit) (name : string) (width : Z)
    (direction : PortDirection) (multiplier : Z) : result AxCircuit :=
  match direction with
  | INPUT =>
      if Dict.mem name (input_ports c) then
        raise (DuplicatePortException
                 ("An input port with name " ++ name ++ " already exists"))
      else
        ret (mkAxCircuit (Dict.set name width (input_ports c))
                        (output_ports c) (port_multipliers c))
  | OUTPUT =>
      if Dict.mem name (output_ports c) then
        raise (DuplicatePortException
                 ("An output port with name " ++ name ++ " already exists"))
      else
        ret (mkAxCircuit (input_ports c)
                        (Dict.set name width (output_ports c))
                        (port_multipliers c))
  end.

Definition change_port_width (c : AxCircuit) (name : string) (width : Z)
  : result AxCircuit :=
  if negb (Dict.mem name (input_ports c))
     && negb (Dict.mem name (output_ports c)) then
    raise (UnknownPortException ("No port with name " ++ name))
  else if Dict.mem name (input_ports c) then
    ret (mkAxCircuit (Dict.set name width (input_ports c))
                    (output_ports c) (port_multipliers c))
  else if Dict.mem name (output_ports c) then
    ret (mkAxCircuit (input_ports c)
                    (Dict.set name width (output_ports c))
                    (port_multipliers c))
  else ret c.

Definition change_port_multiplier (c : AxCircuit) (name : string)
    (multiplier : Z) : result AxCircuit :=
  if negb (Dict.mem name (input_ports c))
     && negb (Dict.mem name (output_ports c)) then
    raise (UnknownPortException ("No port with name " ++ name))
  else
    ret (mkAxCircuit (input_ports c) (output_ports c)
                    (Dict.set name multiplier (port_multipliers c))).

Definition remove_port (c : AxCircuit) (name : string) : result AxCircuit :=
  if negb (Dict.mem name (input_ports c))
     && negb (Dict.mem name (output_ports c)) then
    raise (UnknownPortException ("No port with name " ++ name))
  else
    let '(ip, op) :=
      if Dict.mem name (input_ports c) then
        (Dict.del name (input_ports c), output_ports c)
      else if Dict.mem name (output_ports c) then
        (input_ports c, Dict.del name (output_ports c))
      else (input_ports c, output_ports c) in
    let pm :=
      if Dict.mem name (port_multipliers c) then
        Dict.del name (port_multipliers c)
      else port_multipliers c in
    ret (mkAxCircuit ip op pm).

Definition duplicate (c : AxCircuit) : result AxCircuit :=
  init (input_ports c) (output_ports c) (port_multipliers c).

(** One [{"name" width multiplier} ] item of the port table. *)
Definition port_item (c : AxCircuit) (n : string) (w : Z) : string :=
  let m := if negb (Dict.mem n (port_multipliers c)) then 1
           else match Dict.get n (port_multipliers c) with
                | Some m => m
                | None => 1
                end in
  "{" ++ dquote ++ n ++ dquote ++ " " ++ str_int w ++ " " ++ str_int m ++ "} ".

Definition tcl_description (c : AxCircuit) : string :=
  let _cmd := "set IN_PORTS { " in
  let _cmd := fold_left (fun cmd '(n, w) => cmd ++ port_item c n w)
                        (input_ports c) _cmd in
  let _cmd := _cmd ++ "};" in
  let _cmd := _cmd ++ "set OUT_PORTS { " in
  let _cmd := fold_left (fun cmd '(n, w) => cmd ++ port_item c n w)
                        (output_ports c) _cmd in
  let _cmd := _cmd ++ "};" in
  _cmd.

End Circuit.

(* ====================================================================== *)
(** ** scenario.py *)

Record AxScenario : Type := mkAxScenario {
  accuracy : Z;
  vdd : Q;
  clock_multiplier : option Q;
  mode_signals : option (list (string * Z))
}.

Module Scenario.

Definition name (s : AxScenario) : string :=
  "acc_" ++ str_int (accuracy s) ++ "bit_vdd_"
    ++ voltage_to_string (vdd s) ++ "V".

Section Tcl.
(** ["{}".format(x)] for a [float]: Python's shortest round-trip
    rendering, taken as given. *)
Variable float_repr : Q -> string.

Definition tcl_description (s : AxScenario) : string :=
  let _cmd := "{ " ++ str_int (accuracy s) ++ " "
                ++ voltage_to_string (vdd s) in
  let _cmd := match clock_multiplier s with
              | Some cm => _cmd ++ " " ++ float_repr cm
              | None => _cmd
              end in
  let _cmd := match mode_signals s with
              | Some ms =>
                  fold_left (fun cmd '(n, v) =>
                               cmd ++ " { " ++ n ++ " " ++ str_int v ++ " } ")
                            ms _cmd
              | None => _cmd
              end in
  _cmd ++ "}".
End Tcl.

End Scenario.

(* ====================================================================== *)
(** ** helper.py and scenario.py over floats with their special values *)

(** A Python [float] is an IEEE 754 binary64 number, a [spec_float] of
    precision 53: a zero of either sign, an infinity of either sign, NaN,
    or a sign, a mantissa and an exponent.  [x < y] is [SFltb], [x == y]
    is [SFeqb], [abs(x)] is [SFabs], [-x] is [SFopp]; the [int] 0 that
    [voltage_to_string] compares with is the float [+0.0]. *)
Module Float.

Definition sign (x : spec_float) : bool :=
  match x with
  | S754_zero s | S754_infinity s | S754_finite s _ _ => s
  | S754_nan => false
  end.

(** The number a zero or a finite float stands for. *)
Definition value (x : spec_float) : Q :=
  match x with
  | S754_finite s m e =>
      (if s then - inject_Z (Zpos m) else inject_Z (Zpos m)) * 2 ^ e
  | _ => 0
  end.

(** ["{:.2f}".format(x)]: the minus sign of a float whose sign bit is set,
    negative zero included, then the digits of its magnitude; [inf] and
    [nan] for the others. *)
Definition format_2f (x : spec_float) : string :=
  match x with
  | S754_nan => "nan"
  | S754_infinity s => (if s then "-" else "") ++ "inf"
  | S754_zero s | S754_finite s _ _ =>
      (if s then "-" else "") ++ format_2f (Qabs (value x))
  end.

Definition voltage_to_string (v : spec_float) : string :=
  if SFltb v (S754_zero false) then "m" ++ format_2f (SFabs v)
  else format_2f v.

Record AxScenario : Type := mkAxScenario {
  accuracy : Z;
  vdd : spec_float;
  clock_multiplier : option spec_float;
  mode_signals : option (list (string * Z))
}.

Definition name (s : AxScenario) : string :=
  "acc_" ++ str_int (accuracy s) ++ "bit_vdd_"
    ++ voltage_to_string (vdd s) ++ "V".

(** The floats the rationals stand for: positive zero and the finite
    floats other than zero. *)
Definition ordinary (x : spec_float) : bool :=
  match x with
  | S754_zero s => negb s
  | S754_finite _ _ _ => true
  | S754_infinity _ | S754_nan => false
  end.

(** The float of the literal [-0.9]: the binary64 number nearest to
    -9/10. *)
Definition minus_0_9 : spec_float :=
  S754_finite true 8106479329266893 (-53).

End Float.

(** The scenario over the rationals that a scenario over floats stands
    for. *)
Definition idealised (s : Float.AxScenario) : AxScenario :=
  mkAxScenario (Float.accuracy s) (Float.value (Float.vdd s))
    (option_map Float.value (Float.clock_multiplier s))
    (Float.mode_signals s).

(* ====================================================================== *)
(** ** Sorting, as [list.sort(reverse=True)] and [sorted(..., reverse=True)]
       do it: descending and stable. *)

Fixpoint insert_desc {A} (geb : A -> A -> bool) (x : A) (l : list A) : list A :=
  match l with
  | [] => [x]
  | y :: l' => if geb x y then x :: l else y :: insert_desc geb x l'
  end.

Definition sort_desc {A} (geb : A -> A -> bool) (l : list A) : list A :=
  fold_right (insert_desc geb) [] l.

Definition Qgeb (x y : Q) : bool := Qle_bool y x.

(** [[f(x) for x in l]] where [f] may raise. *)
Fixpoint mapM {A B} (f : A -> result B) (l : list A) : result (list B) :=
  match l with
  | [] => ret []
  | x :: l' =>
      rbind (f x) (fun y => rbind (mapM f l') (fun ys => ret (y :: ys)))
  end.

(* ====================================================================== *)
(** ** reconf/reconf.py: the object, the outside world, the monad *)

Record ReconfSynthesis : Type := mkReconfSynthesis {
  log_dir : string;
  work_dir : string;
  _weights : list Q;
  _circuit : AxCircuit;
  _vdd_list : list Q;
  _acc_list : list Z;
  _clock_multipliers : list (option Q);
  _mode_inputs : option (list string);
  _mode_values : option (list (list Z));
  _power_table : Dict.t Z (option Q);
  _scen_table : Dict.t Z (option AxScenario)
}.

(** The parsed configuration file, as [read_config] consumes it. *)
Record ConfigFile : Type := mkConfigFile {
  cf_input_ports : Dict.t string Z;
  cf_output_ports : Dict.t string Z;
  cf_port_multipliers : Dict.t string Z;
  cf_vdd : list Q;
  cf_precision : list Z;
  cf_clock_multipliers : option (list (option Q));
  cf_mode_inputs : option (list string);
  cf_mode_values : option (list (list Z));
  cf_weights : option (list Q)
}.

(** One invocation of the synthesis tool by [_call_dc]. *)
Record DcCall : Type := mkDcCall {
  dc_cmd : string;
  dc_log_file : string;
  dc_scenarios : list AxScenario
}.

(** What [run] does to the file system. *)
Inductive FsEvent : Type :=
| MakeDirs (path : string)
| RmTree (path : string)
| WriteTable (path : string) (rows : list (Z * option Q * Q))
| CopyFile (src dst : string).

Record State : Type := mkState {
  obj : ReconfSynthesis;
  dc_log : list DcCall;
  fs_log : list FsEvent
}.

Definition M (A : Type) : Type := State -> result A * State.

Definition mret {A} (a : A) : M A := fun st => (ret a, st).

Definition mraise {A} (e : exn) : M A := fun st => (raise e, st).

Definition mbind {A B} (c : M A) (k : A -> M B) : M B :=
  fun st =>
    match c st with
    | (inl e, st') => (inl e, st')
    | (inr a, st') => k a st'
    end.

Definition lift {A} (r : result A) : M A := fun st => (r, st).

Definition get_self : M ReconfSynthesis := fun st => (ret (obj st), st).

Definition put_self (self : ReconfSynthesis) : M unit :=
  fun st => (ret tt, mkState self (dc_log st) (fs_log st)).

Definition fs_do (e : FsEvent) : M unit :=
  fun st => (ret tt, mkState (obj st) (dc_log st) (fs_log st ++ [e])%list).

Declare Scope m_scope.
Delimit Scope m_scope with M.
Notation "x <- c ;; k" := (mbind c (fun x => k))
  (at level 61, c at next level, right associativity) : m_scope.
Notation "' pat <- c ;; k" := (mbind c (fun x => match x with pat => k end))
  (at level 61, pat pattern, c at next level, right associativity) : m_scope.
Notation "c ;; k" := (mbind c (fun _ => k))
  (at level 61, right associativity) : m_scope.

Definition set_acc_list (self : ReconfSynthesis) (l : list Z) :=
  mkReconfSynthesis (log_dir self) (work_dir self) (_weights self)
    (_circuit self) (_vdd_list self) l (_clock_multipliers self)
    (_mode_inputs self) (_mode_values self) (_power_table self)
    (_scen_table self).

Definition set_mode_values (self : ReconfSynthesis) (mv : option (list (list Z))) :=
  mkReconfSynthesis (log_dir self) (work_dir self) (_weights self)
    (_circuit self) (_vdd_list self) (_acc_list self) (_clock_multipliers self)
    (_mode_inputs self) mv (_power_table self) (_scen_table self).

Definition set_vdd_list (self : ReconfSynthesis) (l : list Q) :=
  mkReconfSynthesis (log_dir self) (work_dir self) (_weights self)
    (_circuit self) l (_acc_list self) (_clock_multipliers self)
    (_mode_inputs self) (_mode_values self) (_power_table self)
    (_scen_table self).

Definition set_power_table (self : ReconfSynthesis) (t : Dict.t Z (option Q)) :=
  mkReconfSynthesis (log_dir self) (work_dir self) (_weights self)
    (_circuit self) (_vdd_list self) (_acc_list self) (_clock_multipliers self)
    (_mode_inputs self) (_mode_values self) t (_scen_table self).

Definition set_scen_table (self : ReconfSynthesis)
    (t : Dict.t Z (option AxScenario)) :=
  mkReconfSynthesis (log_dir self) (work_dir self) (_weights self)
    (_circuit self) (_vdd_list self) (_acc_list self) (_clock_multipliers self)
    (_mode_inputs self) (_mode_values self) (_power_table self) t.

(** [d[k]] as an expression. *)
Definition getitem {V} (d : Dict.t Z V) (k : Z) : result V :=
  match Dict.get k d with
  | Some v => ret v
  | None => raise KeyError
  end.

(** [range(a, b)]. *)
Definition range (a b : nat) : list nat := seq a (b - a).

(* ====================================================================== *)
(** ** reconf/reconf.py: [ReconfSynthesis] *)

Module Reconf.

Definition DEFAULT_LOG_DIR : string := "log".
Definition DEFAULT_WORK_DIR : string := "work_reconf".
Definition LOG_REDIRECT : bool := true.

(** [__init__]; the list fields Python leaves at [None] until
    [read_config] sets them are empty lists here, so this is the object
    for [read_config] to fill, not one for [run]: on it the code raises
    at [len(None)], which an empty list does not show. *)
Definition init (log_dir work_dir : string) : ReconfSynthesis :=
  mkReconfSynthesis log_dir work_dir [] (mkAxCircuit [] [] []) [] [] []
    None None [] [].

Fixpoint check_mode_rows (mode_inputs : list string) (rows : list (list Z))
  : result unit :=
  match rows with
  | [] => ret tt
  | m :: rows' =>
      if negb (length m =? length mode_inputs)%nat then
        raise (ConfigException
                 "Each mode values sublist should match the mode inputs length")
      else if existsb (fun v => negb (v =? 0) && negb (v =? 1)) m then
        raise (ConfigException "Valid mode values are 0 and 1")
      else check_mode_rows mode_inputs rows'
  end.

Definition _check_mode_inputs (self : ReconfSynthesis) : result unit :=
  match _mode_inputs self with
  | None => ret tt
  | Some mode_inputs =>
      match _mode_values self with
      | None => raise TypeError
      | Some mode_values =>
          if negb (length (_acc_list self) =? length mode_values)%nat then
            raise (ConfigException
                     "Precision list and mode values list should have same length")
          else check_mode_rows mode_inputs mode_values
      end
  end.

Definition read_config (self : ReconfSynthesis) (config : ConfigFile)
  : result ReconfSynthesis :=
  rbind (Circuit.init (cf_input_ports config) (cf_output_ports config)
                      (cf_port_multipliers config)) (fun circuit =>
  let vdd_list := cf_vdd config in
  let acc_list := cf_precision config in
  let clock_multipliers :=
    match cf_clock_multipliers config with
    | Some l => l
    | None => map (fun _ => None) acc_list
    end in
  rbind
    (match cf_mode_inputs config with
     | Some mi =>
         match cf_mode_values config with
         | None => raise KeyError
         | Some mv =>
             let self' := mkReconfSynthesis (log_dir self) (work_dir self)
                            (_weights self) circuit vdd_list acc_list
                            clock_multipliers (Some mi) (Some mv)
                            (_power_table self) (_scen_table self) in
             rbind (_check_mode_inputs self') (fun _ => ret (Some mi, Some mv))
         end
     | None => ret (_mode_inputs self, _mode_values self)
     end) (fun '(mode_inputs, mode_values) =>
  rbind
    (match cf_weights config with
     | Some tmp_w =>
         if negb (length tmp_w =? length acc_list)%nat then
           raise (ConfigException "Wrong number of precision weights!")
         else ret tmp_w
     | None => ret (repeat 1%Q (length acc_list))
     end) (fun weights =>
  ret (mkReconfSynthesis (log_dir self) (work_dir self) weights circuit
         vdd_list acc_list clock_multipliers mode_inputs mode_values
         (_power_table self) (_scen_table self))))).

(** The scenarios [_combined_scenario_name] and [_combined_scenario_desc]
    iterate over: the values of the scenario table that are not [None]. *)
Definition accepted (self : ReconfSynthesis) : list AxScenario :=
  flat_map (fun v => match v with Some s => [s] | None => [] end)
           (Dict.values (_scen_table self)).

Definition _combined_scenario_name (self : ReconfSynthesis)
    (add_scenario : option AxScenario) : string :=
  let _str := String.concat "_" (map Scenario.name (accepted self)) in
  _str ++ match add_scenario with
          | None => ""
          | Some s => "_" ++ Scenario.name s
          end.

Definition _weighted_total_power (self : ReconfSynthesis) (power : list Q) : Q :=
  let weights := firstn (length power) (_weights self) in
  fold_left Qplus (map (fun '(i, j) => i * j)%Q (combine power weights)) 0%Q.

Definition _create_mode (self : ReconfSynthesis) (precision_index : nat)
  : result (option (list (string * Z))) :=
  match _mode_inputs self with
  | Some mode_inputs =>
      rbind
        (mapM (fun j =>
                 rbind (index mode_inputs j) (fun n =>
                 rbind (match _mode_values self with
                        | Some mv => index mv precision_index
                        | None => raise TypeError
                        end) (fun row =>
                 rbind (index row j) (fun v => ret (n, v)))))
              (range 0 (length mode_inputs)))
        (fun mode => ret (Some mode))
  | None => ret None
  end.

(** The locals [curr_power], [curr_tot_power], [curr_scenario] and
    [curr_vdd_id] of the voltage descent of one precision. *)
Record Best : Type := mkBest {
  b_power : list Q;
  b_tot_power : Q;
  b_scenario : AxScenario;
  b_vdd_id : nat
}.

Section Run.
Variable float_repr : Q -> string.
(** The tool's answer to its k-th invocation. *)
Variable backend : nat -> DcCall -> list Q * bool.
(** [os.path.dirname], [os.access(_, os.W_OK)], [os.path.exists]: the
    latter two may depend on what was done to the file system so far. *)
Variable os_path_dirname : string -> string.
Variable os_access_w : list FsEvent -> string -> bool.
Variable os_path_exists : list FsEvent -> string -> bool.

Local Open Scope m_scope.

Definition _combined_scenario_desc (self : ReconfSynthesis)
    (add_scenario : option AxScenario) : string :=
  let _str := String.concat " "
                (map (Scenario.tcl_description float_repr) (accepted self)) in
  _str ++ match add_scenario with
          | None => ""
          | Some s => " " ++ Scenario.tcl_description float_repr s
          end.

(** [_call_dc], lines 202-217: the command handed to the tool. *)
Definition dc_invocation (self : ReconfSynthesis)
    (add_scenario : option AxScenario) : DcCall :=
  let scen_comb_name := _combined_scenario_name self add_scenario in
  let log_file := log_dir self ++ "/" ++ scen_comb_name ++ ".log" in
  let data_file := work_dir self ++ "/" ++ scen_comb_name ++ ".dat" in
  let netlist_file := work_dir self ++ "/" ++ scen_comb_name ++ ".v" in
  let sdc_file := work_dir self ++ "/" ++ scen_comb_name ++ ".sdc" in
  let spef_file := work_dir self ++ "/" ++ scen_comb_name ++ ".spef" in
  let _cmd := Circuit.tcl_description (_circuit self) in
  let _cmd := _cmd ++ "set TARGET_SCENARIOS { "
                ++ _combined_scenario_desc self add_scenario ++ " } ;" in
  let _cmd := _cmd ++ "set OUT_FILE " ++ data_file ++ ";" in
  let _cmd := _cmd ++ "set NETLIST_FILE " ++ netlist_file ++ ";" in
  let _cmd := _cmd ++ "set SDC_FILE " ++ sdc_file ++ ";" in
  let _cmd := _cmd ++ "set SPEF_FILE " ++ spef_file ++ ";" in
  let _cmd := _cmd ++ "source custom_dc_scripts/ax/reconf/reconf_synth.tcl;" in
  mkDcCall _cmd log_file
    (accepted self ++ match add_scenario with
                      | Some s => [s]
                      | None => []
                      end)%list.

(** [_call_dc], lines 218-230: run the tool, read its answer. *)
Definition _call_dc (add_scenario : option AxScenario) : M (list Q * bool) :=
  fun st =>
    let call := dc_invocation (obj st) add_scenario in
    (ret (backend (length (dc_log st)) call),
     mkState (obj st) (dc_log st ++ [call])%list (fs_log st)).

Definition _init_dirs (output_dir : string) (output_table : option string)
  : M unit :=
  out_tab_dir <- lift (match output_table with
                       | Some t => ret (os_path_dirname t)
                       | None => raise TypeError
                       end) ;;
  self <- get_self ;;
  (fun st =>
     if negb (String.eqb out_tab_dir "")
        && negb (os_access_w (fs_log st) out_tab_dir) then
       mraise (FileNotFoundError
                 ("Cannot access directory " ++ dquote ++ out_tab_dir
                    ++ dquote ++ " for writing!")) st
     else mret tt st) ;;
  (fun st =>
     if LOG_REDIRECT && negb (os_path_exists (fs_log st) (log_dir self)) then
       fs_do (MakeDirs (log_dir self)) st
     else mret tt st) ;;
  (fun st =>
     if negb (os_path_exists (fs_log st) (work_dir self)) then
       fs_do (MakeDirs (work_dir self)) st
     else (fs_do (RmTree (work_dir self)) ;;
           fs_do (MakeDirs (work_dir self))) st) ;;
  (fun st =>
     if negb (os_path_exists (fs_log st) output_dir) then
       fs_do (MakeDirs output_dir) st
     else mret tt st).

Definition _save_netlist (output_dir : string) : M unit :=
  self <- get_self ;;
  let scen_comb_name := _combined_scenario_name self None in
  fs_do (CopyFile (work_dir self ++ "/" ++ scen_comb_name ++ ".v")
                  (output_dir ++ "/" ++ scen_comb_name ++ ".v")) ;;
  fs_do (CopyFile (work_dir self ++ "/" ++ scen_comb_name ++ ".sdc")
                  (output_dir ++ "/" ++ scen_comb_name ++ ".sdc")) ;;
  fs_do (CopyFile (work_dir self ++ "/" ++ scen_comb_name ++ ".spef")
                  (output_dir ++ "/" ++ scen_comb_name ++ ".spef")).

(** *** [run], lines 155-172: the probe of lower voltages *)
Fixpoint probe (curr_acc_id : nat) (curr_mode : option (list (string * Z)))
    (new_vdd_ids : list nat) (b : Best) : M Best :=
  match new_vdd_ids with
  | [] => mret b
  | new_vdd_id :: rest =>
      self <- get_self ;;
      a <- lift (index (_acc_list self) curr_acc_id) ;;
      v <- lift (index (_vdd_list self) new_vdd_id) ;;
      cm <- lift (index (_clock_multipliers self) curr_acc_id) ;;
      let new_scenario := mkAxScenario a v cm curr_mode in
      r <- _call_dc (Some new_scenario) ;;
      let new_power := fst r in
      let ok := snd r in
      let new_tot_power := _weighted_total_power self new_power in
      if ok && Qle_bool new_tot_power (b_tot_power b) then
        probe curr_acc_id curr_mode rest
              (mkBest new_power new_tot_power new_scenario new_vdd_id)
      else mret b
  end.

(** *** [run], lines 140-175: one precision after the other.  The locals
    that survive an iteration are [curr_vdd_id] and [curr_power]; the
    latter is unbound until the first iteration has run. *)
Fixpoint descend (curr_acc_ids : list nat) (curr_vdd_id : nat)
    (curr_power : option (list Q)) : M (option (list Q)) :=
  match curr_acc_ids with
  | [] => mret curr_power
  | curr_acc_id :: rest =>
      self <- get_self ;;
      curr_mode <- lift (_create_mode self curr_acc_id) ;;
      a <- lift (index (_acc_list self) curr_acc_id) ;;
      v <- lift (index (_vdd_list self) curr_vdd_id) ;;
      cm <- lift (index (_clock_multipliers self) curr_acc_id) ;;
      let curr_scenario := mkAxScenario a v cm curr_mode in
      r <- _call_dc (Some curr_scenario) ;;
      let curr_power := fst r in
      let ok := snd r in
      let curr_tot_power := _weighted_total_power self curr_power in
      if negb ok then
        mraise (TimingException
                  "Timing error when adding smaller precision, at same voltage")
      else
        b <- probe curr_acc_id curr_mode
               (range (curr_vdd_id + 1) (length (_vdd_list self)))
               (mkBest curr_power curr_tot_power curr_scenario curr_vdd_id) ;;
        k <- lift (index (_acc_list self) curr_acc_id) ;;
        put_self (set_scen_table self
                    (Dict.set k (Some (b_scenario b))
                              (_scen_table self))) ;;
        descend rest (b_vdd_id b) (Some (b_power b))
  end.

(** *** [run], lines 105-118: sorting and the empty tables *)
Definition sort_inputs : M unit :=
  self <- get_self ;;
  let sorted_idx :=
    sort_desc (fun i j => nth j (_acc_list self) 0 <=? nth i (_acc_list self) 0)
              (range 0 (length (_acc_list self))) in
  acc_list <- lift (mapM (index (_acc_list self)) sorted_idx) ;;
  let self := set_acc_list self acc_list in
  mode_values <- lift (match _mode_values self with
                       | Some mv =>
                           rbind (mapM (index mv) sorted_idx)
                                 (fun mv' => ret (Some mv'))
                       | None => ret None
                       end) ;;
  let self := set_mode_values self mode_values in
  let self := set_vdd_list self (sort_desc Qgeb (_vdd_list self)) in
  let self := set_scen_table self
                (Dict.of_list (map (fun a => (a, None)) (_acc_list self))) in
  let self := set_power_table self
                (Dict.of_list (map (fun a => (a, None)) (_acc_list self))) in
  put_self self.

(** *** [run], lines 120-136: the nominal synthesis *)
Definition nominal : M unit :=
  self <- get_self ;;
  nom_mode <- lift (_create_mode self 0) ;;
  a <- lift (index (_acc_list self) 0) ;;
  v <- lift (index (_vdd_list self) 0) ;;
  cm <- lift (index (_clock_multipliers self) 0) ;;
  let nom_scenario := mkAxScenario a v cm nom_mode in
  r <- _call_dc (Some nom_scenario) ;;
  let ok := snd r in
  if negb ok then
    mraise (TimingException
              "Cannot close timing on nominal condition synthesis")
  else
    k <- lift (index (_acc_list self) 0) ;;
    put_self (set_scen_table self
                (Dict.set k (Some nom_scenario) (_scen_table self))).

(** The rows [run] prints into the output table, up to the first one
    whose evaluation raises. *)
Fixpoint table_rows (self : ReconfSynthesis) (accs : list Z)
  : list (Z * option Q * Q) * option exn :=
  match accs with
  | [] => ([], None)
  | a :: accs' =>
      match rbind (getitem (_power_table self) a) (fun p =>
            rbind (getitem (_scen_table self) a) (fun s =>
            match s with
            | Some s => ret (a, p, vdd s)
            | None => raise AttributeError
            end)) with
      | inl e => ([], Some e)
      | inr row =>
          let '(rows, e) := table_rows self accs' in (row :: rows, e)
      end
  end.

(** *** [run], lines 177-195: the power table, the report, the result *)
Definition finalize (output_dir : string) (output_table : option string)
    (curr_power : option (list Q))
  : M (list (option Q * option AxScenario)) :=
  self <- get_self ;;
  curr_power <- lift (match curr_power with
                      | Some p => ret p
                      | None => raise (UnboundLocalError "curr_power")
                      end) ;;
  let self := set_power_table self
                (Dict.of_list (combine (_acc_list self)
                                       (map Some curr_power))) in
  put_self self ;;
  lift (mapM (fun a =>
                rbind (getitem (_scen_table self) a) (fun _ =>
                getitem (_power_table self) a))
             (_acc_list self)) ;;
  match output_table with
  | Some path =>
      let '(rows, e) := table_rows self (_acc_list self) in
      fs_do (WriteTable path rows) ;;
      match e with
      | Some e => mraise e
      | None => mret tt
      end
  | None => mret tt
  end ;;
  _save_netlist output_dir ;;
  lift (mapM (fun a =>
                rbind (getitem (_power_table self) a) (fun p =>
                rbind (getitem (_scen_table self) a) (fun s =>
                ret (p, s))))
             (_acc_list self)).

Definition run (output_dir : string) (output_table : option string)
  : M (list (option Q * option AxScenario)) :=
  _init_dirs output_dir output_table ;;
  sort_inputs ;;
  nominal ;;
  self <- get_self ;;
  curr_power <- descend (range 1 (length (_acc_list self))) 0 None ;;
  finalize output_dir output_table curr_power.

End Run.
End Reconf.

(* ====================================================================== *)
(** ** Text as the programs read it: [str.split()], [int(str)] *)

Module Text.

(** What reading malformed text raises. *)
Inductive exn : Type :=
| IndexError
| ValueError.

Definition result (A : Type) : Type := (exn + A)%type.

(** ASCII white space, where [str.split()] cuts: tab, line feed, vertical
    tab, form feed, carriage return, the four separators 28-31, space. *)
Definition is_space (c : ascii) : bool :=
  let n := nat_of_ascii c in
  ((9 <=? n) && (n <=? 13) || (28 <=? n) && (n <=? 32))%nat.

(** [s.split()], with the word read so far: the maximal runs of characters
    that are not white space, in order. *)
Fixpoint split_from (word : string) (s : string) : list string :=
  match s with
  | EmptyString =>
      match word with
      | EmptyString => []
      | _ => [word]
      end
  | String c s' =>
      if is_space c then
        match word with
        | EmptyString => split_from "" s'
        | _ => word :: split_from "" s'
        end
      else split_from (word ++ String c "") s'
  end.

Definition split (s : string) : list string := split_from "" s.

(** The digits of [int(s)]: decimal digits, single underscores allowed
    between two of them. *)
Fixpoint digits (value : Z) (after_digit : bool) (s : string) : option Z :=
  match s with
  | EmptyString => if after_digit then Some value else None
  | String c s' =>
      if is_digit c then
        digits (10 * value + (Z.of_nat (nat_of_ascii c) - 48)) true s'
      else if Ascii.eqb c "_" && after_digit then digits value false s'
      else None
  end.

(** [int(s)] for a word [s] of [split]: an optional sign and the digits;
    [None] where Python raises [ValueError]. *)
Definition int_of_str (s : string) : option Z :=
  match s with
  | String "+" s' => digits 0 false s'
  | String "-" s' => option_map Z.opp (digits 0 false s')
  | _ => digits 0 false s
  end.

(** A word: not empty, no white space. *)
Fixpoint no_space (s : string) : bool :=
  match s with
  | EmptyString => true
  | String c s' => negb (is_space c) && no_space s'
  end.

Definition is_word (s : string) : bool :=
  negb (String.eqb s "") && no_space s.

(** Nothing but white space. *)
Fixpoint blank (s : string) : bool :=
  match s with
  | EmptyString => true
  | String c s' => is_space c && blank s'
  end.

End Text.

(* ====================================================================== *)
(** ** reconf/reconf.py: [_parse_data] *)

Section ParseData.
(** [float(w)] for a word [w]: its value, [None] where Python raises
    [ValueError]. *)
Variable float_of_str : string -> option Q.

Fixpoint floats (ws : list string) : option (list Q) :=
  match ws with
  | [] => Some []
  | w :: ws' =>
      match float_of_str w with
      | None => None
      | Some x =>
          match floats ws' with
          | None => None
          | Some xs => Some (x :: xs)
          end
      end
  end.

(** [_parse_data] on the lines [f.readlines()] gives for the data file. *)
Definition _parse_data (lines : list string) : Text.result (list Q * bool) :=
  match lines with
  | [] => inl Text.IndexError
  | l :: _ =>
      let w := Text.split l in
      match floats (removelast w) with
      | None => inl Text.ValueError
      | Some power =>
          match w with
          | [] => inl Text.IndexError
          | _ :: _ =>
              match Text.int_of_str (last w "") with
              | None => inl Text.ValueError
              | Some flag => inr (power, flag =? 1)
              end
          end
      end
  end.
End ParseData.

(* ====================================================================== *)
(** ** helper.py: [set_csh_env] *)

Section CshEnv.
(** [os.path.expandvars], given the environment it reads. *)
Variable expandvars : Dict.t string string -> string -> string.
(** Whether [os.environ] accepts the assignment of a value to a name; it
    raises [ValueError] when it does not. *)
Variable putenv_ok : string -> string -> bool.

(** [set_csh_env] on the lines of the script: the outcome and the
    environment it leaves. *)
Fixpoint set_csh_env (lines : list string) (environ : Dict.t string string)
  : Text.result unit * Dict.t string string :=
  match lines with
  | [] => (inr tt, environ)
  | l :: lines' =>
      if String.prefix "setenv" l then
        let w := Text.split l in
        match nth_error w 2 with
        | None => (inl Text.IndexError, environ)
        | Some w2 =>
            let val := expandvars environ w2 in
            match nth_error w 1 with
            | None => (inl Text.IndexError, environ)
            | Some w1 =>
                if putenv_ok w1 val then
                  set_csh_env lines' (Dict.set w1 val environ)
                else (inl Text.ValueError, environ)
            end
        end
      else set_csh_env lines' environ
  end.
End CshEnv.

(* ====================================================================== *)
(** ** scenario.py: [duplicate] *)

(** A number as an [AxScenario] holds it: the constructor takes an [int]
    or a [float] in either of [accuracy] and [vdd]. *)
Inductive number : Type :=
| PyInt (n : Z)
| PyFloat (x : Q).

(** The object [AxScenario.__init__] builds from any two numbers. *)
Record AxScenarioObject : Type := mkAxScenarioObject {
  obj_accuracy : number;
  obj_vdd : number;
  obj_clock_multiplier : option Q;
  obj_mode_signals : option (list (string * Z))
}.

Module ScenarioObject.

(** An [AxScenario] as [reconf.py] builds them: [int] accuracy, [float]
    voltage. *)
Definition of_scenario (s : AxScenario) : AxScenarioObject :=
  mkAxScenarioObject (PyInt (accuracy s)) (PyFloat (vdd s))
    (clock_multiplier s) (mode_signals s).

(** [duplicate]: the constructor called with [self.vdd] first and
    [self.accuracy] second. *)
Definition duplicate (o : AxScenarioObject) : AxScenarioObject :=
  mkAxScenarioObject (obj_vdd o) (obj_accuracy o)
    (obj_clock_multiplier o) (obj_mode_signals o).

Definition value (x : number) : Q :=
  match x with
  | PyInt n => inject_Z n
  | PyFloat q => q
  end.

Section Name.
Variable float_repr : Q -> string.

(** ["{}".format(x)]. *)
Definition format (x : number) : string :=
  match x with
  | PyInt n => str_int n
  | PyFloat q => float_repr q
  end.

Definition name (o : AxScenarioObject) : string :=
  "acc_" ++ format (obj_accuracy o) ++ "bit_vdd_"
    ++ voltage_to_string (value (obj_vdd o)) ++ "V".
End Name.

End ScenarioObject.

(* ====================================================================== *)
(** ** Vocabulary of the properties *)

(** A dictionary holds each key once. *)
Fixpoint dict_wf {K V} `{Key K} (d : Dict.t K V) : bool :=
  match d with
  | [] => true
  | (k, _) :: d' => negb (Dict.mem k d') && dict_wf d'
  end.

(** Every key of the multiplier table names an input or an output port. *)
Definition multipliers_known (c : AxCircuit) : bool :=
  forallb (fun n => Dict.mem n (input_ports c) || Dict.mem n (output_ports c))
          (Dict.keys (port_multipliers c)).

(** No name is both an input and an output port. *)
Definition directions_disjoint (c : AxCircuit) : bool :=
  forallb (fun n => negb (Dict.mem n (output_ports c)))
          (Dict.keys (input_ports c)).

Definition circuit_wf (c : AxCircuit) : bool :=
  dict_wf (input_ports c) && dict_wf (output_ports c)
  && dict_wf (port_multipliers c).

(** The items of a port table, one after the other. *)
Definition port_items (c : AxCircuit) (ports : Dict.t string Z) : string :=
  String.concat "" (map (fun '(n, w) => Circuit.port_item c n w) ports).

(** The weight the configuration file gives to a precision: the entry of
    [weights] at the position where [precision] lists it, and 1 when the
    file has no [weights]. *)
Definition configured_weight (config : ConfigFile) (a : Z) : Q :=
  match cf_weights config with
  | None => 1%Q
  | Some w =>
      match find (fun pw => fst pw =? a) (combine (cf_precision config) w) with
      | Some pw => snd pw
      | None => 1%Q
      end
  end.

(** The total of a power vector whose entries belong, in order, to the
    precisions [accs]: each power times the weight configured for its
    precision. *)
Definition total_by_precision (config : ConfigFile) (accs : list Z)
    (power : list Q) : Q :=
  fold_left Qplus
            (map (fun pa => (fst pa * configured_weight config (snd pa))%Q)
                 (combine power accs))
            0%Q.

(** Directory preparation, as opposed to writing the report or copying
    artifacts. *)
Definition is_dir_event (e : FsEvent) : bool :=
  match e with
  | MakeDirs _ | RmTree _ => true
  | WriteTable _ _ | CopyFile _ _ => false
  end.

(** What a computation may do to the state, as a relation between the state
    before and the state after. *)
Definition preserves {A} (R : State -> State -> Prop) (c : M A) : Prop :=
  forall st, R st (snd (c st)).

(** Only directories were prepared: same object, same tool invocations. *)
Definition dirs_only (st st' : State) : Prop :=
  obj st' = obj st /\ dc_log st' = dc_log st /\
  exists evs, fs_log st' = (fs_log st ++ evs)%list /\
              forallb is_dir_event evs = true.

(** Only the object changed. *)
Definition same_logs (st st' : State) : Prop :=
  dc_log st' = dc_log st /\ fs_log st' = fs_log st.

(** The scenario table aside, the object is the same. *)
Definition same_config (self self' : ReconfSynthesis) : Prop :=
  self' = set_scen_table self (_scen_table self').

(** Only the tool was invoked, and only the scenario table changed. *)
Definition calls_only (st st' : State) : Prop :=
  same_config (obj st) (obj st') /\ fs_log st' = fs_log st /\
  exists cs, dc_log st' = (dc_log st ++ cs)%list.

(** The precisions in the order [run] processes them. *)
Definition sorted_precisions (l : list Z) : list Z :=
  map (fun i => nth i l 0)
      (sort_desc (fun i j => nth j l 0 <=? nth i l 0) (range 0 (length l))).

(** The scenario table before any scenario is accepted. *)
Definition empty_table {V} (accs : list Z) : Dict.t Z (option V) :=
  Dict.of_list (map (fun a => (a, None)) accs).

(** *** The voltage descent of one precision, probe by probe *)

(** The trial scenario of precision number [curr_acc_id] at voltage number
    [vdd_id]. *)
Definition probe_scenario (self : ReconfSynthesis) (curr_acc_id : nat)
    (curr_mode : option (list (string * Z))) (vdd_id : nat) : AxScenario :=
  mkAxScenario (nth curr_acc_id (_acc_list self) 0)
               (nth vdd_id (_vdd_list self) 0%Q)
               (nth curr_acc_id (_clock_multipliers self) None)
               curr_mode.

Section ProbeVocabulary.
Variable float_repr : Q -> string.
Variable backend : nat -> DcCall -> list Q * bool.
(** The object, the number of invocations made before the first probe,
    the precision, its mode, the voltage the descent starts from and the
    best configuration known when it starts. *)
Variable self : ReconfSynthesis.
Variable base : nat.
Variable curr_acc_id : nat.
Variable curr_mode : option (list (string * Z)).
Variable v0 : nat.
Variable b0 : Reconf.Best.

(** Probe number [i] tries voltage number [v0 + 1 + i]. *)
Definition probe_call (i : nat) : DcCall :=
  Reconf.dc_invocation float_repr self
    (Some (probe_scenario self curr_acc_id curr_mode (v0 + 1 + i))).

Definition probe_response (i : nat) : list Q * bool :=
  backend (base + i) (probe_call i).

Definition probe_total (i : nat) : Q :=
  Reconf._weighted_total_power self (fst (probe_response i)).

(** Probe [i] is compliant and its total does not exceed the total of the
    probe before it (of the starting configuration, for the first). *)
Definition probe_accepts (i : nat) : bool :=
  snd (probe_response i)
  && Qle_bool (probe_total i)
              (match i with
               | O => Reconf.b_tot_power b0
               | S j => probe_total j
               end).

(** The configuration held after [k] accepted probes. *)
Definition probe_best (k : nat) : Reconf.Best :=
  match k with
  | O => b0
  | S j => Reconf.mkBest (fst (probe_response j)) (probe_total j)
             (probe_scenario self curr_acc_id curr_mode (v0 + 1 + j))
             (v0 + 1 + j)
  end.

(** Invocation number [t] of the descent of the precision: the trial at
    the voltage carried over, then the probes. *)
Definition descent_call (t : nat) : DcCall :=
  match t with
  | O => Reconf.dc_invocation float_repr self
           (Some (probe_scenario self curr_acc_id curr_mode v0))
  | S i => probe_call i
  end.
End ProbeVocabulary.

(** The number of leading probes, among the first [m] from [from] on,
    that [accepts] lets through. *)
Fixpoint accepted_steps (accepts : nat -> bool) (from m : nat) : nat :=
  match m with
  | O => O
  | S m' => if accepts from then S (accepted_steps accepts (S from) m')
            else O
  end.

(** *** The power table *)

(** The precision an invocation tries: that of the scenario [_call_dc]
    adds to the accepted ones, the last of its scenarios. *)
Definition tried (c : DcCall) : option Z :=
  option_map accuracy (hd_error (rev (dc_scenarios c))).

(** [c] probes a lower voltage after [c0]: it tries the precision [c0]
    tried. *)
Definition probe_after (c0 c : DcCall) : bool :=
  match tried c0, tried c with
  | Some a0, Some a => a0 =? a
  | _, _ => false
  end.

(** The invocation [c], made as number [S k] right after [c0], is
    accepted: the tool says "compliant" and, when [c] is a probe, its
    total does not exceed the total of [c0]. *)
Definition accepts_call (backend : nat -> DcCall -> list Q * bool)
    (self : ReconfSynthesis) (k : nat) (c0 c : DcCall) : bool :=
  snd (backend (S k) c)
  && (negb (probe_after c0 c)
      || Qle_bool (Reconf._weighted_total_power self (fst (backend (S k) c)))
                  (Reconf._weighted_total_power self (fst (backend k c0)))).

(** [p] is the power vector the tool gave to the last invocation that was
    accepted, among those made after the first [from] ones: that
    invocation is the last of the log, or the last but one when the last
    was not accepted. *)
Definition last_accepted (backend : nat -> DcCall -> list Q * bool)
    (self : ReconfSynthesis) (from : nat) (log : list DcCall) (p : list Q)
  : Prop :=
  exists pre c0 c post,
    log = (pre ++ c0 :: c :: post)%list /\
    (from <= length pre)%nat /\
    fst (backend (S (length pre)) c) = p /\
    accepts_call backend self (length pre) c0 c = true /\
    (post = [] \/
     exists c',
       post = [c'] /\
       accepts_call backend self (S (length pre)) c c' = false).

(** The entry of the result of [run] for precision [a]. *)
Definition table_row (self : ReconfSynthesis) (a : Z)
    (row : option Q * option AxScenario) : Prop :=
  Dict.get a (_power_table self) = Some (fst row) /\
  Dict.get a (_scen_table self) = Some (snd row).

(** *** The search: accepted scenarios and cumulative invocations *)

Definition prefix_of {A} (pre l : list A) : Prop :=
  exists suf, l = (pre ++ suf)%list.

(** The scenario table of the precisions [accs] once the scenarios [cs]
    are accepted for the first of them. *)
Definition scen_table_of (accs : list Z) (cs : list AxScenario)
  : Dict.t Z (option AxScenario) :=
  combine accs (map Some cs ++ repeat None (length accs - length cs))%list.

(** An invocation made of scenarios accepted for all the higher precisions,
    [pre], and of one trial scenario [t] for the next precision. *)
Definition cumulative (accs : list Z) (cs : list AxScenario) (c : DcCall)
  : Prop :=
  exists pre t,
    dc_scenarios c = (pre ++ [t])%list /\
    prefix_of pre cs /\
    nth_error accs (length pre) = Some (accuracy t).

(** The state of the search after the scenarios [cs] are accepted, the last
    of them at voltage number [v]: the table holds them, they follow the
    precisions, each at a voltage number up to [v] and none above a voltage
    accepted before it, and the invocations since [log0] are the nominal one
    followed by cumulative ones. *)
Definition search_inv (self0 : ReconfSynthesis) (log0 : list DcCall)
    (st : State) (cs : list AxScenario) (v : nat) : Prop :=
  obj st = set_scen_table self0 (scen_table_of (_acc_list self0) cs) /\
  (0 < length cs <= length (_acc_list self0))%nat /\
  (v < length (_vdd_list self0))%nat /\
  Forall2 (fun a s => accuracy s = a)
          (firstn (length cs) (_acc_list self0)) cs /\
  Forall (fun s => exists u, (u <= v)%nat /\
                             vdd s = nth u (_vdd_list self0) 0%Q) cs /\
  StronglySorted (fun s s' => (vdd s' <= vdd s)%Q) cs /\
  exists c_nom others,
    dc_log st = (log0 ++ c_nom :: others)%list /\
    length (dc_scenarios c_nom) = 1%nat /\
    Forall (fun c => (2 <= length (dc_scenarios c))%nat) others /\
    Forall (cumulative (_acc_list self0) cs) (c_nom :: others).

(** What holds of a run that invoked the tool: the accepted scenarios
    follow the precisions with voltages that never increase, one invocation
    carries a single scenario, and every invocation is cumulative. *)
Definition search_outcome (st' : State) (calls : list DcCall) : Prop :=
  let cs := Reconf.accepted (obj st') in
  let accs := _acc_list (obj st') in
  StronglySorted (fun s s' => (vdd s' <= vdd s)%Q) cs /\
  Forall2 (fun a s => accuracy s = a) (firstn (length cs) accs) cs /\
  (exists c_nom others,
      calls = c_nom :: others /\
      length (dc_scenarios c_nom) = 1%nat /\
      Forall (fun c => (2 <= length (dc_scenarios c))%nat) others) /\
  Forall (cumulative accs cs) calls.

(** The part of the state the search is about is unchanged. *)
Definition same_search (st st' : State) : Prop :=
  dc_log st' = dc_log st /\
  _scen_table (obj st') = _scen_table (obj st) /\
  _acc_list (obj st') = _acc_list (obj st).

(** *** More vocabulary *)

(** The port table of a direction, and the other direction. *)
Definition ports_of (direction : PortDirection) (c : AxCircuit)
  : Dict.t string Z :=
  match direction with
  | INPUT => input_ports c
  | OUTPUT => output_ports c
  end.

Definition opposite (direction : PortDirection) : PortDirection :=
  match direction with
  | INPUT => OUTPUT
  | OUTPUT => INPUT
  end.

(** Every character of a text passes a test. *)
Fixpoint all_chars (p : ascii -> bool) (s : string) : bool :=
  match s with
  | EmptyString => true
  | String c s' => p c && all_chars p s'
  end.

(** The characters [str_int] writes. *)
Definition sign_or_digit (c : ascii) : bool :=
  is_digit c || Ascii.eqb c "-".

(** *** What a run leaves behind *)

Definition is_timing (e : exn) : bool :=
  match e with
  | TimingException _ => true
  | _ => false
  end.

(** The exceptions of the look-ups that end a run: a precision missing
    from a table, a scenario never set, a power vector never bound. *)
Definition is_lookup_error (e : exn) : bool :=
  match e with
  | KeyError | AttributeError | UnboundLocalError _ => true
  | _ => false
  end.

(** Mode inputs are set, and there is one at least, but no mode values. *)
Definition modes_without_values (self : ReconfSynthesis) : Prop :=
  (exists m ms, _mode_inputs self = Some (m :: ms)) /\
  _mode_values self = None.

(** Writing the report or copying artifacts, as opposed to preparing
    directories. *)
Definition is_output_event (e : FsEvent) : bool := negb (is_dir_event e).

(** Only the report was written and artifacts copied: same tool
    invocations. *)
Definition outputs_only (st st' : State) : Prop :=
  dc_log st' = dc_log st /\
  exists evs, fs_log st' = (fs_log st ++ evs)%list /\
              forallb is_output_event evs = true.

(** The exceptions a computation may end in. *)
Definition raises_only {A} (P : exn -> Prop) (c : M A) : Prop :=
  forall st e st', c st = (inl e, st') -> P e.

(** *** Configurations and stubs for the examples *)

Definition stub_float_repr (q : Q) : string := "".
Definition stub_dirname (path : string) : string := "".
Definition stub_writable (log : list FsEvent) (path : string) : bool := true.
Definition stub_exists (log : list FsEvent) (path : string) : bool := false.

(** Three precisions and three voltages, as [read_config] loads them from a
    file without clock multipliers, mode signals and weights. *)
Definition example_self : ReconfSynthesis :=
  mkReconfSynthesis "log" "work_reconf" [1%Q; 1%Q; 1%Q]
    (mkAxCircuit [("a", 8); ("b", 8)] [("y", 16)] [])
    [1%Q; (9 # 10)%Q; (8 # 10)%Q] [8; 4; 2] [None; None; None]
    None None [] [].

(** Two precisions and two voltages. *)
Definition two_self : ReconfSynthesis :=
  mkReconfSynthesis "log" "work_reconf" [1%Q; 1%Q]
    (mkAxCircuit [("a", 8); ("b", 8)] [("y", 16)] [])
    [1%Q; (9 # 10)%Q] [8; 4] [None; None] None None [] [].

(** One precision. *)
Definition one_self : ReconfSynthesis :=
  mkReconfSynthesis "log" "work_reconf" [1%Q]
    (mkAxCircuit [("a", 8); ("b", 8)] [("y", 16)] [])
    [1%Q; (9 # 10)%Q] [8] [None] None None [] [].

(** Always compliant, power 0.5 for each scenario of the invocation. *)
Definition compliant_stub (k : nat) (c : DcCall) : list Q * bool :=
  (repeat (1 # 2)%Q (length (dc_scenarios c)), true).

(** Never compliant. *)
Definition failing_stub (k : nat) (c : DcCall) : list Q * bool :=
  ([1%Q], false).

(** Always compliant; the power goes up at the third invocation. *)
Definition rising_stub (k : nat) (c : DcCall) : list Q * bool :=
  match k with
  | 0%nat => ([1%Q], true)
  | 1%nat => ([1%Q; 1%Q], true)
  | _ => ([5%Q; 5%Q], true)
  end.

(** The descent of precision 4 over the voltages 1.0, 0.9, 0.8, 0.7, with
    precision 8 accepted at 1.0: the total is 10 at 1.0, and the totals of
    the probes are 8, then 9, then 5. *)
Definition dip_self : ReconfSynthesis :=
  mkReconfSynthesis "log" "work_reconf" [1%Q; 1%Q]
    (mkAxCircuit [("a", 8); ("b", 8)] [("y", 16)] [])
    [1%Q; (9 # 10)%Q; (8 # 10)%Q; (7 # 10)%Q] [8; 4] [None; None]
    None None []
    [(8, Some (mkAxScenario 8 1%Q None None)); (4, None)].

Definition dip_state : State := mkState dip_self [] [].

Definition dip_stub (k : nat) (c : DcCall) : list Q * bool :=
  match k with
  | 0%nat => ([5%Q; 5%Q], true)
  | 1%nat => ([4%Q; 4%Q], true)
  | 2%nat => ([4%Q; 5%Q], true)
  | _ => ([2%Q; 3%Q], true)
  end.

Definition no_call : DcCall := mkDcCall "" "" [].

(** *** More configurations and stubs for the examples *)

(** Reads the words that [int] reads, as floats. *)
Definition stub_float_of_str (w : string) : option Q :=
  option_map inject_Z (Text.int_of_str w).

(** Expands a word that is a dollar sign and the name of a variable. *)
Definition stub_expandvars (environ : Dict.t string string) (s : string)
  : string :=
  match s with
  | String "$" n =>
      match Dict.get n environ with
      | Some v => v
      | None => s
      end
  | _ => s
  end.

Definition stub_putenv_ok (name value : string) : bool := true.

Definition tables_dirname (path : string) : string := "tables".
Definition stub_unwritable (log : list FsEvent) (path : string) : bool := false.

(** Compliant for the nominal scenario, not compliant afterwards. *)
Definition second_fails_stub (k : nat) (c : DcCall) : list Q * bool :=
  ([1%Q], (k =? 0)%nat).

(** A file with two mode inputs, read by [read_config] below. *)
Definition mode_config : ConfigFile :=
  mkConfigFile [("a", 8); ("b", 8)] [("y", 16)] [("a", 2)]
    [(9 # 10)%Q; 1%Q] [4; 8] None
    (Some ["m0"; "m1"]) (Some [[0; 1]; [0; 0]]) None.

(** The object that file gives before [run] sorts it. *)
Definition mode_self : ReconfSynthesis :=
  mkReconfSynthesis "log" "work_reconf" [1%Q; 1%Q]
    (mkAxCircuit [("a", 8); ("b", 8)] [("y", 16)] [("a", 2)])
    [(9 # 10)%Q; 1%Q] [4; 8] [None; None]
    (Some ["m0"; "m1"]) (Some [[0; 1]; [0; 0]]) [] [].

(** No precision. *)
Definition empty_self : ReconfSynthesis :=
  mkReconfSynthesis "log" "work_reconf" []
    (mkAxCircuit [("a", 8); ("b", 8)] [("y", 16)] [])
    [1%Q; (9 # 10)%Q] [] [] None None [] [].

(** Mode inputs that were given no values. *)
Definition no_values_self : ReconfSynthesis :=
  mkReconfSynthesis "log" "work_reconf" [1%Q; 1%Q]
    (mkAxCircuit [("a", 8); ("b", 8)] [("y", 16)] [])
    [1%Q; (9 # 10)%Q] [8; 4] [None; None] (Some ["m0"]) None [] [].

Definition shared_name_circuit : AxCircuit :=
  mkAxCircuit [("a", 8); ("b", 4)] [("a", 8)] [("a", 2)].

Definition small_circuit : AxCircuit :=
  mkAxCircuit [("a", 8); ("b", 4)] [("y", 8)] [("a", 2)].

(* ====================================================================== *)
(** * Properties *)

(** ** Strings *)

Lemma append_assoc (a b c : string) : (a ++ b) ++ c = a ++ (b ++ c).
Proof.
  induction a as [|ch a IH]; simpl; [reflexivity|].
  now rewrite IH.
Qed.

Lemma append_nil_r (a : string) : a ++ "" = a.
Proof.
  induction a as [|ch a IH]; simpl; [reflexivity|].
  now rewrite IH.
Qed.

Lemma concat_empty_cons (x : string) (l : list string) :
  String.concat "" (x :: l) = x ++ String.concat "" l.
Proof.
  destruct l; simpl; [now rewrite append_nil_r | reflexivity].
Qed.

Lemma concat_empty_app (l1 l2 : list string) :
  String.concat "" (l1 ++ l2) = String.concat "" l1 ++ String.concat "" l2.
Proof.
  induction l1 as [|x l1 IH].
  - reflexivity.
  - rewrite <- app_comm_cons, !concat_empty_cons, IH.
    now rewrite append_assoc.
Qed.

(** ** Dictionaries *)

Section DictFacts.
Context {K V : Type} `{Key K}.
Implicit Types (k : K) (v : V) (d : Dict.t K V).

Lemma keqb_refl k : keqb k k = true.
Proof. destruct (keqb_spec k k); congruence. Qed.

Lemma keqb_neq k k' : k <> k' -> keqb k k' = false.
Proof. destruct (keqb_spec k k'); congruence. Qed.

Lemma mem_In k d : Dict.mem k d = true <-> In k (Dict.keys d).
Proof.
  induction d as [|[k' v'] d IH]; simpl.
  - split; [discriminate | tauto].
  - destruct (keqb_spec k k') as [->|Hne].
    + split; auto.
    + rewrite IH. split; [auto | intros [E|E]; congruence].
Qed.

Lemma mem_get k d : Dict.mem k d = true <-> exists v, Dict.get k d = Some v.
Proof.
  induction d as [|[k' v'] d IH]; simpl.
  - split; [discriminate | intros [v E]; discriminate].
  - destruct (keqb k k'); [split; eauto | exact IH].
Qed.

Lemma mem_set k k' v d :
  Dict.mem k (Dict.set k' v d) = keqb k k' || Dict.mem k d.
Proof.
  induction d as [|[k0 v0] d IH]; simpl.
  - now destruct (keqb k k').
  - destruct (keqb_spec k' k0) as [->|Hne]; simpl.
    + destruct (keqb k k0); reflexivity.
    + rewrite IH. destruct (keqb k k'), (keqb k k0); reflexivity.
Qed.

Lemma set_fresh k v d :
  Dict.mem k d = false -> Dict.set k v d = (d ++ [(k, v)])%list.
Proof.
  induction d as [|[k0 v0] d IH]; simpl; [reflexivity|].
  destruct (keqb k k0); [discriminate|].
  intros E. now rewrite IH.
Qed.

Lemma keys_set_present k v d :
  Dict.mem k d = true -> Dict.keys (Dict.set k v d) = Dict.keys d.
Proof.
  induction d as [|[k0 v0] d IH]; simpl; [discriminate|].
  destruct (keqb k k0); simpl; [reflexivity|].
  intros E. now rewrite IH.
Qed.

Lemma del_set_fresh k v d :
  Dict.mem k d = false -> Dict.del k (Dict.set k v d) = d.
Proof.
  induction d as [|[k0 v0] d IH]; simpl.
  - now rewrite keqb_refl.
  - destruct (keqb k k0) eqn:E; [discriminate|].
    intros Hm. simpl. rewrite E. now rewrite IH.
Qed.

Lemma length_del k d :
  Dict.mem k d = true -> S (length (Dict.del k d)) = length d.
Proof.
  induction d as [|[k0 v0] d IH]; simpl; [discriminate|].
  destruct (keqb k k0); [reflexivity|].
  intros E. simpl. now rewrite IH.
Qed.

Lemma del_neq k d : Dict.mem k d = true -> Dict.del k d <> d.
Proof.
  intros Hm E. apply length_del in Hm. rewrite E in Hm. lia.
Qed.

Lemma mem_del_other k k' d :
  k <> k' -> Dict.mem k (Dict.del k' d) = Dict.mem k d.
Proof.
  intros Hne. induction d as [|[k0 v0] d IH]; simpl; [reflexivity|].
  destruct (keqb_spec k' k0) as [->|Hne0]; simpl.
  - now rewrite (keqb_neq _ _ Hne).
  - now rewrite IH.
Qed.

Lemma mem_del_le k k' d :
  Dict.mem k (Dict.del k' d) = true -> Dict.mem k d = true.
Proof.
  induction d as [|[k0 v0] d IH]; simpl; [discriminate|].
  destruct (keqb k' k0); simpl.
  - intros ->. now destruct (keqb k k0).
  - destruct (keqb k k0); auto.
Qed.

Lemma mem_del_same k d :
  dict_wf d = true -> Dict.mem k (Dict.del k d) = false.
Proof.
  induction d as [|[k0 v0] d IH]; simpl; [reflexivity|].
  intros [Hk Hwf]%andb_prop.
  destruct (keqb_spec k k0) as [->|Hne]; simpl.
  - now apply negb_true_iff.
  - rewrite (keqb_neq _ _ Hne). auto.
Qed.

Lemma dict_wf_set k v d : dict_wf d = true -> dict_wf (Dict.set k v d) = true.
Proof.
  induction d as [|[k0 v0] d IH]; simpl; [reflexivity|].
  intros [Hk Hwf]%andb_prop.
  destruct (keqb_spec k k0) as [->|Hne]; simpl.
  - now rewrite Hk, Hwf.
  - rewrite mem_set, IH by assumption.
    rewrite (keqb_neq k0 k) by congruence. simpl. now rewrite Hk.
Qed.

Lemma dict_wf_del k d : dict_wf d = true -> dict_wf (Dict.del k d) = true.
Proof.
  induction d as [|[k0 v0] d IH]; simpl; [reflexivity|].
  intros [Hk Hwf]%andb_prop.
  destruct (keqb k k0); simpl; [assumption|].
  rewrite IH by assumption. rewrite andb_true_r.
  apply negb_true_iff. apply negb_true_iff in Hk.
  destruct (Dict.mem k0 (Dict.del k d)) eqn:E; [|reflexivity].
  apply mem_del_le in E. congruence.
Qed.
End DictFacts.

(** ** The circuit descriptor *)

Lemma multipliers_known_spec (c : AxCircuit) :
  multipliers_known c = true <->
  forall n, Dict.mem n (port_multipliers c) = true ->
            Dict.mem n (input_ports c) || Dict.mem n (output_ports c) = true.
Proof.
  unfold multipliers_known. rewrite forallb_forall.
  split; intros Hk n Hn; apply Hk; now apply mem_In.
Qed.

Lemma directions_disjoint_spec (c : AxCircuit) :
  directions_disjoint c = true <->
  forall n, Dict.mem n (input_ports c) = true ->
            Dict.mem n (output_ports c) = false.
Proof.
  unfold directions_disjoint. rewrite forallb_forall.
  split; intros Hk n Hn.
  - apply negb_true_iff, Hk. now apply mem_In.
  - apply negb_true_iff, Hk. now apply mem_In.
Qed.

Lemma duplicate_known (c : AxCircuit) :
  multipliers_known c = true -> Circuit.duplicate c = inr c.
Proof.
  intros Hk. unfold Circuit.duplicate, Circuit.init.
  destruct (find _ _) as [n|] eqn:E.
  - apply find_some in E. destruct E as [Hin E].
    apply mem_In in Hin.
    apply (proj1 (multipliers_known_spec c) Hk) in Hin.
    destruct (Dict.mem n (input_ports c)), (Dict.mem n (output_ports c));
      discriminate.
  - now destruct c.
Qed.

Lemma add_port_inv (c c' : AxCircuit) name width direction multiplier :
  Circuit.add_port c name width direction multiplier = inr c' ->
  match direction with
  | INPUT =>
      Dict.mem name (input_ports c) = false /\
      c' = mkAxCircuit (Dict.set name width (input_ports c))
                       (output_ports c) (port_multipliers c)
  | OUTPUT =>
      Dict.mem name (output_ports c) = false /\
      c' = mkAxCircuit (input_ports c)
                       (Dict.set name width (output_ports c))
                       (port_multipliers c)
  end.
Proof.
  unfold Circuit.add_port, ret, raise.
  destruct direction.
  - destruct (Dict.mem name (input_ports c)); [discriminate|].
    intros [= <-]. auto.
  - destruct (Dict.mem name (output_ports c)); [discriminate|].
    intros [= <-]. auto.
Qed.

Lemma remove_after_add
    (c c' : AxCircuit) (name : string) (width : Z)
    (direction : PortDirection) (multiplier : Z) :
  Circuit.add_port c name width direction multiplier = inr c' ->
  (Circuit.remove_port c' name = inr c <->
   Dict.mem name (input_ports c) = false /\
   Dict.mem name (port_multipliers c) = false).
Proof.
  intros Hadd. apply add_port_inv in Hadd.
  destruct c as [ip op pm]. simpl in Hadd.
  unfold Circuit.remove_port, ret, raise.
  destruct direction; destruct Hadd as [Hfresh ->]; simpl.
  - rewrite mem_set, keqb_refl. simpl.
    rewrite (del_set_fresh _ _ _ Hfresh).
    destruct (Dict.mem name pm) eqn:Hpm.
    + split; [|intros [_ E]; discriminate].
      intros [= E]. now apply del_neq in E.
    + split; auto.
  - rewrite mem_set, keqb_refl. rewrite andb_false_r.
    destruct (Dict.mem name ip) eqn:Hip.
    + split; [|intros [E _]; discriminate].
      intros [= E _]. now apply del_neq in E.
    + rewrite (del_set_fresh _ _ _ Hfresh).
      destruct (Dict.mem name pm) eqn:Hpm.
      * split; [|intros [_ E]; discriminate].
        intros [= E]. now apply del_neq in E.
      * split; auto.
Qed.

(** C7 (as the code has it): after a successful [add_port], [remove_port] of
    the same name gives back the three tables exactly when the name was not
    already an input port and had no multiplier entry. *)
Theorem add_then_remove_port
    (c c' : AxCircuit) (name : string) (width : Z)
    (direction : PortDirection) (multiplier : Z) :
  Circuit.add_port c name width direction multiplier = inr c' ->
  (Circuit.remove_port c' name = inr c <->
   Dict.mem name (input_ports c) = false /\
   Dict.mem name (port_multipliers c) = false).
Proof.
  intros Hadd. split.
  - intros Hrm. now apply (remove_after_add _ _ _ _ _ _ Hadd).
  - intros Hfresh. now apply (remove_after_add _ _ _ _ _ _ Hadd).
Qed.

Lemma add_then_remove_port_witness :
  Circuit.remove_port (mkAxCircuit [("a", 8); ("b", 4)] [("y", 8)] [("a", 2)]) "b"
  = inr (mkAxCircuit [("a", 8)] [("y", 8)] [("a", 2)]) <->
  Dict.mem "b" [("a", 8)] = false /\ Dict.mem "b" [("a", 2)] = false.
Proof.
  apply (add_then_remove_port
           (mkAxCircuit [("a", 8)] [("y", 8)] [("a", 2)]) _ "b" 4 INPUT 3).
  reflexivity.
Defined.

(** The round trip of C7 for a name that is new to the circuit. *)
Lemma add_then_remove_fresh_port
    (c : AxCircuit) (name : string) (width : Z)
    (direction : PortDirection) (multiplier : Z) :
  multipliers_known c = true ->
  Dict.mem name (input_ports c) = false ->
  Dict.mem name (output_ports c) = false ->
  exists c', Circuit.add_port c name width direction multiplier = inr c' /\
             Circuit.remove_port c' name = inr c.
Proof.
  intros Hk Hi Ho.
  assert (Hpm : Dict.mem name (port_multipliers c) = false).
  { destruct (Dict.mem name (port_multipliers c)) eqn:E; [|reflexivity].
    apply (proj1 (multipliers_known_spec c) Hk) in E.
    rewrite Hi, Ho in E. discriminate. }
  assert (Hadd : exists c',
             Circuit.add_port c name width direction multiplier = inr c').
  { unfold Circuit.add_port. destruct direction; rewrite ?Hi, ?Ho; eauto. }
  destruct Hadd as [c' Hadd]. exists c'. split; [assumption|].
  apply (remove_after_add _ _ _ _ _ _ Hadd). auto.
Qed.

(** C7 as stated fails: on a circuit that satisfies the invariant, adding an
    input port whose name is an output port with a multiplier and removing it
    again loses the multiplier. *)
Lemma add_then_remove_port_counterexample :
  ~ (forall c c' name width direction multiplier,
        circuit_wf c = true ->
        multipliers_known c = true ->
        directions_disjoint c = true ->
        Circuit.add_port c name width direction multiplier = inr c' ->
        Circuit.remove_port c' name = inr c).
Proof.
  intros Hall.
  specialize (Hall (mkAxCircuit [] [("a", 1)] [("a", 2)])
                   (mkAxCircuit [("a", 1)] [("a", 1)] [("a", 2)])
                   "a" 1 INPUT 1
                   eq_refl eq_refl eq_refl eq_refl).
  discriminate Hall.
Qed.

Lemma circuit_wf_spec (c : AxCircuit) :
  circuit_wf c = true <->
  dict_wf (input_ports c) = true /\ dict_wf (output_ports c) = true /\
  dict_wf (port_multipliers c) = true.
Proof.
  unfold circuit_wf. rewrite !andb_true_iff. tauto.
Qed.

Lemma add_port_preserves (c c' : AxCircuit) name width direction multiplier :
  circuit_wf c = true -> multipliers_known c = true ->
  Circuit.add_port c name width direction multiplier = inr c' ->
  circuit_wf c' = true /\ multipliers_known c' = true.
Proof.
  intros Hwf Hk Hadd. apply add_port_inv in Hadd.
  apply circuit_wf_spec in Hwf. destruct Hwf as (Hi & Ho & Hm).
  rewrite multipliers_known_spec in Hk.
  destruct direction; destruct Hadd as [_ ->];
    rewrite circuit_wf_spec, multipliers_known_spec; simpl;
    (split; [auto using dict_wf_set|]);
    intros n Hn; specialize (Hk n Hn); rewrite mem_set;
    destruct (Dict.mem n (input_ports c)), (Dict.mem n (output_ports c)),
             (keqb n name); auto.
Qed.

Lemma add_port_disjoint (c c' : AxCircuit) name width direction multiplier :
  Circuit.add_port c name width direction multiplier = inr c' ->
  (directions_disjoint c' = true <->
   directions_disjoint c = true /\
   Dict.mem name (match direction with
                  | INPUT => output_ports c
                  | OUTPUT => input_ports c
                  end) = false).
Proof.
  intros Hadd. apply add_port_inv in Hadd.
  rewrite !directions_disjoint_spec.
  destruct direction; destruct Hadd as [Hfresh ->]; simpl.
  - split.
    + intros Hd. split.
      * intros n Hn. apply Hd. rewrite mem_set, Hn. apply orb_true_r.
      * apply Hd. now rewrite mem_set, keqb_refl.
    + intros [Hd Ho] n. rewrite mem_set.
      destruct (keqb_spec n name) as [->|Hne]; simpl; auto.
  - split.
    + intros Hd. split.
      * intros n Hn. specialize (Hd n Hn). rewrite mem_set in Hd.
        now apply orb_false_iff in Hd.
      * destruct (Dict.mem name (input_ports c)) eqn:E; [|reflexivity].
        specialize (Hd name E). now rewrite mem_set, keqb_refl in Hd.
    + intros [Hd Hi] n Hn. rewrite mem_set, (Hd n Hn), orb_false_r.
      apply keqb_neq. intros ->. congruence.
Qed.

Lemma add_port_duplicate (c : AxCircuit) name width direction multiplier :
  (exists msg, Circuit.add_port c name width direction multiplier
               = inl (DuplicatePortException msg)) <->
  Dict.mem name (match direction with
                 | INPUT => input_ports c
                 | OUTPUT => output_ports c
                 end) = true.
Proof.
  unfold Circuit.add_port, ret, raise.
  destruct direction;
    match goal with
    | |- context [if ?b then _ else _] => destruct b
    end; split; eauto; try discriminate; intros [msg E]; discriminate.
Qed.

Lemma change_port_width_preserves (c c' : AxCircuit) name width :
  circuit_wf c = true -> multipliers_known c = true ->
  Circuit.change_port_width c name width = inr c' ->
  circuit_wf c' = true /\ multipliers_known c' = true /\
  (directions_disjoint c = true -> directions_disjoint c' = true).
Proof.
  intros Hwf Hk. apply circuit_wf_spec in Hwf. destruct Hwf as (Hi & Ho & Hm).
  rewrite multipliers_known_spec in Hk.
  unfold Circuit.change_port_width, ret, raise.
  destruct (Dict.mem name (input_ports c)) eqn:Ei;
    destruct (Dict.mem name (output_ports c)) eqn:Eo; simpl;
    try discriminate; intros [= <-];
    rewrite circuit_wf_spec, multipliers_known_spec,
            !directions_disjoint_spec; simpl;
    (split; [auto using dict_wf_set|]); split.
  all: try (intros n Hn; specialize (Hk n Hn); rewrite mem_set;
            destruct (Dict.mem n (input_ports c)),
                     (Dict.mem n (output_ports c)), (keqb n name); auto).
  - intros Hd n. rewrite mem_set.
    destruct (keqb_spec n name) as [->|Hne]; simpl; auto.
  - intros Hd n. rewrite mem_set.
    destruct (keqb_spec n name) as [->|Hne]; simpl; auto.
  - intros Hd n Hn. rewrite mem_set, (Hd n Hn), orb_false_r.
    apply keqb_neq. intros ->. congruence.
Qed.

Lemma change_port_multiplier_preserves (c c' : AxCircuit) name multiplier :
  circuit_wf c = true -> multipliers_known c = true ->
  Circuit.change_port_multiplier c name multiplier = inr c' ->
  circuit_wf c' = true /\ multipliers_known c' = true /\
  (directions_disjoint c = true -> directions_disjoint c' = true).
Proof.
  intros Hwf Hk. apply circuit_wf_spec in Hwf. destruct Hwf as (Hi & Ho & Hm).
  rewrite multipliers_known_spec in Hk.
  unfold Circuit.change_port_multiplier, ret, raise.
  destruct (negb (Dict.mem name (input_ports c))
            && negb (Dict.mem name (output_ports c))) eqn:E;
    [discriminate|].
  intros [= <-].
  rewrite circuit_wf_spec, multipliers_known_spec; simpl.
  split; [auto using dict_wf_set|]. split; [|auto].
  intros n. rewrite mem_set.
  destruct (keqb_spec n name) as [->|Hne]; simpl; [|apply Hk].
  intros _.
  destruct (Dict.mem name (input_ports c)), (Dict.mem name (output_ports c));
    auto; discriminate.
Qed.

Lemma remove_port_preserves (c c' : AxCircuit) name :
  circuit_wf c = true -> multipliers_known c = true ->
  Circuit.remove_port c name = inr c' ->
  circuit_wf c' = true /\ multipliers_known c' = true /\
  (directions_disjoint c = true -> directions_disjoint c' = true).
Proof.
  intros Hwf Hk. apply circuit_wf_spec in Hwf. destruct Hwf as (Hi & Ho & Hm).
  rewrite multipliers_known_spec in Hk.
  unfold Circuit.remove_port, ret, raise.
  destruct (negb (Dict.mem name (input_ports c))
            && negb (Dict.mem name (output_ports c))) eqn:E;
    [discriminate|].
  set (pm' := if Dict.mem name (port_multipliers c)
              then Dict.del name (port_multipliers c)
              else port_multipliers c).
  assert (Hpm_wf : dict_wf pm' = true).
  { subst pm'. destruct (Dict.mem name (port_multipliers c));
      auto using dict_wf_del. }
  assert (Hpm : forall n, Dict.mem n pm' = true ->
                          n <> name /\ Dict.mem n (port_multipliers c) = true).
  { subst pm'. intros n.
    destruct (Dict.mem name (port_multipliers c)) eqn:Em; intros Hn.
    - split; [|now apply mem_del_le in Hn].
      intros ->. now rewrite mem_del_same in Hn.
    - split; [intros ->; congruence | assumption]. }
  destruct (Dict.mem name (input_ports c)) eqn:Ei.
  - intros [= <-].
    rewrite circuit_wf_spec, multipliers_known_spec,
            !directions_disjoint_spec; simpl.
    split; [auto using dict_wf_del|]. split.
    + intros n Hn. apply Hpm in Hn. destruct Hn as [Hne Hn].
      rewrite mem_del_other by assumption. auto.
    + intros Hd n Hn. apply Hd. now apply mem_del_le in Hn.
  - destruct (Dict.mem name (output_ports c)) eqn:Eo; [|discriminate].
    intros [= <-].
    rewrite circuit_wf_spec, multipliers_known_spec,
            !directions_disjoint_spec; simpl.
    split; [auto using dict_wf_del|]. split.
    + intros n Hn. apply Hpm in Hn. destruct Hn as [Hne Hn].
      rewrite mem_del_other by assumption. auto.
    + intros Hd n Hn. specialize (Hd n Hn).
      destruct (Dict.mem n (Dict.del name (output_ports c))) eqn:E';
        [|reflexivity].
      apply mem_del_le in E'. congruence.
Qed.

(** C8 (as the code has it): on a circuit whose dictionaries are well formed
    and whose multiplier keys all name a port, every operation keeps both
    properties; [change_port_width], [change_port_multiplier], [remove_port]
    and [duplicate] also keep the two directions disjoint.  [add_port] raises
    [DuplicatePortException] exactly when the name exists in the requested
    direction, and keeps the directions disjoint exactly when the name is
    absent from the other one. *)
Theorem operations_preserve_invariant (c : AxCircuit) :
  circuit_wf c = true ->
  multipliers_known c = true ->
  (forall name width direction multiplier c',
      Circuit.add_port c name width direction multiplier = inr c' ->
      circuit_wf c' = true /\ multipliers_known c' = true /\
      (directions_disjoint c' = true <->
       directions_disjoint c = true /\
       Dict.mem name (match direction with
                      | INPUT => output_ports c
                      | OUTPUT => input_ports c
                      end) = false)) /\
  (forall name width direction multiplier,
      (exists msg, Circuit.add_port c name width direction multiplier
                   = inl (DuplicatePortException msg)) <->
      Dict.mem name (match direction with
                     | INPUT => input_ports c
                     | OUTPUT => output_ports c
                     end) = true) /\
  (forall name width c',
      Circuit.change_port_width c name width = inr c' ->
      circuit_wf c' = true /\ multipliers_known c' = true /\
      (directions_disjoint c = true -> directions_disjoint c' = true)) /\
  (forall name multiplier c',
      Circuit.change_port_multiplier c name multiplier = inr c' ->
      circuit_wf c' = true /\ multipliers_known c' = true /\
      (directions_disjoint c = true -> directions_disjoint c' = true)) /\
  (forall name c',
      Circuit.remove_port c name = inr c' ->
      circuit_wf c' = true /\ multipliers_known c' = true /\
      (directions_disjoint c = true -> directions_disjoint c' = true)) /\
  Circuit.duplicate c = inr c.
Proof.
  intros Hwf Hk.
  split; [|split; [|split; [|split; [|split]]]].
  - intros name width direction multiplier c' Hadd.
    destruct (add_port_preserves _ _ _ _ _ _ Hwf Hk Hadd) as [Hwf' Hk'].
    split; [assumption|]. split; [assumption|].
    exact (add_port_disjoint _ _ _ _ _ _ Hadd).
  - intros name width direction multiplier. apply add_port_duplicate.
  - intros name width c'. now apply change_port_width_preserves.
  - intros name multiplier c'. now apply change_port_multiplier_preserves.
  - intros name c'. now apply remove_port_preserves.
  - now apply duplicate_known.
Qed.

Lemma operations_preserve_invariant_witness :
  Circuit.duplicate (mkAxCircuit [("a", 8)] [("y", 8)] [("a", 2)])
  = inr (mkAxCircuit [("a", 8)] [("y", 8)] [("a", 2)]).
Proof.
  apply (operations_preserve_invariant
           (mkAxCircuit [("a", 8)] [("y", 8)] [("a", 2)]));
    reflexivity.
Defined.

(** C8 as stated fails: [add_port] accepts a name that is already a port of
    the other direction, and the resulting circuit has that name in both. *)
Lemma operations_preserve_invariant_counterexample :
  ~ (forall c c' name width direction multiplier,
        circuit_wf c = true ->
        multipliers_known c = true ->
        directions_disjoint c = true ->
        Circuit.add_port c name width direction multiplier = inr c' ->
        directions_disjoint c' = true).
Proof.
  intros Hall.
  specialize (Hall (mkAxCircuit [("a", 1)] [] [])
                   (mkAxCircuit [("a", 1)] [("a", 1)] [])
                   "a" 1 OUTPUT 1
                   eq_refl eq_refl eq_refl eq_refl).
  discriminate Hall.
Qed.

Lemma fold_port_items (c : AxCircuit) (ports : Dict.t string Z) (acc : string) :
  fold_left (fun cmd '(n, w) => cmd ++ Circuit.port_item c n w) ports acc
  = acc ++ port_items c ports.
Proof.
  unfold port_items. revert acc.
  induction ports as [|[n w] ports IH]; intros acc.
  - simpl. now rewrite append_nil_r.
  - cbn [fold_left map]. rewrite IH, concat_empty_cons.
    now rewrite append_assoc.
Qed.

Lemma tcl_description_items (c : AxCircuit) :
  Circuit.tcl_description c
  = "set IN_PORTS { " ++ port_items c (input_ports c) ++ "};"
      ++ "set OUT_PORTS { " ++ port_items c (output_ports c) ++ "};".
Proof.
  unfold Circuit.tcl_description.
  rewrite !fold_port_items. now rewrite !append_assoc.
Qed.

Lemma port_items_same_multipliers (c c' : AxCircuit) (ports : Dict.t string Z) :
  port_multipliers c' = port_multipliers c ->
  port_items c' ports = port_items c ports.
Proof.
  intros E. unfold port_items, Circuit.port_item. now rewrite E.
Qed.

Lemma port_items_snoc (c : AxCircuit) (ports : Dict.t string Z) n w :
  port_items c (ports ++ [(n, w)])%list
  = port_items c ports ++ Circuit.port_item c n w.
Proof.
  unfold port_items. rewrite map_app, concat_empty_app. simpl.
  reflexivity.
Qed.

(** C10 (as the code has it): a successful [add_port] leaves the multiplier
    table as it was, whatever multiplier is passed; when the name had no
    multiplier entry, the new port is the last item of its port list in the
    Tcl description and carries the default multiplier 1. *)
Theorem add_port_ignores_multiplier
    (c c' : AxCircuit) (name : string) (width : Z)
    (direction : PortDirection) (multiplier : Z) :
  Circuit.add_port c name width direction multiplier = inr c' ->
  port_multipliers c' = port_multipliers c /\
  (forall m, Circuit.add_port c name width direction m = inr c') /\
  (Dict.mem name (port_multipliers c) = false ->
   let item := "{" ++ dquote ++ name ++ dquote ++ " " ++ str_int width
                 ++ " 1} " in
   Circuit.port_item c' name width = item /\
   Circuit.tcl_description c'
   = "set IN_PORTS { " ++ port_items c (input_ports c)
       ++ match direction with INPUT => item | OUTPUT => "" end ++ "};"
       ++ "set OUT_PORTS { " ++ port_items c (output_ports c)
       ++ match direction with INPUT => "" | OUTPUT => item end ++ "};").
Proof.
  intros Hadd. pose proof (add_port_inv _ _ _ _ _ _ Hadd) as Hinv.
  assert (Hpm : port_multipliers c' = port_multipliers c).
  { destruct direction; destruct Hinv as [_ ->]; reflexivity. }
  split; [assumption|]. split.
  { intros m. rewrite <- Hadd. reflexivity. }
  intros Hm item.
  assert (Hitem : forall c0, port_multipliers c0 = port_multipliers c ->
                             Circuit.port_item c0 name width = item).
  { intros c0 E. unfold Circuit.port_item. rewrite E, Hm. reflexivity. }
  split; [now apply Hitem|].
  rewrite tcl_description_items.
  rewrite !(port_items_same_multipliers c c') by assumption.
  destruct direction; destruct Hinv as [Hfresh Hc'];
    rewrite Hc'; cbn [input_ports output_ports];
    rewrite (set_fresh _ _ _ Hfresh), port_items_snoc,
            (Hitem c eq_refl), !append_assoc;
    reflexivity.
Qed.

Lemma add_port_ignores_multiplier_witness :
  port_multipliers (mkAxCircuit [("a", 8); ("b", 4)] [("y", 8)] [("a", 2)])
  = port_multipliers (mkAxCircuit [("a", 8)] [("y", 8)] [("a", 2)]) /\
  Circuit.port_item (mkAxCircuit [("a", 8); ("b", 4)] [("y", 8)] [("a", 2)])
                    "b" 4
  = "{" ++ dquote ++ "b" ++ dquote ++ " 4 1} ".
Proof.
  destruct (add_port_ignores_multiplier
              (mkAxCircuit [("a", 8)] [("y", 8)] [("a", 2)])
              (mkAxCircuit [("a", 8); ("b", 4)] [("y", 8)] [("a", 2)])
              "b" 4 INPUT 3 eq_refl) as (H1 & _ & H3).
  split; [exact H1 | exact (proj1 (H3 eq_refl))].
Defined.

(** C10 as stated fails: when the name already carries a multiplier entry
    (it is a port of the other direction), the added port is written with
    that multiplier, not with 1. *)
Lemma add_port_ignores_multiplier_counterexample :
  ~ (forall c c' name width direction multiplier,
        circuit_wf c = true ->
        multipliers_known c = true ->
        directions_disjoint c = true ->
        multiplier <> 1 ->
        Circuit.add_port c name width direction multiplier = inr c' ->
        Circuit.port_item c' name width
        = "{" ++ dquote ++ name ++ dquote ++ " " ++ str_int width ++ " 1} ").
Proof.
  intros Hall.
  assert (Hne : 5 <> 1) by discriminate.
  specialize (Hall (mkAxCircuit [] [("a", 1)] [("a", 3)])
                   (mkAxCircuit [("a", 4)] [("a", 1)] [("a", 3)])
                   "a" 4 INPUT 5
                   eq_refl eq_refl eq_refl Hne eq_refl).
  vm_compute in Hall. discriminate Hall.
Qed.

(** ** Voltage strings and scenario names *)

Section VoltageFacts.
Local Open Scope Q_scope.

Lemma round_half_even_comp (q q' : Q) :
q == q' -> round_half_even q = round_half_even q'.
Proof.
intros E. unfold round_half_even.
rewrite (Qfloor_comp _ _ E).
assert (E' : q - inject_Z (Qfloor q') == q' - inject_Z (Qfloor q'))
  by now rewrite E.
now rewrite (Qcompare_comp _ _ E' (1 # 2) (1 # 2) (Qeq_refl _)).
Qed.

Lemma format_2f_comp (q q' : Q) : q == q' -> format_2f q = format_2f q'.
Proof.
intros E. unfold format_2f.
assert (E' : q * inject_Z 100 == q' * inject_Z 100) by now rewrite E.
now rewrite (round_half_even_comp _ _ E').
Qed.

Lemma voltage_to_string_comp (v v' : Q) :
v == v' -> voltage_to_string v = voltage_to_string v'.
Proof.
intros E. unfold voltage_to_string, Qltb.
rewrite (Qleb_comp 0 0 (Qeq_refl _) _ _ E).
destruct (Qle_bool 0 v'); simpl.
- now apply format_2f_comp.
- f_equal. apply format_2f_comp. now rewrite E.
Qed.

Lemma Qltb_true (a b : Q) : Qltb a b = true <-> a < b.
Proof.
unfold Qltb. rewrite negb_true_iff.
destruct (Qle_bool b a) eqn:E.
- apply Qle_bool_iff in E. split; [discriminate | lra].
- split; [|reflexivity]. intros _.
  destruct (Qlt_le_dec a b) as [Hlt|Hle]; [assumption|].
  apply Qle_bool_iff in Hle. congruence.
Qed.

Lemma Qltb_false (a b : Q) : Qltb a b = false <-> b <= a.
Proof.
unfold Qltb. rewrite negb_false_iff. apply Qle_bool_iff.
Qed.

Lemma round_half_even_close (q : Q) :
- (1 # 2) <= q - inject_Z (round_half_even q) <= 1 # 2.
Proof.
unfold round_half_even.
pose proof (Qfloor_le q) as Hlo.
pose proof (Qlt_floor q) as Hhi.
rewrite inject_Z_plus in Hhi. change (inject_Z 1) with 1 in Hhi.
destruct (Qcompare_spec (q - inject_Z (Qfloor q)) (1 # 2)) as [E|E|E].
- destruct (Z.even (Qfloor q));
    [|rewrite inject_Z_plus; change (inject_Z 1) with 1]; lra.
- lra.
- rewrite inject_Z_plus. change (inject_Z 1) with 1. lra.
Qed.

Lemma round_half_even_nonneg (q : Q) : 0 <= q -> (0 <= round_half_even q)%Z.
Proof.
intros Hq. unfold round_half_even.
assert (Hf : (0 <= Qfloor q)%Z).
{ change 0%Z with (Qfloor 0). now apply Qfloor_resp_le. }
destruct (Qcompare _ _); [destruct (Z.even _)| |]; lia.
Qed.

Lemma is_digit_digit_char (k : Z) :
(0 <= k <= 9)%Z -> is_digit (digit_char k) = true.
Proof.
intros Hk.
assert (Hcases : (k = 0 \/ k = 1 \/ k = 2 \/ k = 3 \/ k = 4 \/ k = 5
                  \/ k = 6 \/ k = 7 \/ k = 8 \/ k = 9)%Z) by lia.
repeat (destruct Hcases as [->|Hcases]; [reflexivity|]).
now subst k.
Qed.

(** The text of ["{:.2f}"]: an integer part, a point and two digits whose
  value is within half a hundredth of the number. *)
Lemma format_2f_digits (q : Q) :
0 <= q ->
exists n k1 k2 : Z,
  (0 <= n)%Z /\ (0 <= k1 <= 9)%Z /\ (0 <= k2 <= 9)%Z /\
  format_2f q = str_int n ++ "."
                  ++ String (digit_char k1)
                       (String (digit_char k2) EmptyString) /\
  Qabs (q - (inject_Z n + inject_Z k1 * (1 # 10) + inject_Z k2 * (1 # 100)))
  <= 1 # 200.
Proof.
intros Hq. unfold format_2f.
set (N := round_half_even (q * inject_Z 100)).
assert (HN : (0 <= N)%Z).
{ apply round_half_even_nonneg.
  change (inject_Z 100) with 100%Q. lra. }
pose proof (round_half_even_close (q * inject_Z 100)) as Hc. fold N in Hc.
exists (N / 100)%Z, ((N / 10) mod 10)%Z, (N mod 10)%Z.
assert (Hdec : (N = 100 * (N / 100) + 10 * ((N / 10) mod 10) + N mod 10)%Z).
{ Z.to_euclidean_division_equations. lia. }
split; [Z.to_euclidean_division_equations; lia|].
split; [Z.to_euclidean_division_equations; lia|].
split; [Z.to_euclidean_division_equations; lia|].
split; [reflexivity|].
apply Qabs_Qle_condition.
assert (HNq : inject_Z N == 100 * inject_Z (N / 100)%Z
                          + 10 * inject_Z ((N / 10) mod 10)%Z
                          + inject_Z (N mod 10)%Z).
{ rewrite Hdec at 1.
  rewrite !inject_Z_plus, !inject_Z_mult. reflexivity. }
change (inject_Z 100) with 100%Q in Hc.
rewrite HNq in Hc. lra.
Qed.

Lemma voltage_to_string_digits (v : Q) :
exists n k1 k2 : Z,
  (0 <= n)%Z /\ (0 <= k1 <= 9)%Z /\ (0 <= k2 <= 9)%Z /\
  voltage_to_string v
  = (if Qltb v 0 then "m" else "") ++ str_int n ++ "."
      ++ String (digit_char k1) (String (digit_char k2) EmptyString) /\
  Qabs (Qabs v - (inject_Z n + inject_Z k1 * (1 # 10)
                  + inject_Z k2 * (1 # 100))) <= 1 # 200.
Proof.
unfold voltage_to_string.
destruct (Qltb v 0) eqn:E.
- destruct (format_2f_digits (Qabs v) (Qabs_nonneg v))
    as (n & k1 & k2 & Hn & Hk1 & Hk2 & Hs & Hb).
  exists n, k1, k2. rewrite Hs. repeat (split; [assumption|]).
  split; [reflexivity | assumption].
- apply Qltb_false in E.
  destruct (format_2f_digits v E) as (n & k1 & k2 & Hn & Hk1 & Hk2 & Hs & Hb).
  exists n, k1, k2. rewrite Hs. repeat (split; [assumption|]).
  split; [reflexivity|]. now rewrite (Qabs_pos v E).
Qed.

Lemma name_of_negative_voltage (a : Z) (v : Q) cm ms :
0 < v ->
Scenario.name (mkAxScenario a (- v) cm ms)
= "acc_" ++ str_int a ++ "bit_vdd_" ++ "m" ++ format_2f v ++ "V".
Proof.
intros Hv. unfold Scenario.name, voltage_to_string. cbn [accuracy vdd].
assert (E : Qltb (- v) 0 = true) by (apply Qltb_true; lra).
rewrite E.
assert (Ea : Qabs (- v) == v) by (rewrite Qabs_opp; apply Qabs_pos; lra).
rewrite (format_2f_comp _ _ Ea). reflexivity.
Qed.

Lemma name_of_positive_voltage (a : Z) (v : Q) cm ms :
0 < v ->
Scenario.name (mkAxScenario a v cm ms)
= "acc_" ++ str_int a ++ "bit_vdd_" ++ format_2f v ++ "V".
Proof.
intros Hv. unfold Scenario.name, voltage_to_string. cbn [accuracy vdd].
assert (E : Qltb v 0 = false) by (apply Qltb_false; lra).
rewrite E. reflexivity.
Qed.

(** *** Over floats, with their special values *)

Lemma float_value_positive (m : positive) (e : Z) :
0 < Float.value (S754_finite false m e).
Proof.
cbn [Float.value].
apply Qmult_lt_0_compat; [reflexivity|].
now apply Qpower_0_lt.
Qed.

Lemma float_value_negative (m : positive) (e : Z) :
Float.value (S754_finite true m e) == - Float.value (S754_finite false m e).
Proof.
cbn [Float.value]. ring.
Qed.

(** On the floats the rationals stand for, the two embeddings of
  [voltage_to_string] agree. *)
Lemma float_voltage_to_string_ordinary (v : spec_float) :
Float.ordinary v = true ->
Float.voltage_to_string v = voltage_to_string (Float.value v).
Proof.
destruct v as [[|]|s| |[|] m e]; try discriminate; intros _.
- reflexivity.
- pose proof (float_value_positive m e) as Hpos.
  pose proof (float_value_negative m e) as Hneg.
  unfold Float.voltage_to_string, voltage_to_string.
  assert (E : Qltb (Float.value (S754_finite true m e)) 0 = true)
    by (apply Qltb_true; lra).
  rewrite E. cbn [SFltb SFcompare SFabs Float.format_2f].
  cbn [append]. f_equal. apply format_2f_comp.
  rewrite Hneg, Qabs_opp. reflexivity.
- pose proof (float_value_positive m e) as Hpos.
  unfold Float.voltage_to_string, voltage_to_string.
  assert (E : Qltb (Float.value (S754_finite false m e)) 0 = false)
    by (apply Qltb_false; lra).
  rewrite E. cbn [SFltb SFcompare Float.format_2f].
  cbn [append]. apply format_2f_comp. apply Qabs_pos. lra.
Qed.

Lemma float_name_ordinary (s : Float.AxScenario) :
Float.ordinary (Float.vdd s) = true ->
Float.name s = Scenario.name (idealised s).
Proof.
intros Ho. unfold Float.name, Scenario.name, idealised. cbn [accuracy vdd].
now rewrite (float_voltage_to_string_ordinary _ Ho).
Qed.

Lemma float_ordinary_negative (v : spec_float) :
Float.ordinary v = true ->
SFltb v (S754_zero false) = Qltb (Float.value v) 0.
Proof.
destruct v as [[|]|s| |[|] m e]; try discriminate; intros _.
- reflexivity.
- symmetry. apply Qltb_true.
  pose proof (float_value_positive m e).
  pose proof (float_value_negative m e). lra.
- symmetry. apply Qltb_false.
  pose proof (float_value_positive m e). lra.
Qed.

(** Floats that compare equal and have the same sign are the same. *)
Lemma float_eqb_same_sign (v1 v2 : spec_float) :
SFeqb v1 v2 = true -> Float.sign v1 = Float.sign v2 -> v1 = v2.
Proof.
unfold SFeqb. intros Hc Hs.
destruct v1 as [s1|s1| |s1 m1 e1], v2 as [s2|s2| |s2 m2 e2];
  cbn [SFcompare Float.sign] in *; subst;
  try reflexivity; try discriminate;
  try (destruct s2; discriminate); try (destruct s1; discriminate).
assert (He : (e1 ?= e2)%Z = Eq /\ Pos.compare_cont Eq m1 m2 = Eq).
{ destruct s2, (e1 ?= e2)%Z, (Pos.compare_cont Eq m1 m2);
    try discriminate; now split. }
destruct He as [He Hm].
apply Z.compare_eq in He. apply Pos.compare_eq in Hm. now subst.
Qed.

(** Floats that compare equal and differ in sign are the two zeros. *)
Lemma float_eqb_other_sign (v1 v2 : spec_float) :
SFeqb v1 v2 = true -> Float.sign v1 <> Float.sign v2 ->
exists s, v1 = S754_zero s /\ v2 = S754_zero (negb s).
Proof.
unfold SFeqb. intros Hc Hs.
destruct v1 as [s1|s1| |s1 m1 e1], v2 as [s2|s2| |s2 m2 e2];
  cbn [SFcompare Float.sign] in *; try discriminate;
  try (destruct s1, s2; (discriminate || now elim Hs)).
exists s1. split; [reflexivity|].
destruct s1, s2; (reflexivity || now elim Hs).
Qed.

Lemma append_cancel_head (a b c : string) : a ++ b = a ++ c -> b = c.
Proof.
induction a as [|x a IH]; cbn [append]; [trivial|].
intros [= E]. now apply IH.
Qed.




(** [Float.minus_0_9] is a binary64 number, within half a unit in the
  last place of -9/10. *)
Example minus_0_9_nearest :
valid_binary 53 1024 Float.minus_0_9 = true /\
Qabs (Float.value Float.minus_0_9 - - (9 # 10)) <= 1 # (2 ^ 54).
Proof.
split; [reflexivity|].
apply Qle_bool_iff. vm_compute. reflexivity.
Qed.

End VoltageFacts.

(** ** The weighted total power *)

Section WeightFacts.
Local Open Scope Q_scope.

Lemma firstn_combine_weights (power weights : list Q) :
combine power (firstn (length power) weights) = combine power weights.
Proof.
revert weights. induction power as [|p power IH]; intros [|w weights];
  simpl; try reflexivity.
now rewrite IH.
Qed.

Lemma fold_products_positional (power weights : list Q) (acc : Q) (k : nat) :
(length power <= length weights)%nat ->
fold_left Qplus (map (fun '(i, j) => i * j) (combine power weights)) acc
= fold_left Qplus
    (map (fun i => nth i (repeat 0 k ++ power) 0
                   * nth i (repeat 0 k ++ weights) 0)
         (seq k (length power))) acc.
Proof.
revert weights acc k.
induction power as [|p power IH]; intros weights acc k Hlen.
- reflexivity.
- destruct weights as [|w weights]; [simpl in Hlen; lia|].
  simpl in Hlen. cbn [combine map fold_left length seq].
  rewrite !app_nth2 by (rewrite repeat_length; lia).
  rewrite repeat_length, Nat.sub_diag. cbn [nth].
  rewrite (IH weights _ (S k)) by lia.
  f_equal. apply map_ext_in. intros i Hi. apply in_seq in Hi.
  rewrite !app_nth2 by (rewrite repeat_length; lia).
  rewrite !repeat_length.
  replace (i - k)%nat with (S (i - S k)) by lia. reflexivity.
Qed.

(** The part of C4 that holds: the total is the sum, position by position,
  of the first [N] powers times the first [N] weights. *)
Lemma weighted_total_power_positional (self : ReconfSynthesis) (power : list Q) :
(length power <= length (_weights self))%nat ->
Reconf._weighted_total_power self power
= fold_left Qplus
    (map (fun i => nth i power 0 * nth i (_weights self) 0)
         (seq 0 (length power))) 0.
Proof.
intros Hlen. unfold Reconf._weighted_total_power.
rewrite firstn_combine_weights.
now rewrite (fold_products_positional power (_weights self) 0 0 Hlen).
Qed.

(** Without [weights] in the file every precision weighs 1. *)
Lemma read_config_default_weights (self self' : ReconfSynthesis)
  (config : ConfigFile) :
cf_weights config = None ->
Reconf.read_config self config = inr self' ->
_weights self' = repeat 1 (length (cf_precision config)).
Proof.
intros Hw. unfold Reconf.read_config, rbind, ret, raise. rewrite Hw.
destruct (Circuit.init _ _ _); [discriminate|].
destruct (cf_mode_inputs config).
- destruct (cf_mode_values config); [|discriminate].
  destruct (Reconf._check_mode_inputs _); [discriminate|].
  now intros [= <-].
- now intros [= <-].
Qed.

End WeightFacts.

(** C4: the weights stay in the order of the configuration file while the
    precisions are sorted.  For [precision = [2, 8]] and [weights = [10, 1]]
    the power vector [[3, 5]] of the precisions [[8, 2]] is weighed
    [3 * 10 + 5 * 1 = 35], whereas the weights configured for 8 and 2 give
    [3 * 1 + 5 * 10 = 53]. *)
Theorem weights_not_sorted_with_precisions :
  let config := mkConfigFile [("a", 8)] [("y", 8)] [] [1%Q] [2; 8]
                             None None None (Some [10%Q; 1%Q]) in
  exists self self' : ReconfSynthesis,
    Reconf.read_config (Reconf.init "log" "work_reconf") config = inr self /\
    Reconf.sort_inputs (mkState self [] []) = (inr tt, mkState self' [] []) /\
    _acc_list self' = [8; 2] /\
    _weights self' = [10%Q; 1%Q] /\
    Reconf._weighted_total_power self' [3%Q; 5%Q] = 35%Q /\
    total_by_precision config (_acc_list self') [3%Q; 5%Q] = 53%Q.
Proof.
  intros config.
  eexists. eexists.
  split; [vm_compute; reflexivity|].
  split; [vm_compute; reflexivity|].
  repeat split.
Qed.

(** ** The run: what each phase does to the state *)

Section StateFacts.

Lemma dirs_only_refl st : dirs_only st st.
Proof.
  repeat split. exists []. now rewrite app_nil_r.
Qed.

Lemma dirs_only_trans st1 st2 st3 :
  dirs_only st1 st2 -> dirs_only st2 st3 -> dirs_only st1 st3.
Proof.
  intros (Ho1 & Hd1 & evs1 & Hf1 & He1) (Ho2 & Hd2 & evs2 & Hf2 & He2).
  repeat split; try congruence.
  exists (evs1 ++ evs2)%list. split.
  - now rewrite Hf2, Hf1, app_assoc.
  - now rewrite forallb_app, He1, He2.
Qed.

Lemma same_config_refl self : same_config self self.
Proof. now destruct self. Qed.

Lemma same_config_trans s1 s2 s3 :
  same_config s1 s2 -> same_config s2 s3 -> same_config s1 s3.
Proof.
  unfold same_config. intros E1 E2. rewrite E2 at 1. rewrite E1 at 1.
  reflexivity.
Qed.

Lemma calls_only_refl st : calls_only st st.
Proof.
  split; [apply same_config_refl|]. split; [reflexivity|].
  exists []. now rewrite app_nil_r.
Qed.

Lemma calls_only_trans st1 st2 st3 :
  calls_only st1 st2 -> calls_only st2 st3 -> calls_only st1 st3.
Proof.
  intros (Ho1 & Hf1 & cs1 & Hd1) (Ho2 & Hf2 & cs2 & Hd2).
  split; [eapply same_config_trans; eauto|].
  split; [congruence|].
  exists (cs1 ++ cs2)%list. now rewrite Hd2, Hd1, app_assoc.
Qed.

Lemma preserves_bind {A B} (R : State -> State -> Prop)
    (c : M A) (k : A -> M B) :
  (forall s1 s2 s3, R s1 s2 -> R s2 s3 -> R s1 s3) ->
  preserves R c -> (forall a, preserves R (k a)) ->
  preserves R (mbind c k).
Proof.
  intros Htrans Hc Hk st. unfold mbind.
  specialize (Hc st). destruct (c st) as [[e|a] st1]; simpl in *.
  - assumption.
  - eapply Htrans; [exact Hc | apply Hk].
Qed.

Lemma preserves_lift {A} (R : State -> State -> Prop) (r : result A) :
  (forall s, R s s) -> preserves R (lift r).
Proof. intros Hrefl st. apply Hrefl. Qed.

Lemma preserves_mret {A} (R : State -> State -> Prop) (a : A) :
  (forall s, R s s) -> preserves R (mret a).
Proof. intros Hrefl st. apply Hrefl. Qed.

Lemma preserves_mraise {A} (R : State -> State -> Prop) (e : exn) :
  (forall s, R s s) -> preserves R (@mraise A e).
Proof. intros Hrefl st. apply Hrefl. Qed.

Lemma preserves_get_self (R : State -> State -> Prop) :
  (forall s, R s s) -> preserves R get_self.
Proof. intros Hrefl st. apply Hrefl. Qed.

Lemma preserves_dir_event (e : FsEvent) :
  is_dir_event e = true -> preserves dirs_only (fs_do e).
Proof.
  intros He st. repeat split. exists [e]. simpl. now rewrite He.
Qed.

End StateFacts.

Section RunFacts.
Variable float_repr : Q -> string.
Variable backend : nat -> DcCall -> list Q * bool.
Variable os_path_dirname : string -> string.
Variable os_access_w : list FsEvent -> string -> bool.
Variable os_path_exists : list FsEvent -> string -> bool.

Local Abbreviation _init_dirs :=
  (Reconf._init_dirs os_path_dirname os_access_w os_path_exists).
Local Abbreviation _call_dc := (Reconf._call_dc float_repr backend).
Local Abbreviation dc_invocation := (Reconf.dc_invocation float_repr).
Local Abbreviation nominal := (Reconf.nominal float_repr backend).
Local Abbreviation probe := (Reconf.probe float_repr backend).
Local Abbreviation descend := (Reconf.descend float_repr backend).
Local Abbreviation run :=
  (Reconf.run float_repr backend os_path_dirname os_access_w os_path_exists).

Ltac preserves_dirs :=
  lazymatch goal with
  | |- preserves _ (mbind _ _) =>
      apply preserves_bind;
      [exact dirs_only_trans | preserves_dirs | intros ?; preserves_dirs]
  | |- preserves _ (lift _) => apply preserves_lift; exact dirs_only_refl
  | |- preserves _ (mret _) => apply preserves_mret; exact dirs_only_refl
  | |- preserves _ (mraise _) => apply preserves_mraise; exact dirs_only_refl
  | |- preserves _ get_self => apply preserves_get_self; exact dirs_only_refl
  | |- preserves _ (fs_do _) => apply preserves_dir_event; reflexivity
  | |- preserves _ (fun st => if _ then _ else _) =>
      let st := fresh "st" in
      intros st;
      match goal with
      | |- context [if ?b then _ else _] => destruct b
      end;
      revert st;
      match goal with
      | |- forall st, dirs_only st (snd (?c st)) =>
          change (preserves dirs_only c); preserves_dirs
      end
  end.

Lemma init_dirs_dirs_only output_dir output_table :
  preserves dirs_only (_init_dirs output_dir output_table).
Proof.
  unfold Reconf._init_dirs. preserves_dirs.
Qed.

(** *** Sorting *)

Lemma insert_desc_Forall {A} (P : A -> Prop) geb x l :
  P x -> Forall P l -> Forall P (insert_desc geb x l).
Proof.
  intros Hx Hl. induction Hl as [|y l Hy Hl IH]; simpl.
  - auto.
  - destruct (geb x y); auto.
Qed.

Lemma sort_desc_Forall {A} (P : A -> Prop) geb l :
  Forall P l -> Forall P (sort_desc geb l).
Proof.
  intros Hl. induction Hl as [|x l Hx Hl IH]; simpl.
  - constructor.
  - now apply insert_desc_Forall.
Qed.

Lemma insert_desc_length {A} geb (x : A) l :
  length (insert_desc geb x l) = S (length l).
Proof.
  induction l as [|y l IH]; simpl; [reflexivity|].
  destruct (geb x y); simpl; [reflexivity | now rewrite IH].
Qed.

Lemma sort_desc_length {A} geb (l : list A) :
  length (sort_desc geb l) = length l.
Proof.
  induction l as [|x l IH]; simpl; [reflexivity|].
  now rewrite insert_desc_length, IH.
Qed.

Lemma index_nth {A} (l : list A) (i : nat) (d : A) :
  (i < length l)%nat -> index l i = inr (nth i l d).
Proof.
  intros Hi. unfold index.
  destruct (nth_error l i) as [a|] eqn:E.
  - now rewrite (nth_error_nth _ _ d E).
  - apply nth_error_None in E. lia.
Qed.

Lemma index_inv {A} (l : list A) (i : nat) (a : A) :
  index l i = inr a -> (i < length l)%nat /\ forall d, nth i l d = a.
Proof.
  unfold index. destruct (nth_error l i) as [a'|] eqn:E; [|discriminate].
  intros [= <-]. split.
  - apply nth_error_Some. congruence.
  - intros d. now apply nth_error_nth.
Qed.

Lemma mapM_index {A} (l : list A) (idxs : list nat) (d : A) :
  Forall (fun i => (i < length l)%nat) idxs ->
  mapM (index l) idxs = inr (map (fun i => nth i l d) idxs).
Proof.
  intros H. induction H as [|i idxs Hi H IH]; simpl; [reflexivity|].
  now rewrite (index_nth _ _ d Hi), IH.
Qed.

Lemma range_lt (a b : nat) :
  Forall (fun i => (i < b)%nat) (range a b).
Proof.
  unfold range. apply Forall_forall. intros i Hi.
  apply in_seq in Hi. lia.
Qed.

Lemma sorted_precisions_length (l : list Z) :
  length (sorted_precisions l) = length l.
Proof.
  unfold sorted_precisions, range.
  now rewrite length_map, sort_desc_length, length_seq, Nat.sub_0_r.
Qed.

(** *** [sort_inputs] *)

Lemma sort_inputs_same_logs : preserves same_logs Reconf.sort_inputs.
Proof.
  intros st. unfold Reconf.sort_inputs, mbind, lift, get_self, put_self.
  simpl.
  destruct (mapM _ _); [split; reflexivity|].
  destruct (_mode_values _).
  - simpl. unfold rbind. destruct (mapM _ _); split; reflexivity.
  - split; reflexivity.
Qed.

Lemma sort_inputs_ok st st' :
  Reconf.sort_inputs st = (inr tt, st') ->
  exists mv,
    st' = mkState
            (mkReconfSynthesis
               (log_dir (obj st)) (work_dir (obj st)) (_weights (obj st))
               (_circuit (obj st)) (sort_desc Qgeb (_vdd_list (obj st)))
               (sorted_precisions (_acc_list (obj st)))
               (_clock_multipliers (obj st)) (_mode_inputs (obj st)) mv
               (empty_table (sorted_precisions (_acc_list (obj st))))
               (empty_table (sorted_precisions (_acc_list (obj st)))))
            (dc_log st) (fs_log st).
Proof.
  unfold Reconf.sort_inputs, mbind, lift, get_self, put_self. simpl.
  rewrite (mapM_index _ _ 0)
    by (apply sort_desc_Forall, range_lt).
  fold (sorted_precisions (_acc_list (obj st))).
  destruct (_mode_values (obj st)) as [mv|]; simpl.
  - unfold rbind. destruct (mapM _ _) as [e|mv']; [discriminate|].
    simpl. intros [= <-]. now exists (Some mv').
  - intros [= <-]. now exists None.
Qed.

(** *** [nominal] *)

Lemma nominal_cases st :
  (exists e, nominal st = (inl e, st)) \/
  (exists nom : AxScenario,
      index (_acc_list (obj st)) 0 = inr (accuracy nom) /\
      index (_vdd_list (obj st)) 0 = inr (vdd nom) /\
      index (_clock_multipliers (obj st)) 0 = inr (clock_multiplier nom) /\
      Reconf._create_mode (obj st) 0 = inr (mode_signals nom) /\
      let c := dc_invocation (obj st) (Some nom) in
      (snd (backend (length (dc_log st)) c) = false /\
       nominal st
       = (inl (TimingException
                 "Cannot close timing on nominal condition synthesis"),
          mkState (obj st) (dc_log st ++ [c]) (fs_log st)))
      \/
      (snd (backend (length (dc_log st)) c) = true /\
       nominal st
       = (inr tt,
          mkState (set_scen_table (obj st)
                     (Dict.set (accuracy nom) (Some nom)
                               (_scen_table (obj st))))
                  (dc_log st ++ [c]) (fs_log st)))).
Proof.
  unfold Reconf.nominal, mbind, lift, get_self. simpl.
  destruct (Reconf._create_mode (obj st) 0) as [e|nom_mode] eqn:Em;
    [left; eauto|].
  destruct (index (_acc_list (obj st)) 0) as [e|a] eqn:Ea; [left; eauto|].
  destruct (index (_vdd_list (obj st)) 0) as [e|v] eqn:Ev; [left; eauto|].
  destruct (index (_clock_multipliers (obj st)) 0) as [e|cm] eqn:Ec;
    [left; eauto|].
  right. exists (mkAxScenario a v cm nom_mode). simpl.
  repeat (split; [reflexivity|]).
  unfold Reconf._call_dc. simpl.
  destruct (snd (backend _ _)) eqn:Eok; simpl.
  - right. split; reflexivity.
  - left. split; reflexivity.
Qed.

Lemma finalize_unbound output_dir output_table st :
  Reconf.finalize output_dir output_table None st
  = (inl (UnboundLocalError "curr_power"), st).
Proof. reflexivity. Qed.

(** C5: when the tool answers "not compliant" to the first invocation of
    the run, [run] ends in an exception, has prepared directories at most
    (no report written, no artifact copied), and, if the tool was invoked
    at all, has invoked it once and raises [TimingException]. *)
Theorem nominal_failure_aborts_run output_dir output_table st :
  (forall c, snd (backend (length (dc_log st)) c) = false) ->
  exists e st' evs,
    run output_dir output_table st = (inl e, st') /\
    fs_log st' = (fs_log st ++ evs)%list /\
    forallb is_dir_event evs = true /\
    (dc_log st' = dc_log st \/
     exists c, dc_log st' = (dc_log st ++ [c])%list /\
               e = TimingException
                     "Cannot close timing on nominal condition synthesis").
Proof.
  intros Hfail. unfold Reconf.run, mbind.
  pose proof (init_dirs_dirs_only output_dir output_table st) as Hinit.
  destruct (_init_dirs output_dir output_table st) as [[e|[]] st1]; simpl in Hinit;
    destruct Hinit as (Ho1 & Hd1 & evs & Hf1 & Hev).
  { exists e, st1, evs. auto. }
  pose proof (sort_inputs_same_logs st1) as Hsort.
  destruct (Reconf.sort_inputs st1) as [[e|[]] st2]; simpl in Hsort;
    destruct Hsort as [Hd2 Hf2].
  { exists e, st2, evs. repeat split; try congruence. left. congruence. }
  destruct (nominal_cases st2) as [[e Hn]|(nom & _ & _ & _ & _ & Hn)].
  { rewrite Hn. exists e, st2, evs.
    repeat split; try congruence. left. congruence. }
  cbv zeta in Hn.
  destruct Hn as [[_ Hn]|[Hok _]].
  - rewrite Hn. eexists _, _, evs. split; [reflexivity|]. simpl.
    repeat split; try congruence.
    right. eexists. split; [|reflexivity]. now rewrite Hd2, Hd1.
  - rewrite Hd2, Hd1, Hfail in Hok. discriminate.
Qed.

(** C6: with a single precision [run] never returns its table.  It ends
    in an exception with no report written and no artifact copied; when
    the one invocation of the tool is answered "compliant", the exception
    is the unbound local [curr_power]. *)
Theorem single_precision_never_returns output_dir output_table st :
  length (_acc_list (obj st)) = 1%nat ->
  exists e st' evs,
    run output_dir output_table st = (inl e, st') /\
    fs_log st' = (fs_log st ++ evs)%list /\
    forallb is_dir_event evs = true /\
    (dc_log st' = dc_log st \/
     exists c, dc_log st' = (dc_log st ++ [c])%list /\
               length (dc_scenarios c) = 1%nat /\
               (snd (backend (length (dc_log st)) c) = true ->
                e = UnboundLocalError "curr_power")).
Proof.
  intros Hlen. unfold Reconf.run, mbind.
  pose proof (init_dirs_dirs_only output_dir output_table st) as Hinit.
  destruct (_init_dirs output_dir output_table st) as [[e|[]] st1]; simpl in Hinit;
    destruct Hinit as (Ho1 & Hd1 & evs & Hf1 & Hev).
  { exists e, st1, evs. auto. }
  pose proof (sort_inputs_same_logs st1) as Hsort.
  destruct (Reconf.sort_inputs st1) as [[e|[]] st2] eqn:Esort; simpl in Hsort;
    destruct Hsort as [Hd2 Hf2].
  { exists e, st2, evs. repeat split; try congruence. left. congruence. }
  apply sort_inputs_ok in Esort. destruct Esort as [mv Est2].
  destruct (nominal_cases st2) as [[e Hn]|(nom & Ha & _ & _ & _ & Hn)].
  { rewrite Hn. exists e, st2, evs.
    repeat split; try congruence. left. congruence. }
  cbv zeta in Hn.
  assert (Hacc : exists a, _acc_list (obj st2) = [a]).
  { rewrite Est2. simpl.
    pose proof (sorted_precisions_length (_acc_list (obj st1))) as Hl.
    rewrite Ho1, Hlen in Hl. rewrite Ho1.
    destruct (sorted_precisions (_acc_list (obj st))) as [|a [|]];
      try discriminate. eauto. }
  destruct Hacc as [a Hacc].
  assert (Hscen : length (dc_scenarios (dc_invocation (obj st2) (Some nom)))
                  = 1%nat).
  { unfold Reconf.dc_invocation, Reconf.accepted. simpl.
    rewrite Est2. simpl. unfold empty_table.
    replace (sorted_precisions (_acc_list (obj st1))) with [a]
      by (rewrite <- Hacc, Est2; reflexivity).
    reflexivity. }
  destruct Hn as [[Hok Hn]|[Hok Hn]]; rewrite Hn.
  - eexists _, _, evs. split; [reflexivity|]. simpl.
    repeat split; try congruence.
    right. eexists. split; [now rewrite Hd2, Hd1|].
    split; [assumption|].
    rewrite <- Hd1, <- Hd2, Hok. discriminate.
  - simpl. unfold set_scen_table at 1. simpl. rewrite Hacc. simpl.
    eexists _, _, evs. split; [reflexivity|]. simpl.
    repeat split; try congruence.
    right. eexists. split; [now rewrite Hd2, Hd1|].
    split; [assumption|]. reflexivity.
Qed.

(** *** [probe] *)

Local Abbreviation p_call := (probe_call float_repr).
Local Abbreviation p_response := (probe_response float_repr backend).
Local Abbreviation p_total := (probe_total float_repr backend).
Local Abbreviation p_accepts := (probe_accepts float_repr backend).
Local Abbreviation p_best := (probe_best float_repr backend).
Local Abbreviation d_call := (descent_call float_repr).

Lemma probe_call_shift self a md v0 i :
  p_call self a md (S v0) i = p_call self a md v0 (S i).
Proof.
  unfold probe_call.
  now replace (S v0 + 1 + i)%nat with (v0 + 1 + S i)%nat by lia.
Qed.

Lemma probe_response_shift self base a md v0 i :
  p_response self (S base) a md (S v0) i
  = p_response self base a md v0 (S i).
Proof.
  unfold probe_response. rewrite probe_call_shift.
  now replace (S base + i)%nat with (base + S i)%nat by lia.
Qed.

Lemma probe_total_shift self base a md v0 i :
  p_total self (S base) a md (S v0) i
  = p_total self base a md v0 (S i).
Proof.
  unfold probe_total. now rewrite probe_response_shift.
Qed.

Lemma probe_accepts_shift self base a md v0 b0 b1 i :
  Reconf.b_tot_power b1 = p_total self base a md v0 0 ->
  p_accepts self (S base) a md (S v0) b1 i
  = p_accepts self base a md v0 b0 (S i).
Proof.
  intros Hb. unfold probe_accepts.
  rewrite probe_response_shift, probe_total_shift.
  destruct i as [|i]; [now rewrite Hb|].
  now rewrite probe_total_shift.
Qed.

Lemma probe_best_shift self base a md v0 b0 k :
  p_best self (S base) a md (S v0)
             (p_best self base a md v0 b0 1) k
  = p_best self base a md v0 b0 (S k).
Proof.
  destruct k as [|k]; [reflexivity|].
  unfold probe_best.
  rewrite probe_response_shift, probe_total_shift.
  now replace (S v0 + 1 + k)%nat with (v0 + 1 + S k)%nat by lia.
Qed.

Lemma probe_step a md v rest b st :
  (a < length (_acc_list (obj st)))%nat ->
  (a < length (_clock_multipliers (obj st)))%nat ->
  (v < length (_vdd_list (obj st)))%nat ->
  probe a md (v :: rest) b st
  = let c := dc_invocation (obj st)
               (Some (probe_scenario (obj st) a md v)) in
    let r := backend (length (dc_log st)) c in
    let tot := Reconf._weighted_total_power (obj st) (fst r) in
    let st1 := mkState (obj st) (dc_log st ++ [c]) (fs_log st) in
    if snd r && Qle_bool tot (Reconf.b_tot_power b) then
      probe a md rest
            (Reconf.mkBest (fst r) tot (probe_scenario (obj st) a md v) v)
            st1
    else (inr b, st1).
Proof.
  intros Ha Hc Hv. cbn [Reconf.probe].
  unfold mbind, lift, get_self, ret. cbv beta iota.
  rewrite (index_nth _ _ 0 Ha), (index_nth _ _ 0%Q Hv),
          (index_nth _ _ None Hc).
  unfold Reconf._call_dc, mret, ret. cbv beta iota zeta.
  fold (probe_scenario (obj st) a md v).
  destruct (_ && _); reflexivity.
Qed.

Lemma probe_spec (a : nat) (md : option (list (string * Z))) (m : nat) :
  forall v0 b0 st k,
    (a < length (_acc_list (obj st)))%nat ->
    (a < length (_clock_multipliers (obj st)))%nat ->
    (m = 0 \/ v0 + m < length (_vdd_list (obj st)))%nat ->
    (k <= m)%nat ->
    (forall i, (i < k)%nat ->
               p_accepts (obj st) (length (dc_log st)) a md v0 b0 i
               = true) ->
    ((k < m)%nat ->
     p_accepts (obj st) (length (dc_log st)) a md v0 b0 k = false) ->
    probe a md (seq (v0 + 1) m) b0 st
    = (inr (p_best (obj st) (length (dc_log st)) a md v0 b0 k),
       mkState (obj st)
         (dc_log st ++ map (p_call (obj st) a md v0)
                           (seq 0 (Nat.min (S k) m)))
         (fs_log st)).
Proof.
  induction m as [|m IH]; intros v0 b0 st k Ha Hc Hv Hk Hacc Hrej.
  - assert (k = 0)%nat by lia. subst k. simpl. rewrite app_nil_r.
    now destruct st.
  - assert (Hv1 : (v0 + 1 < length (_vdd_list (obj st)))%nat) by lia.
    cbn [seq]. rewrite (probe_step a md (v0 + 1) _ b0 st Ha Hc Hv1).
    cbv zeta.
    set (c0 := dc_invocation (obj st)
                 (Some (probe_scenario (obj st) a md (v0 + 1)))).
    assert (Ec0 : c0 = p_call (obj st) a md v0 0).
    { unfold c0, probe_call. now rewrite Nat.add_0_r. }
    set (r0 := backend (length (dc_log st)) c0).
    assert (Er0 : r0 = p_response (obj st) (length (dc_log st))
                                      a md v0 0).
    { unfold r0, probe_response. now rewrite Nat.add_0_r, Ec0. }
    assert (Eacc0 :
              snd r0 && Qle_bool (Reconf._weighted_total_power (obj st)
                                    (fst r0)) (Reconf.b_tot_power b0)
              = p_accepts (obj st) (length (dc_log st)) a md v0 b0 0).
    { unfold probe_accepts, probe_total.
      now rewrite Er0. }
    rewrite Eacc0.
    destruct k as [|k].
    + rewrite Hrej by lia. cbn [Nat.min seq map]. now rewrite Ec0.
    + rewrite Hacc by lia.
      set (st1 := mkState (obj st) (dc_log st ++ [c0]) (fs_log st)).
      set (b1 := Reconf.mkBest _ _ _ _).
      assert (Eb1 : b1 = p_best (obj st) (length (dc_log st))
                                    a md v0 b0 1).
      { unfold b1, probe_best, probe_total.
        now rewrite Er0, Nat.add_0_r. }
      assert (El : length (dc_log st1) = S (length (dc_log st))).
      { unfold st1. cbn [dc_log]. rewrite length_app. simpl. lia. }
      specialize (IH (S v0) b1 st1 k).
      change (obj st1) with (obj st) in IH. rewrite El in IH.
      change (seq (S (v0 + 1)) m) with (seq (S v0 + 1) m).
      rewrite IH; try assumption; try lia.
      * rewrite Eb1, probe_best_shift. f_equal. f_equal.
        unfold st1. cbn [dc_log Nat.min seq map].
        rewrite <- app_assoc, Ec0. cbn [app]. f_equal. f_equal.
        rewrite <- seq_shift, map_map.
        apply map_ext. intros i. apply probe_call_shift.
      * intros i Hi.
        rewrite (probe_accepts_shift _ _ _ _ _ b0).
        -- apply Hacc. lia.
        -- unfold b1. cbn [Reconf.b_tot_power].
           unfold probe_total. now rewrite Er0.
      * intros Hkm.
        rewrite (probe_accepts_shift _ _ _ _ _ b0).
        -- apply Hrej. lia.
        -- unfold b1. cbn [Reconf.b_tot_power].
           unfold probe_total. now rewrite Er0.
Qed.

(** The probe of lower voltages.  Probe [i] tries voltage number
    [v0 + 1 + i].  If the first [k] probes are each compliant with a total
    not above the total before them, and probe [k], if there is one, is
    not, then exactly the probes [0 .. k] are made and the configuration
    kept is that of probe [k - 1], or the starting one when [k = 0]. *)
Lemma probe_single_pass
    (st : State) (curr_acc_id : nat)
    (curr_mode : option (list (string * Z))) (v0 : nat)
    (b0 : Reconf.Best) (k : nat) :
  let self := obj st in
  let base := length (dc_log st) in
  let new_vdd_ids := range (v0 + 1) (length (_vdd_list self)) in
  (curr_acc_id < length (_acc_list self))%nat ->
  (curr_acc_id < length (_clock_multipliers self))%nat ->
  (k <= length new_vdd_ids)%nat ->
  (forall i, (i < k)%nat ->
             p_accepts self base curr_acc_id curr_mode v0 b0 i = true) ->
  ((k < length new_vdd_ids)%nat ->
   p_accepts self base curr_acc_id curr_mode v0 b0 k = false) ->
  probe curr_acc_id curr_mode new_vdd_ids b0 st
  = (inr (p_best self base curr_acc_id curr_mode v0 b0 k),
     mkState self
       (dc_log st
          ++ map (p_call self curr_acc_id curr_mode v0)
                 (seq 0 (Nat.min (S k) (length new_vdd_ids))))
       (fs_log st)).
Proof.
  intros self base ids Ha Hc Hk Hacc Hrej.
  subst self base ids. unfold range in *. rewrite length_seq in *.
  apply probe_spec; try assumption.
  destruct (length (_vdd_list (obj st)) - (v0 + 1))%nat eqn:E; lia.
Qed.

Lemma accepted_steps_spec (accepts : nat -> bool) (m : nat) :
  forall from,
    let k := accepted_steps accepts from m in
    (k <= m)%nat /\
    (forall i, (i < k)%nat -> accepts (from + i)%nat = true) /\
    ((k < m)%nat -> accepts (from + k)%nat = false).
Proof.
  induction m as [|m IH]; intros from; cbn [accepted_steps].
  - cbv zeta. repeat split; intros; lia.
  - destruct (accepts from) eqn:E; cbv zeta.
    + destruct (IH (S from)) as (Hle & Hacc & Hrej). repeat split.
      * lia.
      * intros [|i] Hi; [now rewrite Nat.add_0_r|].
        replace (from + S i)%nat with (S from + i)%nat by lia.
        apply Hacc. lia.
      * intros Hk.
        replace (from + S (accepted_steps accepts (S from) m))%nat
          with (S from + accepted_steps accepts (S from) m)%nat by lia.
        apply Hrej. lia.
    + repeat split; try lia. intros _. now rewrite Nat.add_0_r.
Qed.

(** The probe always ends, after the leading accepted probes. *)
Lemma probe_runs (st : State) (a : nat) (md : option (list (string * Z)))
    (v0 : nat) (b0 : Reconf.Best) :
  (a < length (_acc_list (obj st)))%nat ->
  (a < length (_clock_multipliers (obj st)))%nat ->
  let m := (length (_vdd_list (obj st)) - (v0 + 1))%nat in
  let k := accepted_steps
             (p_accepts (obj st) (length (dc_log st)) a md v0 b0) 0 m in
  probe a md (range (v0 + 1) (length (_vdd_list (obj st)))) b0 st
  = (inr (p_best (obj st) (length (dc_log st)) a md v0 b0 k),
     mkState (obj st)
       (dc_log st ++ map (p_call (obj st) a md v0)
                         (seq 0 (Nat.min (S k) m)))
       (fs_log st)).
Proof.
  intros Ha Hc m k.
  destruct (accepted_steps_spec
              (p_accepts (obj st) (length (dc_log st)) a md v0 b0) m 0)
    as (Hle & Hacc & Hrej).
  fold k in Hle, Hacc, Hrej.
  unfold range. fold m.
  apply probe_spec; try assumption; lia.
Qed.

(** *** [descend] *)

Lemma descend_nil v cp st : descend [] v cp st = (inr cp, st).
Proof. reflexivity. Qed.

(** One precision: the trial at the carried-over voltage, the probe, the
    commit. *)
Lemma descend_step (i : nat) (rest : list nat) (v : nat)
    (cp : option (list Q)) (st : State) :
  descend (i :: rest) v cp st
  = match Reconf._create_mode (obj st) i with
    | inl e => (inl e, st)
    | inr md =>
    match index (_acc_list (obj st)) i with
    | inl e => (inl e, st)
    | inr _ =>
    match index (_vdd_list (obj st)) v with
    | inl e => (inl e, st)
    | inr _ =>
    match index (_clock_multipliers (obj st)) i with
    | inl e => (inl e, st)
    | inr _ =>
        let self := obj st in
        let sc0 := probe_scenario self i md v in
        let c0 := dc_invocation self (Some sc0) in
        let r0 := backend (length (dc_log st)) c0 in
        if negb (snd r0) then
          (inl (TimingException
                  "Timing error when adding smaller precision, at same voltage"),
           mkState self (dc_log st ++ [c0]) (fs_log st))
        else
          let b0 := Reconf.mkBest (fst r0)
                      (Reconf._weighted_total_power self (fst r0)) sc0 v in
          let m := (length (_vdd_list self) - (v + 1))%nat in
          let base := S (length (dc_log st)) in
          let k := accepted_steps (p_accepts self base i md v b0) 0 m in
          let b := p_best self base i md v b0 k in
          descend rest (Reconf.b_vdd_id b) (Some (Reconf.b_power b))
            (mkState
               (set_scen_table self
                  (Dict.set (nth i (_acc_list self) 0)
                            (Some (Reconf.b_scenario b))
                            (_scen_table self)))
               (dc_log st ++ c0 :: map (p_call self i md v)
                                       (seq 0 (Nat.min (S k) m)))
               (fs_log st))
    end end end end.
Proof.
  cbn [Reconf.descend].
  unfold mbind at 1, get_self at 1, ret. cbv beta iota.
  unfold mbind at 1, lift at 1.
  destruct (Reconf._create_mode (obj st) i) as [e|md]; [reflexivity|].
  unfold mbind at 1, lift at 1.
  destruct (index (_acc_list (obj st)) i) as [e|a] eqn:Ea; [reflexivity|].
  unfold mbind at 1, lift at 1.
  destruct (index (_vdd_list (obj st)) v) as [e|vv] eqn:Ev; [reflexivity|].
  unfold mbind at 1, lift at 1.
  destruct (index (_clock_multipliers (obj st)) i) as [e|cm] eqn:Ec;
    [reflexivity|].
  apply index_inv in Ea, Ev, Ec.
  destruct Ea as [Ha Ea], Ev as [Hv Ev], Ec as [Hc Ec].
  assert (Esc : mkAxScenario a vv cm md = probe_scenario (obj st) i md v).
  { unfold probe_scenario. now rewrite (Ea 0), (Ev 0%Q), (Ec None). }
  rewrite Esc.
  unfold mbind at 1, Reconf._call_dc at 1, ret. cbv beta iota zeta.
  cbn [fst snd].
  set (c0 := dc_invocation (obj st) (Some (probe_scenario (obj st) i md v))).
  set (r0 := backend (length (dc_log st)) c0).
  destruct (snd r0) eqn:Eok; cbn [negb]; [|reflexivity].
  set (st0 := mkState (obj st) (dc_log st ++ [c0]) (fs_log st)).
  set (b0 := Reconf.mkBest _ _ _ _).
  unfold mbind at 1.
  change (obj st) with (obj st0) at 1 2 3.
  assert (Ha0 : (i < length (_acc_list (obj st0)))%nat) by exact Ha.
  assert (Hc0 : (i < length (_clock_multipliers (obj st0)))%nat) by exact Hc.
  rewrite (probe_runs st0 i md v b0 Ha0 Hc0). cbv zeta.
  assert (El : length (dc_log st0) = S (length (dc_log st))).
  { unfold st0. cbn [dc_log]. rewrite length_app. simpl. lia. }
  rewrite El. change (obj st0) with (obj st).
  unfold mbind at 1, lift at 1. cbv beta iota.
  unfold mbind at 1, put_self at 1. cbv beta iota. cbn [dc_log fs_log].
  unfold st0. cbn [dc_log fs_log]. rewrite <- app_assoc, <- (Ea 0).
  reflexivity.
Qed.

Lemma accepted_steps_unique (accepts : nat -> bool) (m : nat) :
  forall from k,
    (k <= m)%nat ->
    (forall i, (i < k)%nat -> accepts (from + i)%nat = true) ->
    ((k < m)%nat -> accepts (from + k)%nat = false) ->
    accepted_steps accepts from m = k.
Proof.
  induction m as [|m IH]; intros from k Hk Hacc Hrej; cbn [accepted_steps].
  - lia.
  - destruct k as [|k].
    + rewrite Nat.add_0_r in Hrej. now rewrite Hrej by lia.
    + pose proof (Hacc 0%nat ltac:(lia)) as H0.
      rewrite Nat.add_0_r in H0. rewrite H0. f_equal.
      apply IH; [lia| |].
      * intros i Hi. replace (S from + i)%nat with (from + S i)%nat by lia.
        apply Hacc. lia.
      * intros Hkm. replace (S from + k)%nat with (from + S k)%nat by lia.
        apply Hrej. lia.
Qed.

(** C1: the descent of one precision.  After the compliant trial at the
    carried-over voltage, probe [i] tries voltage number
    [curr_vdd_id + 1 + i].  If the first [k] probes are each compliant with
    a total not above the total before them, and probe [k], if there is
    one, is not, then the tool is invoked for the trial and for the probes
    [0 .. k] only (the rejected one included, none after it), and what is
    committed for the precision, and carried to the next, is the
    configuration of probe [k - 1], or of the trial when [k = 0], whatever
    later probes would have answered. *)
Theorem voltage_descent_single_pass
    (st : State) (curr_acc_id : nat) (rest : list nat) (curr_vdd_id : nat)
    (curr_power : option (list Q))
    (curr_mode : option (list (string * Z))) (k : nat) :
  let self := obj st in
  let trial := probe_scenario self curr_acc_id curr_mode curr_vdd_id in
  let c0 := dc_invocation self (Some trial) in
  let r0 := backend (length (dc_log st)) c0 in
  let b0 := Reconf.mkBest (fst r0)
              (Reconf._weighted_total_power self (fst r0)) trial curr_vdd_id in
  let base := S (length (dc_log st)) in
  let m := (length (_vdd_list self) - (curr_vdd_id + 1))%nat in
  let b := p_best self base curr_acc_id curr_mode curr_vdd_id b0 k in
  Reconf._create_mode self curr_acc_id = inr curr_mode ->
  (curr_acc_id < length (_acc_list self))%nat ->
  (curr_vdd_id < length (_vdd_list self))%nat ->
  (curr_acc_id < length (_clock_multipliers self))%nat ->
  snd r0 = true ->
  (k <= m)%nat ->
  (forall i, (i < k)%nat ->
             p_accepts self base curr_acc_id curr_mode curr_vdd_id b0 i
             = true) ->
  ((k < m)%nat ->
   p_accepts self base curr_acc_id curr_mode curr_vdd_id b0 k = false) ->
  descend (curr_acc_id :: rest) curr_vdd_id curr_power st
  = descend rest (Reconf.b_vdd_id b) (Some (Reconf.b_power b))
      (mkState
         (set_scen_table self
            (Dict.set (nth curr_acc_id (_acc_list self) 0)
                      (Some (Reconf.b_scenario b)) (_scen_table self)))
         (dc_log st
            ++ c0 :: map (p_call self curr_acc_id curr_mode curr_vdd_id)
                         (seq 0 (Nat.min (S k) m)))
         (fs_log st)).
Proof.
  intros self trial c0 r0 b0 base m b Hmode Ha Hv Hc Hok Hk Hacc Hrej.
  rewrite descend_step. fold self. rewrite Hmode.
  rewrite (index_nth _ _ 0 Ha), (index_nth _ _ 0%Q Hv),
          (index_nth _ _ None Hc).
  cbv zeta. fold trial. fold c0. fold r0. rewrite Hok. cbn [negb].
  fold b0. fold base. fold m.
  rewrite (accepted_steps_unique _ m 0 k Hk Hacc Hrej).
  reflexivity.
Qed.

Lemma seq_split_at (j n : nat) :
  (j < n)%nat -> seq 0 n = (seq 0 j ++ j :: seq (S j) (n - S j))%list.
Proof.
  intros Hj.
  assert (E : n = (j + S (n - S j))%nat) by lia.
  rewrite E at 1. rewrite seq_app. reflexivity.
Qed.

Lemma same_config_set_scen_table self t :
  same_config self (set_scen_table self t).
Proof. now destruct self. Qed.

Lemma weighted_total_same_config self self' p :
  same_config self self' ->
  Reconf._weighted_total_power self' p = Reconf._weighted_total_power self p.
Proof.
  unfold same_config. intros ->. reflexivity.
Qed.

Lemma accepts_call_same_weights self self' k c0 c :
  _weights self' = _weights self ->
  accepts_call backend self' k c0 c = accepts_call backend self k c0 c.
Proof.
  intros Hw. unfold accepts_call, Reconf._weighted_total_power.
  now rewrite Hw.
Qed.

Lemma last_accepted_same_weights self self' from log p :
  _weights self' = _weights self ->
  last_accepted backend self from log p ->
  last_accepted backend self' from log p.
Proof.
  intros Hw (pre & c0 & c & post & Hlog & Hfrom & Hans & Hacc & Hpost).
  exists pre, c0, c, post. repeat (split; [assumption|]).
  split; [now rewrite (accepts_call_same_weights _ _ _ _ _ Hw)|].
  destruct Hpost as [->|(c' & -> & Hrej)]; [now left|].
  right. exists c'. split; [reflexivity|].
  now rewrite (accepts_call_same_weights _ _ _ _ _ Hw).
Qed.

Lemma last_accepted_from self from from' log p :
  (from' <= from)%nat ->
  last_accepted backend self from log p ->
  last_accepted backend self from' log p.
Proof.
  intros Hle (pre & c0 & c & post & Hlog & Hfrom & Hrest).
  exists pre, c0, c, post. repeat split; try assumption; try lia.
  all: apply Hrest.
Qed.

(** The log tells which invocation was accepted last. *)
Lemma last_accepted_unique self from from' log p q :
  last_accepted backend self from log p ->
  last_accepted backend self from' log q ->
  p = q.
Proof.
  intros (pre & c0 & c & post & Hlog & _ & Hp & Hacc & Hpost)
         (pre' & c0' & c' & post' & Hlog' & _ & Hq & Hacc' & Hpost').
  rewrite Hlog in Hlog'. clear Hlog.
  destruct Hpost as [->|(d & -> & Hrej)];
    destruct Hpost' as [->|(d' & -> & Hrej')].
  - change (pre ++ [c0; c])%list with (pre ++ [c0] ++ [c])%list in Hlog'.
    change (pre' ++ [c0'; c'])%list with (pre' ++ [c0'] ++ [c'])%list in Hlog'.
    rewrite !app_assoc in Hlog'.
    apply app_inj_tail in Hlog'. destruct Hlog' as [Hlog' <-].
    apply app_inj_tail in Hlog'. destruct Hlog' as [<- <-].
    congruence.
  - exfalso.
    change (pre ++ [c0; c])%list with (pre ++ [c0] ++ [c])%list in Hlog'.
    change (pre' ++ [c0'; c'; d'])%list
      with (pre' ++ [c0'] ++ [c'] ++ [d'])%list in Hlog'.
    rewrite !app_assoc in Hlog'.
    apply app_inj_tail in Hlog'. destruct Hlog' as [Hlog' <-].
    apply app_inj_tail in Hlog'. destruct Hlog' as [-> <-].
    rewrite length_app in Hacc. cbn [length] in Hacc.
    rewrite Nat.add_1_r in Hacc. congruence.
  - exfalso.
    change (pre ++ [c0; c; d])%list
      with (pre ++ [c0] ++ [c] ++ [d])%list in Hlog'.
    change (pre' ++ [c0'; c'])%list with (pre' ++ [c0'] ++ [c'])%list in Hlog'.
    rewrite !app_assoc in Hlog'.
    apply app_inj_tail in Hlog'. destruct Hlog' as [Hlog' <-].
    apply app_inj_tail in Hlog'. destruct Hlog' as [<- <-].
    rewrite length_app in Hacc'. cbn [length] in Hacc'.
    rewrite Nat.add_1_r in Hacc'. congruence.
  - change (pre ++ [c0; c; d])%list
      with (pre ++ [c0] ++ [c] ++ [d])%list in Hlog'.
    change (pre' ++ [c0'; c'; d'])%list
      with (pre' ++ [c0'] ++ [c'] ++ [d'])%list in Hlog'.
    rewrite !app_assoc in Hlog'.
    apply app_inj_tail in Hlog'. destruct Hlog' as [Hlog' <-].
    apply app_inj_tail in Hlog'. destruct Hlog' as [Hlog' <-].
    apply app_inj_tail in Hlog'. destruct Hlog' as [<- <-].
    congruence.
Qed.

Lemma tried_invocation self s :
  tried (dc_invocation self (Some s)) = Some (accuracy s).
Proof.
  unfold tried, Reconf.dc_invocation. cbn [dc_scenarios].
  now rewrite rev_unit.
Qed.

Lemma tried_descent_call self i md v t :
  tried (d_call self i md v t) = Some (nth i (_acc_list self) 0).
Proof.
  destruct t; unfold descent_call, probe_call; now rewrite tried_invocation.
Qed.

Lemma descent_calls_split self i md v (n : nat) :
  (dc_invocation self (Some (probe_scenario self i md v))
     :: map (p_call self i md v) (seq 0 n))%list
  = map (d_call self i md v) (seq 0 (S n)).
Proof.
  cbn [seq map]. f_equal. now rewrite <- seq_shift, map_map.
Qed.

(** Within the descent of a precision, the invocation after number [t] is
    accepted exactly when probe [t] is. *)
Lemma accepts_call_descent self base0 i md v t :
  let sc0 := probe_scenario self i md v in
  let r0 := backend base0 (dc_invocation self (Some sc0)) in
  let b0 := Reconf.mkBest (fst r0)
              (Reconf._weighted_total_power self (fst r0)) sc0 v in
  accepts_call backend self (base0 + t)
               (d_call self i md v t) (d_call self i md v (S t))
  = p_accepts self (S base0) i md v b0 t.
Proof.
  intros sc0 r0 b0. unfold accepts_call, probe_after.
  rewrite !tried_descent_call, Z.eqb_refl. cbn [negb orb].
  unfold probe_accepts, probe_total, probe_response.
  cbn [descent_call Nat.add]. f_equal.
  destruct t as [|t].
  - rewrite Nat.add_0_r. reflexivity.
  - cbn [descent_call]. now rewrite Nat.add_succ_r.
Qed.

Lemma descend_calls_only rest :
  forall v cp, preserves calls_only (descend rest v cp).
Proof.
  induction rest as [|i rest IH]; intros v cp st.
  - apply calls_only_refl.
  - rewrite descend_step.
    destruct (Reconf._create_mode _ _); [apply calls_only_refl|].
    destruct (index (_acc_list _) _); [apply calls_only_refl|].
    destruct (index (_vdd_list _) _); [apply calls_only_refl|].
    destruct (index (_clock_multipliers _) _); [apply calls_only_refl|].
    cbv zeta.
    destruct (negb _).
    + split; [apply same_config_refl|]. split; [reflexivity|].
      eexists. reflexivity.
    + eapply calls_only_trans; [|apply IH].
      split; [apply same_config_set_scen_table|].
      split; [reflexivity|]. eexists. reflexivity.
Qed.

(** After at least one precision has been processed, [curr_power] is
    the answer to the invocation accepted last. *)
Lemma descend_power m :
  forall i j v cp st cp' st' pre c_prev,
    NoDup (_acc_list (obj st)) ->
    (j < i)%nat ->
    dc_log st = (pre ++ [c_prev])%list ->
    tried c_prev = Some (nth j (_acc_list (obj st)) 0) ->
    descend (seq i m) v cp st = (inr cp', st') ->
    (m = 0%nat /\ cp' = cp /\ st' = st) \/
    (exists p, cp' = Some p /\
               last_accepted backend (obj st') (length pre)
                             (dc_log st') p).
Proof.
  induction m as [|m IH];
    intros i j v cp st cp' st' pre c_prev Hnd Hji Hlog Htr Hrun.
  - left. cbn [seq] in Hrun. rewrite descend_nil in Hrun.
    now inversion Hrun.
  - right. cbn [seq] in Hrun. rewrite descend_step in Hrun.
    destruct (Reconf._create_mode _ _) as [|md]; [discriminate|].
    destruct (index (_acc_list _) _) as [|a] eqn:Ea; [discriminate|].
    destruct (index (_vdd_list _) _); [discriminate|].
    destruct (index (_clock_multipliers _) _); [discriminate|].
    apply index_inv in Ea. destruct Ea as [Hi _].
    cbv zeta in Hrun.
    set (c0 := dc_invocation (obj st)
                 (Some (probe_scenario (obj st) i md v))) in *.
    set (r0 := backend (length (dc_log st)) c0) in *.
    destruct (snd r0) eqn:Eok; cbn [negb] in Hrun; [|discriminate].
    set (b0 := Reconf.mkBest _ _ _ _) in *.
    set (n := (length (_vdd_list (obj st)) - (v + 1))%nat) in *.
    set (base := S (length (dc_log st))) in *.
    set (acc := p_accepts (obj st) base i md v b0) in *.
    set (k := accepted_steps acc 0 n) in *.
    set (st1 := mkState _ _ _) in Hrun.
    destruct (accepted_steps_spec acc n 0) as (Hle & Hacc & Hrej).
    fold k in Hle, Hacc, Hrej. cbn [Nat.add] in Hacc, Hrej.
    set (dcall := d_call (obj st) i md v).
    set (N := Nat.min (S k) n).
    assert (Hlog1 : dc_log st1
                    = (dc_log st ++ map dcall (seq 0 (S N)))%list).
    { unfold st1, dcall. cbn [dc_log].
      now rewrite <- descent_calls_split. }
    assert (Hacc_t : forall t,
               accepts_call backend (obj st) (length (dc_log st) + t)
                            (dcall t) (dcall (S t)) = acc t).
    { intros t. apply accepts_call_descent. }
    assert (Hlen : length (dc_log st) = S (length pre)).
    { rewrite Hlog, length_app. simpl. lia. }
    assert (Hlast : dc_log st1
                    = ((dc_log st ++ map dcall (seq 0 N)) ++ [dcall N])%list).
    { rewrite Hlog1, seq_S, map_app, app_assoc. reflexivity. }
    assert (Htr1 : tried (dcall N)
                   = Some (nth i (_acc_list (obj st1)) 0)).
    { exact (tried_descent_call (obj st) i md v N). }
    assert (Hnd1 : NoDup (_acc_list (obj st1))) by exact Hnd.
    destruct (IH (S i) i _ _ st1 cp' st' _ (dcall N)
                 Hnd1 (Nat.lt_succ_diag_r i) Hlast Htr1 Hrun)
      as [(_ & -> & ->)|(p & -> & Hans)].
    + exists (Reconf.b_power (p_best (obj st) base i md v b0 k)).
      split; [reflexivity|].
      apply (last_accepted_same_weights (obj st)); [reflexivity|].
      rewrite Hlog1. unfold N.
      destruct k as [|k'] eqn:Ek.
      * (* no probe accepted: the trial at the carried-over voltage *)
        exists pre, c_prev, (dcall 0%nat),
               (map dcall (seq 1 (Nat.min 1 n))).
        split.
        { rewrite Hlog. cbn [seq map]. now rewrite <- app_assoc. }
        split; [lia|].
        split; [rewrite <- Hlen; reflexivity|].
        split.
        { unfold accepts_call. rewrite <- Hlen.
          change (snd (backend (length (dc_log st)) (dcall 0%nat)))
            with (snd r0).
          rewrite Eok. cbn [andb].
          unfold probe_after. unfold dcall.
          rewrite Htr, tried_descent_call.
          destruct (Z.eqb_spec (nth j (_acc_list (obj st)) 0)
                               (nth i (_acc_list (obj st)) 0))
            as [E|_]; [|reflexivity].
          exfalso.
          apply (proj1 (NoDup_nth (_acc_list (obj st)) 0) Hnd) in E;
            lia. }
        destruct n as [|n']; [now left|]. right.
        exists (dcall 1%nat). split; [reflexivity|].
        rewrite <- Hlen. specialize (Hacc_t 0%nat).
        rewrite Nat.add_0_r in Hacc_t. rewrite Hacc_t.
        apply Hrej. lia.
      * (* probe [k'] is the last accepted one *)
        exists (dc_log st ++ map dcall (seq 0 k'))%list,
               (dcall k'), (dcall (S k')),
               (map dcall
                    (seq (S (S k')) (Nat.min (S (S k')) n - S k'))).
        assert (Elen : length (dc_log st ++ map dcall (seq 0 k'))%list
                       = (length (dc_log st) + k')%nat).
        { now rewrite length_app, length_map, length_seq. }
        rewrite Elen.
        split.
        { replace (S (Nat.min (S (S k')) n))
            with (k' + S (S (Nat.min (S (S k')) n - S k')))%nat by lia.
          rewrite seq_app, map_app. cbn [seq map Nat.add].
          now rewrite <- app_assoc. }
        split; [lia|].
        split; [reflexivity|].
        split; [rewrite Hacc_t; apply Hacc; lia|].
        destruct (Nat.eq_dec (S k') n) as [En|En].
        -- left.
           replace (Nat.min (S (S k')) n - S k')%nat with 0%nat by lia.
           reflexivity.
        -- right. exists (dcall (S (S k'))).
           replace (Nat.min (S (S k')) n - S k')%nat with 1%nat by lia.
           split; [reflexivity|].
           specialize (Hacc_t (S k')).
           rewrite Nat.add_succ_r in Hacc_t. rewrite Hacc_t.
           apply Hrej. lia.
    + exists p. split; [reflexivity|].
      eapply last_accepted_from; [|exact Hans].
      rewrite length_app. lia.
Qed.

(** *** [finalize] *)

Lemma mapM_inr {A B} (f : A -> result B) (l : list A) (ys : list B) :
  mapM f l = inr ys -> Forall2 (fun x y => f x = inr y) l ys.
Proof.
  revert ys. induction l as [|x l IH]; intros ys; simpl.
  - intros [= <-]. constructor.
  - unfold rbind, ret. destruct (f x) as [e|y] eqn:Ex; [discriminate|].
    destruct (mapM f l) as [e|ys']; [discriminate|].
    intros [= <-]. constructor; auto.
Qed.

Lemma getitem_inr {V} (d : Dict.t Z V) (k : Z) (v : V) :
  getitem d k = inr v <-> Dict.get k d = Some v.
Proof.
  unfold getitem, ret, raise.
  destruct (Dict.get k d); split; intros E; inversion E; reflexivity.
Qed.

Lemma table_rows_ok self accs rows :
  Reconf.table_rows self accs = (rows, None) ->
  Forall2 (fun a r => fst (fst r) = a /\
                      Dict.get a (_power_table self) = Some (snd (fst r)))
          accs rows.
Proof.
  revert rows. induction accs as [|a accs IH]; intros rows; simpl.
  - intros [= <-]. constructor.
  - unfold rbind, ret, raise.
    destruct (getitem (_power_table self) a) as [e|p] eqn:Ep; [discriminate|].
    destruct (getitem (_scen_table self) a) as [e|[s|]]; try discriminate.
    destruct (Reconf.table_rows self accs) as [rows' e'].
    intros [= <- ->]. constructor; [|now apply IH].
    split; [reflexivity|]. now apply getitem_inr.
Qed.

Lemma rows_match_table self accs (rows : list (Z * option Q * Q)) tbl :
  Forall2 (fun a r => fst (fst r) = a /\
                      Dict.get a (_power_table self) = Some (snd (fst r)))
          accs rows ->
  Forall2 (table_row self) accs tbl ->
  map fst rows = combine accs (map fst tbl).
Proof.
  intros Hrows. revert tbl.
  induction Hrows as [|a r accs rows [Ha Hp] Hrows IH]; intros tbl Htbl;
    inversion Htbl as [|a' row accs' tbl' [Hrow _] Htbl']; subst.
  - reflexivity.
  - simpl. rewrite (IH _ Htbl'). f_equal.
    rewrite Hp in Hrow. injection Hrow as <-.
    now destruct r as [[a p] v].
Qed.

Lemma finalize_ok output_dir output_table cp st tbl st' :
  Reconf.finalize output_dir output_table cp st = (inr tbl, st') ->
  exists p,
    cp = Some p /\
    obj st' = set_power_table (obj st)
                (Dict.of_list (combine (_acc_list (obj st)) (map Some p))) /\
    dc_log st' = dc_log st /\
    Forall2 (table_row (obj st')) (_acc_list (obj st)) tbl /\
    forall path,
      output_table = Some path ->
      exists rows evs,
        fs_log st' = (fs_log st ++ WriteTable path rows :: evs)%list /\
        map fst rows = combine (_acc_list (obj st)) (map fst tbl).
Proof.
  unfold Reconf.finalize.
  unfold mbind at 1, get_self at 1, ret. cbv beta iota.
  unfold mbind at 1, lift at 1.
  destruct cp as [p|]; [|discriminate]. unfold ret. cbv beta iota.
  set (self := set_power_table (obj st) _).
  unfold mbind at 1, put_self at 1, ret. cbv beta iota.
  unfold mbind at 1, lift at 1.
  change (_acc_list self) with (_acc_list (obj st)).
  match goal with
  | |- context [match mapM ?f ?l with _ => _ end] =>
      destruct (mapM f l) as [e|chk]; [discriminate|]
  end.
  intros Hrun. exists p. split; [reflexivity|].
  assert (Hsuffix :
            forall st1 : State,
              obj st1 = self ->
              (mbind (Reconf._save_netlist output_dir)
                 (fun _ =>
                    lift (mapM (fun a =>
                                  rbind (getitem (_power_table self) a) (fun p0 =>
                                  rbind (getitem (_scen_table self) a) (fun s =>
                                  ret (p0, s))))
                               (_acc_list (obj st))))) st1 = (inr tbl, st') ->
              obj st' = self /\ dc_log st' = dc_log st1 /\
              (exists evs, fs_log st' = (fs_log st1 ++ evs)%list) /\
              Forall2 (table_row self) (_acc_list (obj st)) tbl).
  { intros st1 Hobj.
    unfold Reconf._save_netlist, mbind, get_self, fs_do, lift, ret.
    cbn [obj dc_log fs_log].
    destruct (mapM _ _) as [e|tbl'] eqn:Em; [discriminate|].
    intros [= <- <-]. cbn [obj dc_log fs_log].
    split; [assumption|]. split; [reflexivity|]. split.
    - eexists. rewrite <- !app_assoc. reflexivity.
    - apply mapM_inr in Em.
      eapply Forall2_impl; [|exact Em].
      intros a [p0 s]. unfold rbind, ret, table_row. cbn [fst snd].
      destruct (getitem (_power_table self) a) as [|p1] eqn:E1;
        [discriminate|].
      destruct (getitem (_scen_table self) a) as [|s1] eqn:E2;
        [discriminate|].
      intros [= <- <-]. split; now apply getitem_inr. }
  destruct output_table as [path|].
  - destruct (Reconf.table_rows self (_acc_list (obj st))) as [rows e] eqn:Er.
    unfold mbind at 1 in Hrun. unfold mbind at 1, fs_do at 1 in Hrun.
    cbv beta iota in Hrun.
    destruct e as [e|]; [discriminate|].
    unfold mret at 1 in Hrun. cbv beta iota in Hrun.
    apply Hsuffix in Hrun; [|reflexivity].
    destruct Hrun as (Ho & Hd & [evs Hf] & Ht).
    cbn [dc_log fs_log] in Hd, Hf.
    rewrite Ho. split; [reflexivity|].
    repeat (split; [assumption|]).
    intros path' [= <-]. exists rows, evs. split.
    + rewrite Hf, <- app_assoc. reflexivity.
    + eapply rows_match_table; [|exact Ht]. now apply table_rows_ok.
  - unfold mbind at 1, mret at 1 in Hrun. cbv beta iota in Hrun.
    apply Hsuffix in Hrun; [|reflexivity].
    destruct Hrun as (Ho & Hd & _ & Ht).
    rewrite Ho. split; [reflexivity|].
    repeat (split; [assumption|]).
    intros path [=].
Qed.

(** *** Dictionaries built from lists of distinct keys *)

Lemma mem_app {K V} `{Key K} (k : K) (d1 d2 : Dict.t K V) :
  Dict.mem k (d1 ++ d2)%list = Dict.mem k d1 || Dict.mem k d2.
Proof.
  induction d1 as [|[k' v'] d1 IH]; simpl; [reflexivity|].
  destruct (keqb k k'); [reflexivity | exact IH].
Qed.

Lemma fold_set_fresh {K V} `{Key K} (kvs : list (K * V)) :
  forall d : Dict.t K V,
    NoDup (map fst kvs) ->
    (forall k, In k (map fst kvs) -> Dict.mem k d = false) ->
    fold_left (fun d '(k, v) => Dict.set k v d) kvs d = (d ++ kvs)%list.
Proof.
  induction kvs as [|[k v] kvs IH]; intros d Hnd Hfresh; simpl.
  - now rewrite app_nil_r.
  - simpl in Hnd. inversion Hnd as [|k0 ks Hk Hnd']; subst.
    rewrite set_fresh by (apply Hfresh; now left).
    rewrite IH; [now rewrite <- app_assoc|assumption|].
    intros k' Hk'. rewrite mem_app, (Hfresh k') by now right.
    simpl. rewrite keqb_neq; [reflexivity|].
    intros ->. contradiction.
Qed.

Lemma of_list_nodup {K V} `{Key K} (kvs : list (K * V)) :
  NoDup (map fst kvs) -> Dict.of_list kvs = kvs.
Proof.
  intros Hnd. unfold Dict.of_list.
  rewrite fold_set_fresh; auto.
Qed.

Lemma map_fst_combine {A B} (l1 : list A) (l2 : list B) :
  map fst (combine l1 l2) = firstn (length l2) l1.
Proof.
  revert l2. induction l1 as [|x l1 IH]; intros [|y l2]; simpl;
    try reflexivity.
  now rewrite IH.
Qed.

Lemma In_firstn_In {A} (x : A) (n : nat) (l : list A) :
  In x (firstn n l) -> In x l.
Proof.
  revert n. induction l as [|y l IH]; intros [|n]; simpl; try tauto.
  intros [E|Hin]; [now left | right; eauto].
Qed.

Lemma NoDup_firstn {A} (n : nat) (l : list A) :
  NoDup l -> NoDup (firstn n l).
Proof.
  intros Hnd. revert n.
  induction Hnd as [|x l Hx Hnd IH]; intros [|n]; simpl;
    try constructor; auto.
  intros Hin. apply Hx. eapply In_firstn_In; eauto.
Qed.

Lemma of_list_combine (accs : list Z) {V} (vs : list V) :
  NoDup accs -> Dict.of_list (combine accs vs) = combine accs vs.
Proof.
  intros Hnd. apply of_list_nodup.
  rewrite map_fst_combine. now apply NoDup_firstn.
Qed.

Lemma Forall2_impl_In {A B} (P Q : A -> B -> Prop) l l' :
  (forall x y, In x l -> P x y -> Q x y) ->
  Forall2 P l l' -> Forall2 Q l l'.
Proof.
  intros Himp HP.
  induction HP as [|x y l l' Hxy HP IH]; constructor.
  - apply Himp; [now left | assumption].
  - apply IH. intros x' y' Hin. apply Himp. now right.
Qed.

Lemma powers_of_table {R} (accs : list Z) (tbl : list R)
    (f : R -> option Q) :
  forall ps : list (option Q),
    NoDup accs ->
    Forall2 (fun a row => Dict.get a (combine accs ps) = Some (f row))
            accs tbl ->
    map f tbl = firstn (length accs) ps.
Proof.
  revert tbl. induction accs as [|a accs IH]; intros tbl ps Hnd Hall;
    inversion Hall as [|a' row accs' tbl' Hrow Htl]; subst.
  - reflexivity.
  - destruct ps as [|x ps]; [discriminate|].
    inversion Hnd as [|a0 l0 Ha Hnd']; subst.
    simpl in Hrow. rewrite Z.eqb_refl in Hrow. injection Hrow as Hx.
    simpl. rewrite Hx. f_equal. apply IH; [assumption|].
    eapply Forall2_impl_In; [|exact Htl].
    intros a' row' Hin Hget. simpl in Hget.
    destruct (Z.eqb_spec a' a) as [->|Hne]; [contradiction|assumption].
Qed.

(** *** [run] as a whole *)

Lemma init_dirs_None output_dir st :
  _init_dirs output_dir None st = (inl TypeError, st).
Proof. reflexivity. Qed.

Lemma run_ok output_dir output_table st tbl st' :
  run output_dir output_table st = (inr tbl, st') ->
  exists st1 st2 st3 st4 cp,
    _init_dirs output_dir output_table st = (inr tt, st1) /\
    Reconf.sort_inputs st1 = (inr tt, st2) /\
    nominal st2 = (inr tt, st3) /\
    descend (range 1 (length (_acc_list (obj st3)))) 0 None st3
    = (inr cp, st4) /\
    Reconf.finalize output_dir output_table cp st4 = (inr tbl, st').
Proof.
  unfold Reconf.run, mbind.
  destruct (_init_dirs output_dir output_table st) as [[e|[]] st1] eqn:E1;
    [discriminate|].
  destruct (Reconf.sort_inputs st1) as [[e|[]] st2] eqn:E2; [discriminate|].
  destruct (nominal st2) as [[e|[]] st3] eqn:E3; [discriminate|].
  unfold get_self, ret.
  destruct (descend _ 0 None st3) as [[e|cp] st4] eqn:E4; [discriminate|].
  intros Hfin. exists st1, st2, st3, st4, cp. repeat split; auto.
Qed.

(** *** Sorting gives a sorted permutation *)

Section SortFacts.
Context {A : Type} (R : A -> A -> Prop) (geb : A -> A -> bool).
Hypothesis geb_true : forall x y, geb x y = true -> R x y.
Hypothesis geb_false : forall x y, geb x y = false -> R y x.
Hypothesis R_trans : forall x y z, R x y -> R y z -> R x z.

Lemma insert_desc_sorted x l :
  StronglySorted R l -> StronglySorted R (insert_desc geb x l).
Proof.
  intros Hs. induction Hs as [|y l Hs IH Hy]; simpl.
  - repeat constructor.
  - destruct (geb x y) eqn:E.
    + constructor; [now constructor|].
      constructor; [now apply geb_true|].
      eapply Forall_impl; [|exact Hy].
      intros z Hz. eapply R_trans; [apply geb_true|]; eassumption.
    + constructor; [assumption|].
      apply insert_desc_Forall; [now apply geb_false | assumption].
Qed.

Lemma sort_desc_sorted l : StronglySorted R (sort_desc geb l).
Proof.
  induction l as [|x l IH]; simpl.
  - constructor.
  - now apply insert_desc_sorted.
Qed.
End SortFacts.

Lemma insert_desc_perm {A} geb (x : A) l :
  Permutation (insert_desc geb x l) (x :: l).
Proof.
  induction l as [|y l IH]; simpl.
  - reflexivity.
  - destruct (geb x y); [reflexivity|].
    rewrite IH. apply perm_swap.
Qed.

Lemma sort_desc_perm {A} geb (l : list A) : Permutation (sort_desc geb l) l.
Proof.
  induction l as [|x l IH]; simpl.
  - reflexivity.
  - now rewrite insert_desc_perm, IH.
Qed.

Lemma vdd_list_sorted (l : list Q) :
  StronglySorted (fun x y => (y <= x)%Q) (sort_desc Qgeb l).
Proof.
  apply sort_desc_sorted.
  - intros x y E. now apply Qle_bool_iff.
  - intros x y E. unfold Qgeb in E.
    destruct (Qlt_le_dec y x) as [Hlt|Hle].
    + apply Qlt_le_weak in Hlt. apply Qle_bool_iff in Hlt. congruence.
    + assumption.
  - intros x y z Hxy Hyz. eapply Qle_trans; eassumption.
Qed.

Lemma map_nth_seq {A} (l : list A) (d : A) :
  map (fun i => nth i l d) (seq 0 (length l)) = l.
Proof.
  induction l as [|x l IH]; simpl; [reflexivity|].
  f_equal. rewrite <- seq_shift, map_map. exact IH.
Qed.

Lemma sorted_precisions_perm (l : list Z) :
  Permutation (sorted_precisions l) l.
Proof.
  unfold sorted_precisions, range. rewrite Nat.sub_0_r.
  etransitivity; [apply Permutation_map, sort_desc_perm|].
  now rewrite map_nth_seq.
Qed.

Lemma sorted_precisions_NoDup (l : list Z) :
  NoDup l -> NoDup (sorted_precisions l).
Proof.
  intros Hnd. eapply Permutation_NoDup; [|exact Hnd].
  symmetry. apply sorted_precisions_perm.
Qed.

Lemma sorted_precisions_sorted (l : list Z) :
  StronglySorted (fun a b => b <= a) (sorted_precisions l).
Proof.
  unfold sorted_precisions.
  set (key := fun i => nth i l 0).
  change (StronglySorted (fun a b => b <= a)
            (map key (sort_desc (fun i j => key j <=? key i)
                                (range 0 (length l))))).
  assert (Hs : StronglySorted (fun i j => key j <= key i)
                 (sort_desc (fun i j => key j <=? key i)
                            (range 0 (length l)))).
  { apply sort_desc_sorted.
    - intros x y E. now apply Z.leb_le.
    - intros x y E. apply Z.leb_gt in E. lia.
    - intros x y z Hxy Hyz. lia. }
  induction Hs as [|i idxs Hs IH Hi]; simpl; constructor.
  - exact IH.
  - apply Forall_map. exact Hi.
Qed.

Lemma sorted_nth {A} (R : A -> A -> Prop) (l : list A) (d : A) :
  StronglySorted R l ->
  forall u v, (u < v < length l)%nat -> R (nth u l d) (nth v l d).
Proof.
  intros Hs. induction Hs as [|x l Hs IH Hx]; intros u v Huv.
  - simpl in Huv. lia.
  - destruct v as [|v]; [lia|]. simpl in Huv.
    destruct u as [|u]; simpl.
    + rewrite Forall_forall in Hx. apply Hx, nth_In. lia.
    + apply IH. lia.
Qed.

Lemma sorted_snoc {A} (R : A -> A -> Prop) (l : list A) (y : A) :
  StronglySorted R l -> Forall (fun x => R x y) l ->
  StronglySorted R (l ++ [y]).
Proof.
  intros Hs Hy. induction Hs as [|x l Hs IH Hx]; simpl.
  - repeat constructor.
  - inversion Hy as [|x' l' Hxy Hy']; subst.
    constructor; [now apply IH|].
    apply Forall_app. split; [assumption|]. now constructor.
Qed.

(** *** The scenario table *)

Lemma map_snd_combine {A B} (l1 : list A) (l2 : list B) :
  length l1 = length l2 -> map snd (combine l1 l2) = l2.
Proof.
  revert l2. induction l1 as [|x l1 IH]; intros [|y l2]; simpl;
    try discriminate; try reflexivity.
  intros [= E]. now rewrite IH.
Qed.

Lemma accepted_scen_table_of self accs cs :
  (length cs <= length accs)%nat ->
  Reconf.accepted (set_scen_table self (scen_table_of accs cs)) = cs.
Proof.
  intros Hlen. unfold Reconf.accepted, scen_table_of, Dict.values.
  cbn [_scen_table set_scen_table].
  rewrite map_snd_combine
    by (rewrite length_app, length_map, repeat_length; lia).
  rewrite flat_map_app.
  assert (E1 : forall l : list AxScenario,
             flat_map (fun v : option AxScenario =>
                         match v with Some s => [s] | None => [] end)
                      (map Some l) = l).
  { induction l as [|s l IH]; simpl; [reflexivity | now rewrite IH]. }
  assert (E2 : forall n,
             flat_map (fun v : option AxScenario =>
                         match v with Some s => [s] | None => [] end)
                      (repeat None n) = []).
  { induction n as [|n IH]; simpl; [reflexivity | exact IH]. }
  now rewrite E1, E2, app_nil_r.
Qed.

Lemma scen_table_of_cons a accs c cs :
  scen_table_of (a :: accs) (c :: cs) = (a, Some c) :: scen_table_of accs cs.
Proof. reflexivity. Qed.

Lemma set_scen_table_of accs :
  forall cs s,
    NoDup accs ->
    (length cs < length accs)%nat ->
    Dict.set (nth (length cs) accs 0) (Some s) (scen_table_of accs cs)
    = scen_table_of accs (cs ++ [s]).
Proof.
  induction accs as [|a accs IH]; intros cs s Hnd Hlen;
    [simpl in Hlen; lia|].
  inversion Hnd as [|a0 l0 Ha Hnd']; subst.
  destruct cs as [|c cs].
  - unfold scen_table_of. cbn [length nth app map].
    rewrite Nat.sub_0_r.
    replace (S (length accs) - 1)%nat with (length accs) by lia.
    cbn [repeat combine app Dict.set]. unfold keqb. cbn [Key_Z].
    now rewrite Z.eqb_refl.
  - cbn [length nth app]. rewrite !scen_table_of_cons.
    cbn [Dict.set]. unfold keqb at 1. cbn [Key_Z].
    simpl in Hlen.
    destruct (Z.eqb_spec (nth (length cs) accs 0) a) as [E|Hne].
    + exfalso. apply Ha. rewrite <- E. apply nth_In. lia.
    + f_equal. apply IH; [assumption | lia].
Qed.

Lemma empty_table_scen_table_of accs :
  NoDup accs -> empty_table accs = scen_table_of accs [].
Proof.
  intros Hnd. unfold empty_table, scen_table_of.
  rewrite of_list_nodup by (rewrite map_map, map_id; assumption).
  cbn [map app length]. rewrite Nat.sub_0_r.
  clear Hnd. induction accs as [|a accs IH]; simpl; [reflexivity|].
  now rewrite IH.
Qed.

Lemma dc_scenarios_invocation self s :
  dc_scenarios (dc_invocation self (Some s))
  = (Reconf.accepted self ++ [s])%list.
Proof. reflexivity. Qed.

Lemma set_scen_table_twice self t t' :
  set_scen_table (set_scen_table self t) t' = set_scen_table self t'.
Proof. reflexivity. Qed.

Lemma prefix_of_refl {A} (l : list A) : prefix_of l l.
Proof. exists []. now rewrite app_nil_r. Qed.

Lemma prefix_of_snoc {A} (pre l : list A) (x : A) :
  prefix_of pre l -> prefix_of pre (l ++ [x]).
Proof.
  intros [suf ->]. exists (suf ++ [x])%list. now rewrite app_assoc.
Qed.

Lemma cumulative_snoc accs cs s c :
  cumulative accs cs c -> cumulative accs (cs ++ [s]) c.
Proof.
  intros (pre & t & Hc & Hpre & Hacc).
  exists pre, t. repeat split; try assumption.
  now apply prefix_of_snoc.
Qed.

(** A trial of precision number [length cs] on top of the accepted
    scenarios [cs] is cumulative and carries at least two scenarios. *)
Lemma trial_cumulative self0 cs md vid :
  (0 < length cs < length (_acc_list self0))%nat ->
  let self := set_scen_table self0 (scen_table_of (_acc_list self0) cs) in
  let c := dc_invocation self
             (Some (probe_scenario self (length cs) md vid)) in
  (2 <= length (dc_scenarios c))%nat /\
  cumulative (_acc_list self0) cs c.
Proof.
  intros Hlen self c.
  assert (E : dc_scenarios c
              = (cs ++ [probe_scenario self (length cs) md vid])%list).
  { subst c. rewrite dc_scenarios_invocation. f_equal.
    unfold self. apply accepted_scen_table_of. lia. }
  split.
  - rewrite E, length_app. simpl. lia.
  - exists cs, (probe_scenario self (length cs) md vid).
    split; [exact E|]. split; [apply prefix_of_refl|].
    cbn [probe_scenario accuracy]. unfold self.
    cbn [_acc_list set_scen_table].
    apply nth_error_nth'. lia.
Qed.

(** *** The invariant of the search *)

Lemma firstn_S_nth {A} (l : list A) (i : nat) (d : A) :
  (i < length l)%nat -> firstn (S i) l = (firstn i l ++ [nth i l d])%list.
Proof.
  revert i. induction l as [|x l IH]; intros i Hi; [simpl in Hi; lia|].
  destruct i as [|i]; [reflexivity|].
  simpl in Hi. cbn [firstn nth app]. f_equal. apply IH. lia.
Qed.

Lemma search_inv_add_calls self0 log0 st cs v new :
  search_inv self0 log0 st cs v ->
  Forall (fun c => (2 <= length (dc_scenarios c))%nat /\
                   cumulative (_acc_list self0) cs c) new ->
  search_inv self0 log0
    (mkState (obj st) (dc_log st ++ new) (fs_log st)) cs v.
Proof.
  intros (Hobj & Hlen & Hv & Hacc & Hvdd & Hsort
          & c_nom & others & Hlog & Hnom & Htwo & Hcum) Hnew.
  repeat (split; [assumption|]).
  exists c_nom, (others ++ new)%list. cbn [dc_log].
  split; [rewrite Hlog, <- app_assoc; reflexivity|].
  split; [assumption|].
  split.
  - apply Forall_app. split; [assumption|].
    eapply Forall_impl; [|exact Hnew]. now intros c [H2 _].
  - rewrite app_comm_cons. apply Forall_app. split; [assumption|].
    eapply Forall_impl; [|exact Hnew]. now intros c [_ Hc].
Qed.

Lemma search_inv_commit self0 log0 st cs v md v' :
  NoDup (_acc_list self0) ->
  StronglySorted (fun x y => (y <= x)%Q) (_vdd_list self0) ->
  search_inv self0 log0 st cs v ->
  (length cs < length (_acc_list self0))%nat ->
  (v <= v' < length (_vdd_list self0))%nat ->
  search_inv self0 log0
    (mkState
       (set_scen_table (obj st)
          (Dict.set (nth (length cs) (_acc_list (obj st)) 0)
                    (Some (probe_scenario (obj st) (length cs) md v'))
                    (_scen_table (obj st))))
       (dc_log st) (fs_log st))
    (cs ++ [probe_scenario (obj st) (length cs) md v']) v'.
Proof.
  intros Hnd Hvs (Hobj & Hlen & Hv & Hacc & Hvdd & Hsort
                  & c_nom & others & Hlog & Hnom & Htwo & Hcum) Hlt Hv'.
  set (s := probe_scenario (obj st) (length cs) md v').
  assert (Es_acc : accuracy s = nth (length cs) (_acc_list self0) 0).
  { unfold s. rewrite Hobj. reflexivity. }
  assert (Es_vdd : vdd s = nth v' (_vdd_list self0) 0%Q).
  { unfold s. rewrite Hobj. reflexivity. }
  split.
  { cbn [obj]. rewrite Hobj at 1 2 3.
    cbn [_acc_list _scen_table set_scen_table].
    rewrite set_scen_table_of by assumption. reflexivity. }
  rewrite length_app. cbn [length]. rewrite Nat.add_1_r.
  split; [lia|]. split; [lia|].
  split.
  { rewrite (firstn_S_nth _ _ 0) by lia.
    apply Forall2_app; [assumption|]. constructor; [|constructor].
    exact Es_acc. }
  split.
  { apply Forall_app. split.
    - eapply Forall_impl; [|exact Hvdd].
      intros x (u & Hu & Ex). exists u. split; [lia | assumption].
    - constructor; [|constructor]. exists v'. split; [lia | exact Es_vdd]. }
  split.
  { apply sorted_snoc; [assumption|].
    eapply Forall_impl; [|exact Hvdd].
    intros x (u & Hu & Ex). cbv beta. rewrite Ex, Es_vdd.
    destruct (Nat.eq_dec u v') as [->|Hne]; [apply Qle_refl|].
    apply (sorted_nth _ _ 0%Q Hvs). lia. }
  exists c_nom, others. cbn [dc_log].
  repeat (split; [assumption|]).
  eapply Forall_impl; [|exact Hcum].
  intros c. apply cumulative_snoc.
Qed.

Lemma p_best_scenario self base i md v b0 k :
  Reconf.b_scenario b0 = probe_scenario self i md v ->
  Reconf.b_vdd_id b0 = v ->
  let b := p_best self base i md v b0 k in
  Reconf.b_scenario b = probe_scenario self i md (Reconf.b_vdd_id b) /\
  (v <= Reconf.b_vdd_id b <= v + k)%nat.
Proof.
  intros Hs Hv. destruct k as [|j]; cbn.
  - rewrite Hs, Hv. split; [reflexivity | lia].
  - split; [reflexivity | lia].
Qed.

Lemma descend_inv self0 log0 :
  NoDup (_acc_list self0) ->
  StronglySorted (fun x y => (y <= x)%Q) (_vdd_list self0) ->
  forall rest cs v cp st,
    rest = seq (length cs) (length (_acc_list self0) - length cs) ->
    search_inv self0 log0 st cs v ->
    exists cs' v',
      search_inv self0 log0 (snd (descend rest v cp st)) cs' v'.
Proof.
  intros Hnd Hvs rest.
  induction rest as [|i rest IH]; intros cs v cp st Hrest Hinv.
  - exists cs, v. exact Hinv.
  - assert (Hlt : (length cs < length (_acc_list self0))%nat).
    { destruct (length (_acc_list self0) - length cs)%nat eqn:E;
        [discriminate | lia]. }
    assert (Hi : i = length cs /\
                 rest = seq (S (length cs))
                            (length (_acc_list self0) - S (length cs))).
    { replace (length (_acc_list self0) - length cs)%nat
        with (S (length (_acc_list self0) - S (length cs))) in Hrest by lia.
      cbn [seq] in Hrest. now injection Hrest as -> ->. }
    destruct Hi as [-> Hrest'].
    pose proof Hinv as (Hobj & Hlen & Hv & _).
    rewrite descend_step.
    destruct (Reconf._create_mode _ _) as [|md]; [exists cs, v; exact Hinv|].
    destruct (index (_acc_list _) _); [exists cs, v; exact Hinv|].
    destruct (index (_vdd_list _) _); [exists cs, v; exact Hinv|].
    destruct (index (_clock_multipliers _) _); [exists cs, v; exact Hinv|].
    cbv zeta.
    assert (Htrial : forall vid,
               let c := dc_invocation (obj st)
                          (Some (probe_scenario (obj st) (length cs) md vid)) in
               (2 <= length (dc_scenarios c))%nat /\
               cumulative (_acc_list self0) cs c).
    { intros vid. rewrite Hobj. apply trial_cumulative. lia. }
    set (c0 := dc_invocation (obj st)
                 (Some (probe_scenario (obj st) (length cs) md v))).
    destruct (negb _).
    + exists cs, v. cbn [snd].
      apply search_inv_add_calls; [assumption|].
      constructor; [apply Htrial | constructor].
    + set (b0 := Reconf.mkBest _ _ _ _).
      set (m := (length (_vdd_list (obj st)) - (v + 1))%nat).
      set (base := S (length (dc_log st))).
      set (k := accepted_steps _ 0 m).
      assert (Hk : (k <= m)%nat).
      { apply (accepted_steps_spec _ m 0). }
      destruct (p_best_scenario (obj st) base (length cs) md v b0 k
                  eq_refl eq_refl) as [Hbs Hbv].
      set (b := p_best (obj st) base (length cs) md v b0 k) in *.
      assert (Hvdd_len : length (_vdd_list (obj st))
                         = length (_vdd_list self0))
        by (rewrite Hobj; reflexivity).
      assert (Hacc_list : _acc_list (obj st) = _acc_list self0)
        by (rewrite Hobj; reflexivity).
      set (calls := c0 :: map (p_call (obj st) (length cs) md v)
                              (seq 0 (Nat.min (S k) m))).
      assert (Hcalls :
                Forall (fun c => (2 <= length (dc_scenarios c))%nat /\
                                 cumulative (_acc_list self0) cs c) calls).
      { constructor; [apply Htrial|].
        apply Forall_map, Forall_forall. intros j _. apply Htrial. }
      pose proof (search_inv_add_calls _ _ _ _ _ _ Hinv Hcalls) as Hinv1.
      assert (Hb : (v <= Reconf.b_vdd_id b < length (_vdd_list self0))%nat).
      { unfold m in Hk. rewrite Hvdd_len in Hk. lia. }
      pose proof (search_inv_commit _ _ _ _ _ md _ Hnd Hvs Hinv1 Hlt Hb)
        as Hinv2.
      cbn [obj dc_log fs_log] in Hinv2.
      rewrite <- Hbs in Hinv2.
      eapply IH; [|exact Hinv2].
      rewrite length_app. cbn [length]. rewrite Nat.add_1_r.
      exact Hrest'.
Qed.

Lemma search_inv_outcome self0 log0 st cs v :
  search_inv self0 log0 st cs v ->
  _acc_list (obj st) = _acc_list self0 /\
  exists calls,
    dc_log st = (log0 ++ calls)%list /\ calls <> [] /\
    search_outcome st calls.
Proof.
  intros (Hobj & Hlen & Hv & Hacc & Hvdd & Hsort
          & c_nom & others & Hlog & Hnom & Htwo & Hcum).
  assert (Ecs : Reconf.accepted (obj st) = cs).
  { rewrite Hobj. apply accepted_scen_table_of. lia. }
  assert (Eacc : _acc_list (obj st) = _acc_list self0)
    by (rewrite Hobj; reflexivity).
  split; [assumption|].
  exists (c_nom :: others). split; [assumption|]. split; [discriminate|].
  unfold search_outcome. rewrite Ecs, Eacc.
  repeat (split; [assumption|]).
  split; [|assumption]. exists c_nom, others. auto.
Qed.

Lemma search_outcome_same st st' calls :
  same_search st st' -> search_outcome st calls -> search_outcome st' calls.
Proof.
  intros (_ & Ht & Ha). unfold search_outcome, Reconf.accepted.
  now rewrite Ht, Ha.
Qed.

Lemma finalize_same_search output_dir output_table cp :
  preserves same_search (Reconf.finalize output_dir output_table cp).
Proof.
  intros st. unfold Reconf.finalize, Reconf._save_netlist.
  unfold mbind, get_self, lift, put_self, fs_do, mret, mraise, ret, raise.
  cbn [obj dc_log fs_log].
  destruct cp as [p|]; [|repeat split].
  match goal with
  | |- context [match mapM ?f ?l with _ => _ end] =>
      destruct (mapM f l)
  end; [repeat split|].
  destruct output_table as [path|].
  - destruct (Reconf.table_rows _ _) as [rows [e|]]; repeat split.
  - repeat split.
Qed.

Lemma sorted_strict (l : list Z) :
  NoDup l -> StronglySorted (fun a b => b <= a) l ->
  StronglySorted (fun a b => b < a) l.
Proof.
  intros Hnd Hs. induction Hs as [|a l Hs IH Ha]; constructor.
  - inversion Hnd. auto.
  - inversion Hnd as [|a' l' Hin Hnd']; subst.
    rewrite Forall_forall in *. intros b Hb.
    specialize (Ha b Hb).
    assert (b <> a) by (intros ->; contradiction). lia.
Qed.

Lemma nominal_establishes_inv st2 nom accs :
  NoDup accs ->
  _acc_list (obj st2) = accs ->
  _scen_table (obj st2) = scen_table_of accs [] ->
  index accs 0 = inr (accuracy nom) ->
  index (_vdd_list (obj st2)) 0 = inr (vdd nom) ->
  search_inv (obj st2) (dc_log st2)
    (mkState (set_scen_table (obj st2)
                (Dict.set (accuracy nom) (Some nom) (_scen_table (obj st2))))
             (dc_log st2 ++ [dc_invocation (obj st2) (Some nom)])
             (fs_log st2))
    [nom] 0.
Proof.
  intros Hnd Hacc Htab Ha Hv.
  apply index_inv in Ha, Hv. destruct Ha as [Ha Ea], Hv as [Hv Ev].
  assert (Eacc0 : Reconf.accepted (obj st2) = []).
  { replace (obj st2)
      with (set_scen_table (obj st2) (scen_table_of accs []))
      by (rewrite <- Htab; now destruct (obj st2)).
    apply accepted_scen_table_of. simpl. lia. }
  split.
  { cbn [obj]. f_equal. rewrite Htab, Hacc, <- (Ea 0).
    apply (set_scen_table_of accs [] nom Hnd). simpl. lia. }
  rewrite Hacc. cbn [length].
  split; [lia|]. split; [assumption|].
  split.
  { destruct accs as [|a accs']; [simpl in Ha; lia|].
    cbn [firstn]. constructor; [|constructor].
    now rewrite <- (Ea 0). }
  split.
  { constructor; [|constructor]. exists 0%nat.
    split; [lia | now rewrite (Ev 0%Q)]. }
  split; [repeat constructor|].
  exists (dc_invocation (obj st2) (Some nom)), [].
  cbn [dc_log]. split; [reflexivity|].
  rewrite dc_scenarios_invocation, Eacc0.
  split; [reflexivity|]. split; [constructor|].
  constructor; [|constructor].
  exists [], nom. rewrite dc_scenarios_invocation, Eacc0.
  split; [reflexivity|]. split; [now exists [nom]|].
  cbn [length]. apply nth_error_nth' with (d := 0) in Ha.
  now rewrite Ha, (Ea 0).
Qed.

(** *** Weights when the file lists the precisions in descending order *)

Lemma sort_desc_sorted_id {A} (geb : A -> A -> bool) (l : list A) :
  StronglySorted (fun x y => geb x y = true) l -> sort_desc geb l = l.
Proof.
  intros Hs. induction Hs as [|x l Hs IH Hx]; simpl; [reflexivity|].
  rewrite IH. destruct l as [|y l]; [reflexivity|].
  simpl. inversion Hx as [|y' l' Hxy _]; subst. now rewrite Hxy.
Qed.

Lemma sorted_seq (R : nat -> nat -> Prop) (n : nat) :
  forall a,
    (forall i j, (a <= i < j)%nat -> (j < a + n)%nat -> R i j) ->
    StronglySorted R (seq a n).
Proof.
  induction n as [|n IH]; intros a HR; simpl; constructor.
  - apply IH. intros i j Hij Hj. apply HR; lia.
  - apply Forall_forall. intros j Hj. apply in_seq in Hj. apply HR; lia.
Qed.

Lemma sorted_precisions_id (l : list Z) :
  StronglySorted (fun a b => b <= a) l -> sorted_precisions l = l.
Proof.
  intros Hs. unfold sorted_precisions, range. rewrite Nat.sub_0_r.
  rewrite sort_desc_sorted_id; [apply map_nth_seq|].
  apply sorted_seq. intros i j Hij Hj. apply Z.leb_le.
  apply (sorted_nth _ _ 0 Hs). lia.
Qed.

Lemma configured_weight_nth (config : ConfigFile) (ws : list Q) :
  cf_weights config = Some ws ->
  NoDup (cf_precision config) ->
  forall j a w,
    nth_error (cf_precision config) j = Some a ->
    nth_error ws j = Some w ->
    configured_weight config a = w.
Proof.
  intros Hw Hnd j a w Ha Hwj. unfold configured_weight. rewrite Hw.
  clear Hw. revert ws j Ha Hwj.
  induction Hnd as [|a0 accs Hin Hnd IH]; intros ws j Ha Hwj.
  - destruct j; discriminate.
  - destruct ws as [|w0 ws]; [destruct j; discriminate|].
    destruct j as [|j]; simpl in Ha, Hwj.
    + injection Ha as ->. injection Hwj as ->.
      simpl. now rewrite Z.eqb_refl.
    + simpl. destruct (Z.eqb_spec a0 a) as [->|Hne].
      * exfalso. apply Hin. eapply nth_error_In; eauto.
      * eapply IH; eauto.
Qed.

Lemma products_by_precision (cw : Z -> Q) :
  forall (power : list Q) (accs : list Z) (ws : list Q),
    length ws = length accs ->
    (forall j a w, nth_error accs j = Some a -> nth_error ws j = Some w ->
                   cw a = w) ->
    map (fun '(i, j) => (i * j)%Q) (combine power ws)
    = map (fun pa => (fst pa * cw (snd pa))%Q) (combine power accs).
Proof.
  induction power as [|p power IH]; intros accs ws Hlen Hcw;
    [reflexivity|].
  destruct accs as [|a accs], ws as [|w ws]; try discriminate;
    [reflexivity|].
  simpl. rewrite (Hcw 0%nat a w eq_refl eq_refl). f_equal.
  apply IH; [simpl in Hlen; lia|].
  intros j a' w' Ha Hw. apply (Hcw (S j)); assumption.
Qed.

Lemma read_config_weights (self self' : ReconfSynthesis) (config : ConfigFile) :
  Reconf.read_config self config = inr self' ->
  length (_weights self') = length (cf_precision config) /\
  match cf_weights config with
  | Some ws => _weights self' = ws
  | None => _weights self' = repeat 1%Q (length (cf_precision config))
  end.
Proof.
  unfold Reconf.read_config, rbind, ret, raise.
  destruct (Circuit.init _ _ _); [discriminate|].
  destruct (match cf_mode_inputs config with Some _ => _ | None => _ end)
    as [|[mi mv]]; [discriminate|].
  destruct (cf_weights config) as [ws|].
  - destruct (Nat.eqb_spec (length ws) (length (cf_precision config)));
      simpl; [|discriminate].
    intros [= <-]. simpl. auto.
  - intros [= <-]. simpl. now rewrite repeat_length.
Qed.

(** The part of C4 that holds beyond positions: when the file lists
    distinct precisions in descending order, each power is weighed with
    the weight configured for its precision. *)
Lemma weighted_total_by_precision
    (self self' : ReconfSynthesis) (config : ConfigFile) (power : list Q) :
  Reconf.read_config self config = inr self' ->
  NoDup (cf_precision config) ->
  StronglySorted (fun a b => b <= a) (cf_precision config) ->
  Reconf._weighted_total_power self' power
  = total_by_precision config (sorted_precisions (cf_precision config)) power.
Proof.
  intros Hread Hnd Hs. rewrite (sorted_precisions_id _ Hs).
  destruct (read_config_weights _ _ _ Hread) as [Hlen Hw].
  unfold Reconf._weighted_total_power, total_by_precision.
  rewrite firstn_combine_weights. f_equal.
  apply products_by_precision; [assumption|].
  intros j a w Ha Hwj.
  destruct (cf_weights config) as [ws|] eqn:Ew.
  - rewrite Hw in Hwj. eapply configured_weight_nth; eauto.
  - rewrite Hw in Hwj. unfold configured_weight. rewrite Ew.
    apply nth_error_In, repeat_spec in Hwj. now subst.
Qed.

(** C3 (as the code has it): when [run] completes, the power table it
    reports, writes and returns is built, precision by precision, from
    one power vector [p], the precisions being in descending order; for
    distinct precisions, [p] is the vector the tool gave to the last
    invocation that was accepted (the last invocation of the run, or the
    one before it when the last was a probe that was rejected), the log
    of the run determines it, and the table holds its first entries in
    the order of the precisions. *)
Theorem power_table_from_last_accepted_call
    output_dir output_table st tbl st' :
  run output_dir output_table st = (inr tbl, st') ->
  exists p,
    _acc_list (obj st') = sorted_precisions (_acc_list (obj st)) /\
    StronglySorted (fun a b => b <= a) (_acc_list (obj st')) /\
    _power_table (obj st')
    = Dict.of_list (combine (_acc_list (obj st')) (map Some p)) /\
    Forall2 (table_row (obj st')) (_acc_list (obj st')) tbl /\
    (exists path rows evs1 evs2,
        output_table = Some path /\
        fs_log st' = (fs_log st ++ evs1 ++ WriteTable path rows :: evs2)%list /\
        map fst rows = combine (_acc_list (obj st')) (map fst tbl)) /\
    (NoDup (_acc_list (obj st')) ->
     last_accepted backend (obj st') (length (dc_log st)) (dc_log st') p /\
     (forall q,
         last_accepted backend (obj st') (length (dc_log st)) (dc_log st') q ->
         q = p) /\
     map fst tbl = map Some (firstn (length (_acc_list (obj st'))) p)).
Proof.
  intros Hrun.
  destruct (run_ok _ _ _ _ _ Hrun)
    as (st1 & st2 & st3 & st4 & cp & E1 & E2 & E3 & E4 & E5).
  destruct output_table as [path|];
    [|rewrite init_dirs_None in E1; discriminate].
  pose proof (init_dirs_dirs_only output_dir (Some path) st) as H1.
  rewrite E1 in H1. cbn [snd] in H1.
  destruct H1 as (Ho1 & Hd1 & evs1 & Hf1 & _).
  pose proof (sort_inputs_same_logs st1) as H2.
  rewrite E2 in H2. cbn [snd] in H2. destruct H2 as [Hd2 Hf2].
  assert (Hacc2 : _acc_list (obj st2)
                  = sorted_precisions (_acc_list (obj st))).
  { apply sort_inputs_ok in E2. destruct E2 as [mv ->].
    cbn [obj _acc_list]. now rewrite Ho1. }
  assert (H3 : exists c_nom,
             dc_log st3 = (dc_log st2 ++ [c_nom])%list /\
             tried c_nom = Some (nth 0 (_acc_list (obj st3)) 0) /\
             fs_log st3 = fs_log st2 /\
             _acc_list (obj st3) = _acc_list (obj st2)).
  { destruct (nominal_cases st2) as [[e Hn]|(nom & Ha & _ & _ & _ & Hn)].
    - rewrite Hn in E3. discriminate.
    - cbv zeta in Hn. destruct Hn as [[_ Hn]|[_ Hn]]; rewrite Hn in E3;
        [discriminate|].
      injection E3 as <-. cbn [dc_log fs_log obj].
      exists (dc_invocation (obj st2) (Some nom)).
      split; [reflexivity|]. split; [|split; reflexivity].
      apply index_inv in Ha. destruct Ha as [_ Ha].
      rewrite tried_invocation. cbn [_acc_list set_scen_table].
      now rewrite (Ha 0). }
  destruct H3 as (c_nom & Hd3 & Htr3 & Hf3 & Hacc3).
  pose proof (descend_calls_only
                (range 1 (length (_acc_list (obj st3)))) 0 None st3) as H4.
  rewrite E4 in H4. cbn [snd] in H4. destruct H4 as (Ho4 & Hf4 & _).
  destruct (finalize_ok _ _ _ _ _ _ E5)
    as (p & -> & Ho5 & Hd5 & Ht5 & Hrows).
  assert (Hacc : _acc_list (obj st') = _acc_list (obj st4))
    by (rewrite Ho5; reflexivity).
  assert (Hacc4 : _acc_list (obj st4) = _acc_list (obj st3))
    by (rewrite Ho4; reflexivity).
  exists p.
  split; [congruence|].
  split; [rewrite Hacc, Hacc4, Hacc3, Hacc2; apply sorted_precisions_sorted|].
  split; [rewrite Ho5; reflexivity|].
  split; [now rewrite Hacc|].
  split.
  { destruct (Hrows path eq_refl) as (rows & evs2 & Hf5 & Hr).
    exists path, rows, evs1, evs2. split; [reflexivity|]. split.
    - rewrite Hf5, Hf4, Hf3, Hf2, Hf1, <- app_assoc. reflexivity.
    - now rewrite Hacc. }
  intros Hnd.
  assert (Hlast : last_accepted backend (obj st') (length (dc_log st))
                                (dc_log st') p).
  { assert (Hnd3 : NoDup (_acc_list (obj st3)))
      by now rewrite <- Hacc4, <- Hacc.
    unfold range in E4.
    destruct (descend_power _ _ _ _ _ _ _ _ _ _
                Hnd3 Nat.lt_0_1 Hd3 Htr3 E4)
      as [(_ & [=] & _)|(p' & [= <-] & Hans)].
    rewrite Hd5, <- Hd1, <- Hd2.
    apply (last_accepted_same_weights (obj st4)); [|assumption].
    rewrite Ho5. reflexivity. }
  split; [assumption|].
  split.
  { intros q Hq. exact (last_accepted_unique _ _ _ _ _ _ Hq Hlast). }
  rewrite <- firstn_map.
  apply powers_of_table; [assumption|].
  rewrite Hacc in *.
  eapply Forall2_impl; [|exact Ht5].
  intros a row [Hp _]. rewrite Ho5 in Hp. cbn [_power_table] in Hp.
  unfold set_power_table in Hp. cbn [_power_table] in Hp.
  now rewrite of_list_combine in Hp.
Qed.


End RunFacts.

(** ** The theorems at work on concrete runs *)

(** The descent of the claim: the totals go 10, 8, 9, 5.  The voltage
    committed is number 1 (total 8), reached before the first increase;
    voltage number 3, whose total 5 is the lowest, is never probed. *)
Lemma voltage_descent_single_pass_witness :
  let trial := probe_scenario dip_self 1 None 0 in
  let c0 := Reconf.dc_invocation stub_float_repr dip_self (Some trial) in
  let b0 := Reconf.mkBest [5%Q; 5%Q] 10%Q trial 0 in
  let b := probe_best stub_float_repr dip_stub dip_self 1 1 None 0 b0 1 in
  Reconf.descend stub_float_repr dip_stub [1%nat] 0 None dip_state
  = (inr (Some (Reconf.b_power b)),
     mkState
       (set_scen_table dip_self
          (Dict.set 4 (Some (Reconf.b_scenario b)) (_scen_table dip_self)))
       ([] ++ c0 :: map (probe_call stub_float_repr dip_self 1 None 0)
                        [0; 1]%nat)
       []) /\
  b = Reconf.mkBest [4%Q; 4%Q] 8%Q (mkAxScenario 4 (9 # 10)%Q None None) 1 /\
  probe_total stub_float_repr dip_stub dip_self 1 1 None 0 1 = 9%Q /\
  probe_response stub_float_repr dip_stub dip_self 1 1 None 0 2
  = ([2%Q; 3%Q], true) /\
  probe_total stub_float_repr dip_stub dip_self 1 1 None 0 2 = 5%Q.
Proof.
  intros trial c0 b0 b. split.
  - apply (voltage_descent_single_pass stub_float_repr dip_stub dip_state
             1 [] 0 None None 1).
    + reflexivity.
    + simpl. lia.
    + simpl. lia.
    + simpl. lia.
    + reflexivity.
    + simpl. lia.
    + intros i Hi. assert (i = 0%nat) by lia. subst i. reflexivity.
    + intros _. reflexivity.
  - repeat split.
Defined.

Lemma nominal_failure_aborts_run_witness :
  exists e st' evs,
    Reconf.run stub_float_repr failing_stub stub_dirname stub_writable
               stub_exists "out" (Some "table.txt") (mkState example_self [] [])
    = (inl e, st') /\
    fs_log st' = ([] ++ evs)%list /\
    forallb is_dir_event evs = true /\
    (dc_log st' = [] \/
     exists c, dc_log st' = ([] ++ [c])%list /\
               e = TimingException
                     "Cannot close timing on nominal condition synthesis").
Proof.
  apply (nominal_failure_aborts_run stub_float_repr failing_stub stub_dirname
           stub_writable stub_exists "out" (Some "table.txt")
           (mkState example_self [] [])).
  intros c. reflexivity.
Defined.

(** In that run the tool is invoked once and the exception is the timing
    one. *)
Example nominal_failure_run :
  let r := Reconf.run stub_float_repr failing_stub stub_dirname stub_writable
                      stub_exists "out" (Some "table.txt")
                      (mkState example_self [] []) in
  fst r = inl (TimingException
                 "Cannot close timing on nominal condition synthesis") /\
  map dc_scenarios (dc_log (snd r)) = [[mkAxScenario 8 1%Q None None]] /\
  fs_log (snd r) = [MakeDirs "log"; MakeDirs "work_reconf"; MakeDirs "out"].
Proof. vm_compute. repeat split. Qed.

Lemma single_precision_never_returns_witness :
  exists e st' evs,
    Reconf.run stub_float_repr compliant_stub stub_dirname stub_writable
               stub_exists "out" (Some "table.txt") (mkState one_self [] [])
    = (inl e, st') /\
    fs_log st' = ([] ++ evs)%list /\
    forallb is_dir_event evs = true /\
    (dc_log st' = [] \/
     exists c, dc_log st' = ([] ++ [c])%list /\
               length (dc_scenarios c) = 1%nat /\
               (snd (compliant_stub 0 c) = true ->
                e = UnboundLocalError "curr_power")).
Proof.
  apply (single_precision_never_returns stub_float_repr compliant_stub
           stub_dirname stub_writable stub_exists "out" (Some "table.txt")
           (mkState one_self [] [])).
  reflexivity.
Defined.

Example single_precision_run :
  fst (Reconf.run stub_float_repr compliant_stub stub_dirname stub_writable
                  stub_exists "out" (Some "table.txt")
                  (mkState one_self [] []))
  = inl (UnboundLocalError "curr_power").
Proof. vm_compute. reflexivity. Qed.

Lemma example_precisions_distinct : NoDup [8; 4; 2].
Proof.
  repeat constructor; simpl; intuition discriminate.
Defined.


(** The run of the stub that is always compliant: the voltages accepted for
    8, 4 and 2 are 1.0, 0.8 and 0.8, and the five invocations carry one,
    two, two, two and three scenarios. *)
Example compliant_stub_run :
  let r := Reconf.run stub_float_repr compliant_stub stub_dirname
                      stub_writable stub_exists "out" (Some "table.txt")
                      (mkState example_self [] []) in
  fst r = inr [(Some (1 # 2)%Q, Some (mkAxScenario 8 1%Q None None));
               (Some (1 # 2)%Q, Some (mkAxScenario 4 (8 # 10)%Q None None));
               (Some (1 # 2)%Q, Some (mkAxScenario 2 (8 # 10)%Q None None))] /\
  map (fun c => length (dc_scenarios c)) (dc_log (snd r))
  = [1; 2; 2; 2; 3]%nat.
Proof. vm_compute. repeat split. Qed.

Lemma two_precisions_distinct : NoDup [8; 4].
Proof.
  repeat constructor; simpl; intuition discriminate.
Defined.

Lemma power_table_from_last_accepted_call_witness :
  exists tbl st' p,
    Reconf.run stub_float_repr rising_stub stub_dirname stub_writable
               stub_exists "out" (Some "table.txt") (mkState two_self [] [])
    = (inr tbl, st') /\
    _power_table (obj st')
    = Dict.of_list (combine (_acc_list (obj st')) (map Some p)) /\
    last_accepted rising_stub (obj st') 0 (dc_log st') p /\
    map fst tbl = map Some (firstn (length (_acc_list (obj st'))) p).
Proof.
  destruct (Reconf.run stub_float_repr rising_stub stub_dirname stub_writable
              stub_exists "out" (Some "table.txt") (mkState two_self [] []))
    as [[e|tbl] st'] eqn:E.
  - exfalso. vm_compute in E. discriminate E.
  - destruct (power_table_from_last_accepted_call _ _ _ _ _ _ _ _ _ _ E)
      as (p & _ & _ & Hpt & _ & _ & Hnd).
    assert (Hacc : _acc_list (obj st') = [8; 4]).
    { pose proof E as E'. vm_compute in E'. injection E' as _ <-.
      reflexivity. }
    assert (Hd : NoDup (_acc_list (obj st')))
      by (rewrite Hacc; exact two_precisions_distinct).
    destruct (Hnd Hd) as (Hlast & _ & Htbl).
    exists tbl, st', p. split; [reflexivity|]. repeat split; assumption.
Defined.

(** C3 as stated fails, for distinct precisions too: in this run the last
    invocation is a probe that is rejected (its power vector is [5, 5]);
    the table returned holds the powers [1, 1] of the invocation before
    it. *)
Lemma power_table_from_last_call_counterexample :
  ~ (forall backend st tbl st' pre c,
        NoDup (_acc_list (obj st)) ->
        Reconf.run stub_float_repr backend stub_dirname stub_writable
                   stub_exists "out" (Some "table.txt") st = (inr tbl, st') ->
        dc_log st' = (pre ++ [c])%list ->
        map fst tbl
        = map Some (firstn (length (_acc_list (obj st')))
                           (fst (backend (length pre) c)))).
Proof.
  intros Hall.
  destruct (Reconf.run stub_float_repr rising_stub stub_dirname stub_writable
              stub_exists "out" (Some "table.txt") (mkState two_self [] []))
    as [[e|tbl] st'] eqn:E.
  - vm_compute in E. discriminate E.
  - specialize (Hall rising_stub (mkState two_self [] []) _ _
                     (removelast (dc_log st')) (last (dc_log st') no_call)
                     two_precisions_distinct E).
    vm_compute in E. injection E as <- <-.
    specialize (Hall eq_refl). vm_compute in Hall. discriminate Hall.
Qed.

(** That run: three invocations, answered [1], [1, 1] and [5, 5]; the
    table holds 1 and 1; the vector accepted last is [1, 1], and not the
    [5, 5] of the last invocation. *)
Example rising_stub_run :
  let r := Reconf.run stub_float_repr rising_stub stub_dirname stub_writable
                      stub_exists "out" (Some "table.txt")
                      (mkState two_self [] []) in
  fst r = inr [(Some 1%Q, Some (mkAxScenario 8 1%Q None None));
               (Some 1%Q, Some (mkAxScenario 4 1%Q None None))] /\
  map (fun k => fst (rising_stub k (nth k (dc_log (snd r)) no_call)))
      (seq 0 (length (dc_log (snd r))))
  = [[1%Q]; [1%Q; 1%Q]; [5%Q; 5%Q]] /\
  last_accepted rising_stub (obj (snd r)) 0 (dc_log (snd r)) [1%Q; 1%Q] /\
  ~ last_accepted rising_stub (obj (snd r)) 0 (dc_log (snd r)) [5%Q; 5%Q].
Proof.
  intros r.
  assert (Hlast : last_accepted rising_stub (obj (snd r)) 0
                                (dc_log (snd r)) [1%Q; 1%Q]).
  { exists [], (nth 0 (dc_log (snd r)) no_call),
           (nth 1 (dc_log (snd r)) no_call),
           [nth 2 (dc_log (snd r)) no_call].
    split; [vm_compute; reflexivity|].
    split; [apply Nat.le_refl|].
    split; [reflexivity|].
    split; [vm_compute; reflexivity|].
    right. eexists. split; [reflexivity|]. vm_compute. reflexivity. }
  split; [vm_compute; reflexivity|].
  split; [vm_compute; reflexivity|].
  split; [exact Hlast|].
  intros H.
  pose proof (last_accepted_unique _ _ _ _ _ _ _ H Hlast) as E.
  discriminate E.
Qed.

(* ====================================================================== *)
(** * Further properties *)

(** ** Text *)

Lemma split_from_word (w : string) :
  forall word rest,
    Text.no_space w = true ->
    Text.split_from word (w ++ rest) = Text.split_from (word ++ w) rest.
Proof.
  induction w as [|c w IH]; intros word rest Hw; simpl.
  - now rewrite append_nil_r.
  - simpl in Hw. apply andb_true_iff in Hw. destruct Hw as [Hc Hw].
    apply negb_true_iff in Hc. rewrite Hc.
    rewrite IH by assumption. now rewrite append_assoc.
Qed.

Lemma is_word_inv (w : string) :
  Text.is_word w = true -> w <> "" /\ Text.no_space w = true.
Proof.
  unfold Text.is_word. intros H. apply andb_true_iff in H.
  destruct H as [H1 H2]. split; [|assumption].
  intros ->. discriminate.
Qed.

Lemma split_from_end (word : string) :
  word <> "" -> Text.split_from word "" = [word].
Proof. destruct word; [congruence|reflexivity]. Qed.

Lemma split_from_space (word : string) (c : ascii) (rest : string) :
  word <> "" -> Text.is_space c = true ->
  Text.split_from word (String c rest) = word :: Text.split_from "" rest.
Proof.
  intros Hw Hc. simpl. rewrite Hc. destruct word; [congruence|reflexivity].
Qed.

Lemma split_from_blank (s : string) :
  Text.blank s = true -> Text.split_from "" s = [].
Proof.
  induction s as [|c s IH]; simpl; [reflexivity|].
  intros H. apply andb_true_iff in H. destruct H as [-> H]. auto.
Qed.

(** Words joined by single spaces, with any blank text after them, split
    into the same words. *)
Lemma split_join (ws : list string) (tail : string) :
  Forall (fun w => Text.is_word w = true) ws ->
  Text.blank tail = true ->
  Text.split (String.concat " " ws ++ tail) = ws.
Proof.
  unfold Text.split. intros Hws Ht.
  induction Hws as [|w ws Hw Hws IH]; simpl.
  - now apply split_from_blank.
  - apply is_word_inv in Hw. destruct Hw as [Hne Hns].
    destruct ws as [|w' ws'].
    + rewrite split_from_word by assumption. simpl.
      destruct tail as [|c tail]; [now apply split_from_end|].
      simpl in Ht. apply andb_true_iff in Ht. destruct Ht as [Hc Ht].
      rewrite split_from_space by assumption.
      now rewrite split_from_blank.
    + rewrite append_assoc, split_from_word by assumption.
      cbn [append].
      rewrite split_from_space by (assumption || reflexivity).
      f_equal. exact IH.
Qed.

Lemma split_from_nonempty (s : string) :
  forall word, word <> "" -> Text.split_from word s <> [].
Proof.
  induction s as [|c s IH]; intros word Hw; simpl.
  - destruct word; [congruence|discriminate].
  - destruct (Text.is_space c).
    + destruct word; [congruence|discriminate].
    + apply IH. destruct word; discriminate.
Qed.

Lemma split_nil_blank (s : string) :
  Text.split s = [] <-> Text.blank s = true.
Proof.
  unfold Text.split. split; [|apply split_from_blank].
  induction s as [|c s IH]; simpl; [reflexivity|].
  destruct (Text.is_space c); simpl; [exact IH|].
  intros H. exfalso. revert H. now apply split_from_nonempty.
Qed.

(** ** [_parse_data] *)

Section ParseFacts.
Variable float_of_str : string -> option Q.

Lemma floats_length (ws : list string) (xs : list Q) :
  floats float_of_str ws = Some xs -> length xs = length ws.
Proof.
  revert xs. induction ws as [|w ws IH]; simpl; intros xs.
  - now intros [= <-].
  - destruct (float_of_str w); [|discriminate].
    destruct (floats float_of_str ws) as [xs'|]; [|discriminate].
    intros [= <-]. simpl. f_equal. now apply IH.
Qed.

Lemma removelast_length {A} (l : list A) :
  l <> [] -> S (length (removelast l)) = length l.
Proof.
  intros H. destruct (exists_last H) as (l' & a & ->).
  rewrite removelast_last, length_app. simpl. lia.
Qed.

(** X1: what a successful [_parse_data] returns.  Only the first line is
    read; there is one power per word but the last, and the flag is set
    exactly when the last word denotes the integer 1. *)
Theorem parse_data_result (lines : list string) (power : list Q) (ok : bool) :
  _parse_data float_of_str lines = inr (power, ok) ->
  exists l rest,
    lines = l :: rest /\
    floats float_of_str (removelast (Text.split l)) = Some power /\
    S (length power) = length (Text.split l) /\
    (ok = true <-> Text.int_of_str (last (Text.split l) "") = Some 1).
Proof.
  unfold _parse_data. destruct lines as [|l rest]; [discriminate|].
  cbv zeta.
  destruct (floats _ _) as [p|] eqn:Ep; [|discriminate].
  destruct (Text.split l) as [|w0 ws] eqn:Ew; [discriminate|].
  destruct (Text.int_of_str _) as [flag|] eqn:Ei; [|discriminate].
  intros [= <- <-]. exists l, rest. split; [reflexivity|].
  rewrite Ew. split; [assumption|]. split.
  - rewrite (floats_length _ _ Ep). now apply removelast_length.
  - rewrite Ei. split.
    + intros H. apply Z.eqb_eq in H. now subst.
    + intros [= ->]. reflexivity.
Qed.

(** X2: [_parse_data] raises [IndexError] exactly when the file has no
    line or its first line is blank. *)
Theorem parse_data_index_error (lines : list string) :
  _parse_data float_of_str lines = inl Text.IndexError <->
  lines = [] \/ exists l rest, lines = l :: rest /\ Text.blank l = true.
Proof.
  unfold _parse_data. destruct lines as [|l rest].
  - split; [now left|reflexivity].
  - cbv zeta. pose proof (split_nil_blank l) as Hb.
    destruct (Text.split l) as [|w0 ws] eqn:Ew.
    + simpl. split; [|reflexivity].
      intros _. right. exists l, rest. split; [reflexivity|].
      now apply Hb.
    + split.
      * destruct (floats _ _); [|discriminate].
        destruct (Text.int_of_str _); discriminate.
      * intros [|(l' & rest' & [= <- <-] & H)]; [discriminate|].
        apply Hb in H. discriminate.
Qed.

(** X3: the line the tool writes, read back.  Powers and a flag, joined by
    single spaces and ended by a line feed, give the values of the power
    words and the flag; lines after the first play no part. *)
Theorem parse_data_of_written_line
    (ws : list string) (flag_word : string) (rest : list string)
    (power : list Q) (flag : Z) :
  Forall (fun w => Text.is_word w = true) ws ->
  Text.is_word flag_word = true ->
  floats float_of_str ws = Some power ->
  Text.int_of_str flag_word = Some flag ->
  _parse_data float_of_str
    ((String.concat " " (ws ++ [flag_word]) ++ String "010" "") :: rest)
  = inr (power, flag =? 1).
Proof.
  intros Hws Hf Hp Hi. unfold _parse_data. cbv zeta.
  rewrite split_join;
    [|apply Forall_app; split; [assumption|now constructor]|reflexivity].
  rewrite removelast_last, Hp, last_last, Hi.
  destruct (ws ++ [flag_word])%list eqn:E; [|reflexivity].
  now apply app_eq_nil in E.
Qed.
End ParseFacts.

(** ** Dictionaries: lookup after update *)

Section DictLookup.
Context {K V : Type} `{Key K}.

Lemma get_set_same (k : K) (v : V) (d : Dict.t K V) :
  Dict.get k (Dict.set k v d) = Some v.
Proof.
  induction d as [|[k' v'] d IH]; simpl.
  - now rewrite keqb_refl.
  - destruct (keqb k k') eqn:E; simpl; rewrite E; [reflexivity|exact IH].
Qed.

Lemma get_set_other (k k' : K) (v : V) (d : Dict.t K V) :
  k' <> k -> Dict.get k' (Dict.set k v d) = Dict.get k' d.
Proof.
  intros Hne. induction d as [|[k0 v0] d IH]; simpl.
  - now rewrite (keqb_neq _ _ Hne).
  - destruct (keqb k k0) eqn:E; simpl.
    + destruct (keqb_spec k k0) as [<-|]; [|discriminate].
      now rewrite (keqb_neq _ _ Hne).
    + destruct (keqb k' k0); [reflexivity|exact IH].
Qed.

Lemma set_set (k : K) (v v' : V) (d : Dict.t K V) :
  Dict.set k v' (Dict.set k v d) = Dict.set k v' d.
Proof.
  induction d as [|[k0 v0] d IH]; simpl.
  - now rewrite keqb_refl.
  - destruct (keqb k k0) eqn:E; simpl; rewrite E; [reflexivity|].
    now rewrite IH.
Qed.

Lemma get_del_other (k k' : K) (d : Dict.t K V) :
  k' <> k -> Dict.get k' (Dict.del k d) = Dict.get k' d.
Proof.
  intros Hne. induction d as [|[k0 v0] d IH]; simpl; [reflexivity|].
  destruct (keqb k k0) eqn:E; simpl.
  - destruct (keqb_spec k k0) as [<-|]; [|discriminate].
    now rewrite (keqb_neq _ _ Hne).
  - destruct (keqb k' k0); [reflexivity|exact IH].
Qed.
End DictLookup.

(** ** [set_csh_env] *)

Section CshEnvFacts.
Variable expandvars : Dict.t string string -> string -> string.
Variable putenv_ok : string -> string -> bool.

Lemma set_csh_env_app (pre post : list string) :
  forall environ,
    set_csh_env expandvars putenv_ok (pre ++ post) environ
    = match set_csh_env expandvars putenv_ok pre environ with
      | (inr _, environ1) => set_csh_env expandvars putenv_ok post environ1
      | failed => failed
      end.
Proof.
  induction pre as [|l pre IH]; intros environ; cbn [app set_csh_env];
    [reflexivity|].
  destruct (prefix "setenv" l); [|apply IH].
  destruct (nth_error (Text.split l) 2); [|reflexivity].
  destruct (nth_error (Text.split l) 1); [|reflexivity].
  destruct (putenv_ok _ _); [apply IH|reflexivity].
Qed.

(** X4: lines that do not begin with [setenv] play no part: the script
    without them has the same outcome and leaves the same environment. *)
Theorem set_csh_env_reads_setenv_lines
    (lines : list string) (environ : Dict.t string string) :
  set_csh_env expandvars putenv_ok lines environ
  = set_csh_env expandvars putenv_ok
      (filter (String.prefix "setenv") lines) environ.
Proof.
  revert environ. induction lines as [|l lines IH]; intros environ;
    [reflexivity|].
  cbn [filter set_csh_env].
  destruct (prefix "setenv" l) eqn:E; [|apply IH].
  cbn [set_csh_env]. rewrite E.
  destruct (nth_error (Text.split l) 2); [|reflexivity].
  destruct (nth_error (Text.split l) 1); [|reflexivity].
  destruct (putenv_ok _ _); [apply IH|reflexivity].
Qed.

Lemma nth_error_short {A} (l : list A) (n : nat) :
  (length l <= n)%nat -> nth_error l n = None.
Proof. apply nth_error_None. Qed.

(** X5: a [setenv] line of fewer than three words ends the reading with
    [IndexError]: the assignments of the lines before it stay, the lines
    after it are not read. *)
Theorem set_csh_env_short_line
    (pre post : list string) (l : string)
    (environ environ1 : Dict.t string string) :
  set_csh_env expandvars putenv_ok pre environ = (inr tt, environ1) ->
  String.prefix "setenv" l = true ->
  (length (Text.split l) < 3)%nat ->
  set_csh_env expandvars putenv_ok (pre ++ l :: post) environ
  = (inl Text.IndexError, environ1).
Proof.
  intros Hpre Hl Hw. rewrite set_csh_env_app, Hpre.
  cbn [set_csh_env]. rewrite Hl.
  rewrite nth_error_short by lia. reflexivity.
Qed.

Lemma set_csh_env_keeps (name : string) (lines : list string) :
  forall environ environ',
    Forall (fun l => String.prefix "setenv" l = true ->
                     nth_error (Text.split l) 1 <> Some name) lines ->
    set_csh_env expandvars putenv_ok lines environ = (inr tt, environ') ->
    Dict.get name environ' = Dict.get name environ.
Proof.
  induction lines as [|l lines IH]; intros environ environ' Hno Hrun.
  - simpl in Hrun. now inversion Hrun.
  - inversion Hno as [|? ? Hl Hno']; subst.
    cbn [set_csh_env] in Hrun.
    destruct (prefix "setenv" l); [|now apply IH].
    destruct (nth_error (Text.split l) 2); [|discriminate].
    destruct (nth_error (Text.split l) 1) as [w1|] eqn:E1; [|discriminate].
    destruct (putenv_ok _ _); [|discriminate].
    rewrite (IH _ _ Hno' Hrun). apply get_set_other.
    intros ->. now apply Hl.
Qed.

(** X6: when the script is read to its end, a variable holds what the last
    [setenv] line naming it gives: the third word of that line, expanded
    in the environment the lines before it left. *)
Theorem set_csh_env_last_assignment
    (pre post : list string) (l name word : string)
    (environ environ1 environ' : Dict.t string string) :
  set_csh_env expandvars putenv_ok pre environ = (inr tt, environ1) ->
  String.prefix "setenv" l = true ->
  nth_error (Text.split l) 1 = Some name ->
  nth_error (Text.split l) 2 = Some word ->
  Forall (fun l' => String.prefix "setenv" l' = true ->
                    nth_error (Text.split l') 1 <> Some name) post ->
  set_csh_env expandvars putenv_ok (pre ++ l :: post) environ
  = (inr tt, environ') ->
  Dict.get name environ' = Some (expandvars environ1 word).
Proof.
  intros Hpre Hl H1 H2 Hpost Hrun.
  rewrite set_csh_env_app, Hpre in Hrun.
  cbn [set_csh_env] in Hrun. rewrite Hl, H2, H1 in Hrun.
  destruct (putenv_ok _ _); [|discriminate].
  rewrite (set_csh_env_keeps name post _ _ Hpost Hrun).
  apply get_set_same.
Qed.
End CshEnvFacts.

(** ** [AxScenario.duplicate] *)

(** X7: [duplicate] does not copy.  It passes the voltage where the
    constructor takes the accuracy and the accuracy where it takes the
    voltage: the duplicate of a scenario with an [int] accuracy and a
    [float] voltage is no such scenario, its name shows the voltage as
    accuracy and the accuracy as voltage, and only a second [duplicate]
    gives the scenario back. *)
Theorem duplicate_exchanges_accuracy_and_vdd
    (float_repr : Q -> string) (s : AxScenario) :
  let o := ScenarioObject.of_scenario s in
  (forall s', ScenarioObject.duplicate o <> ScenarioObject.of_scenario s') /\
  ScenarioObject.name float_repr o = Scenario.name s /\
  ScenarioObject.name float_repr (ScenarioObject.duplicate o)
  = "acc_" ++ float_repr (vdd s) ++ "bit_vdd_"
      ++ voltage_to_string (inject_Z (accuracy s)) ++ "V" /\
  ScenarioObject.duplicate (ScenarioObject.duplicate o) = o.
Proof.
  cbv zeta. split; [|split; [|split]]; try reflexivity.
  intros s'. unfold ScenarioObject.duplicate, ScenarioObject.of_scenario.
  simpl. discriminate.
Qed.

(** ** Circuit: lookups after the operations *)

(** X8: a port that [add_port] accepts is the last of its direction and
    has the width given; every other port and the ports of the other
    direction are as they were. *)
Theorem add_port_lookup
    (c c' : AxCircuit) (name : string) (width : Z)
    (direction : PortDirection) (multiplier : Z) :
  Circuit.add_port c name width direction multiplier = inr c' ->
  Dict.get name (ports_of direction c') = Some width /\
  Dict.keys (ports_of direction c')
  = (Dict.keys (ports_of direction c) ++ [name])%list /\
  (forall n, n <> name ->
             Dict.get n (ports_of direction c')
             = Dict.get n (ports_of direction c)) /\
  ports_of (opposite direction) c' = ports_of (opposite direction) c.
Proof.
  intros Hadd. apply add_port_inv in Hadd.
  destruct direction; destruct Hadd as [Hfresh ->];
    cbn [ports_of opposite input_ports output_ports];
    (split; [apply get_set_same|]);
    (split; [rewrite (set_fresh _ _ _ Hfresh); unfold Dict.keys;
             now rewrite map_app|]);
    (split; [|reflexivity]);
    intros n Hn; now apply get_set_other.
Qed.

Lemma change_port_width_inv (c c' : AxCircuit) name width :
  Circuit.change_port_width c name width = inr c' ->
  (Dict.mem name (input_ports c) = true /\
   c' = mkAxCircuit (Dict.set name width (input_ports c))
                    (output_ports c) (port_multipliers c)) \/
  (Dict.mem name (input_ports c) = false /\
   Dict.mem name (output_ports c) = true /\
   c' = mkAxCircuit (input_ports c)
                    (Dict.set name width (output_ports c))
                    (port_multipliers c)).
Proof.
  unfold Circuit.change_port_width, ret, raise.
  destruct (Dict.mem name (input_ports c)) eqn:Ei;
    destruct (Dict.mem name (output_ports c)) eqn:Eo; simpl;
    try discriminate; intros [= <-]; auto.
Qed.

(** X9: [change_port_width] changes a width where the port stands: the
    order of the ports of both directions and the multipliers are as they
    were, the port has the new width, every other port keeps its own; for
    a name that is an input and an output, the input alone is changed. *)
Theorem change_port_width_in_place
    (c c' : AxCircuit) (name : string) (width : Z) :
  Circuit.change_port_width c name width = inr c' ->
  Dict.keys (input_ports c') = Dict.keys (input_ports c) /\
  Dict.keys (output_ports c') = Dict.keys (output_ports c) /\
  port_multipliers c' = port_multipliers c /\
  (if Dict.mem name (input_ports c)
   then Dict.get name (input_ports c') = Some width /\
        output_ports c' = output_ports c
   else Dict.get name (output_ports c') = Some width /\
        input_ports c' = input_ports c) /\
  (forall n, n <> name ->
             Dict.get n (input_ports c') = Dict.get n (input_ports c) /\
             Dict.get n (output_ports c') = Dict.get n (output_ports c)).
Proof.
  intros Hch. apply change_port_width_inv in Hch.
  destruct Hch as [[Hi ->]|(Hi & Ho & ->)];
    cbn [input_ports output_ports port_multipliers]; rewrite Hi.
  - split; [now apply keys_set_present|]. split; [reflexivity|].
    split; [reflexivity|]. split; [split; [apply get_set_same|reflexivity]|].
    intros n Hn. split; [now apply get_set_other|reflexivity].
  - split; [reflexivity|]. split; [now apply keys_set_present|].
    split; [reflexivity|]. split; [split; [apply get_set_same|reflexivity]|].
    intros n Hn. split; [reflexivity|now apply get_set_other].
Qed.

(** X10: of two changes of the width of one port the second alone counts. *)
Theorem change_port_width_twice
    (c : AxCircuit) (name : string) (width width' : Z) :
  rbind (Circuit.change_port_width c name width)
        (fun c1 => Circuit.change_port_width c1 name width')
  = Circuit.change_port_width c name width'.
Proof.
  unfold Circuit.change_port_width, rbind, ret, raise.
  destruct (Dict.mem name (input_ports c)) eqn:Ei;
    destruct (Dict.mem name (output_ports c)) eqn:Eo;
    cbn [negb andb input_ports output_ports port_multipliers];
    try reflexivity;
    rewrite ?mem_set, ?keqb_refl, ?Ei, ?Eo;
    cbn [negb andb orb]; now rewrite set_set.
Qed.

(** X11: after [change_port_multiplier] the port is written into the Tcl
    port table with the multiplier given, whatever its width; the ports
    are as they were, and so is the item of every port of another name. *)
Theorem change_port_multiplier_serialized
    (c c' : AxCircuit) (name : string) (multiplier : Z) :
  Circuit.change_port_multiplier c name multiplier = inr c' ->
  input_ports c' = input_ports c /\
  output_ports c' = output_ports c /\
  (forall w, Circuit.port_item c' name w
             = "{" ++ dquote ++ name ++ dquote ++ " " ++ str_int w ++ " "
                 ++ str_int multiplier ++ "} ") /\
  (forall n w, n <> name ->
               Circuit.port_item c' n w = Circuit.port_item c n w).
Proof.
  unfold Circuit.change_port_multiplier, ret, raise.
  destruct (negb _ && negb _); [discriminate|]. intros [= <-].
  split; [reflexivity|]. split; [reflexivity|]. split.
  - intros w. unfold Circuit.port_item. cbn [port_multipliers].
    now rewrite mem_set, keqb_refl, get_set_same.
  - intros n w Hn. unfold Circuit.port_item. cbn [port_multipliers].
    rewrite mem_set, (keqb_neq _ _ Hn), get_set_other by assumption.
    reflexivity.
Qed.

(** X12: a removed port is gone with its multiplier, and removing it again
    raises [UnknownPortException], for a circuit whose tables hold each
    name once and where the name is not both an input and an output. *)
Theorem remove_port_twice (c c' : AxCircuit) (name : string) :
  circuit_wf c = true ->
  Dict.mem name (input_ports c) && Dict.mem name (output_ports c) = false ->
  Circuit.remove_port c name = inr c' ->
  Dict.mem name (input_ports c') = false /\
  Dict.mem name (output_ports c') = false /\
  Dict.mem name (port_multipliers c') = false /\
  Circuit.remove_port c' name
  = inl (UnknownPortException ("No port with name " ++ name)).
Proof.
  unfold circuit_wf. intros Hwf Hone.
  apply andb_prop in Hwf. destruct Hwf as [Hwf Hpm].
  apply andb_prop in Hwf. destruct Hwf as [Hip Hop].
  unfold Circuit.remove_port, ret, raise.
  assert (Hm : Dict.mem name
                 (if Dict.mem name (port_multipliers c)
                  then Dict.del name (port_multipliers c)
                  else port_multipliers c) = false).
  { destruct (Dict.mem name (port_multipliers c)) eqn:E;
      [now apply mem_del_same|assumption]. }
  destruct (Dict.mem name (input_ports c)) eqn:Ei;
    destruct (Dict.mem name (output_ports c)) eqn:Eo;
    cbn [negb andb] in *; try discriminate; intros [= <-];
    cbn [input_ports output_ports port_multipliers];
    rewrite ?(mem_del_same _ _ Hip), ?(mem_del_same _ _ Hop), ?Ei, ?Eo;
    cbn [negb andb]; auto.
Qed.

(** X13: for a name that is an input and an output, [remove_port] removes
    the input and the multiplier and leaves the output, which the Tcl port
    table then shows with the multiplier 1. *)
Theorem remove_port_shared_name (c c' : AxCircuit) (name : string) :
  dict_wf (port_multipliers c) = true ->
  Dict.mem name (input_ports c) = true ->
  Dict.mem name (output_ports c) = true ->
  Circuit.remove_port c name = inr c' ->
  input_ports c' = Dict.del name (input_ports c) /\
  output_ports c' = output_ports c /\
  (forall w, Circuit.port_item c' name w
             = "{" ++ dquote ++ name ++ dquote ++ " " ++ str_int w
                 ++ " 1} ").
Proof.
  intros Hpm Hi Ho. unfold Circuit.remove_port, ret, raise.
  rewrite Hi, Ho. cbn [negb andb]. intros [= <-].
  split; [reflexivity|]. split; [reflexivity|].
  intros w. unfold Circuit.port_item. cbn [port_multipliers].
  destruct (Dict.mem name (port_multipliers c)) eqn:E.
  - now rewrite (mem_del_same _ _ Hpm).
  - now rewrite E.
Qed.

(** ** Scenario names *)

Lemma uint_digits (d : Decimal.uint) :
  all_chars sign_or_digit (NilEmpty.string_of_uint d) = true.
Proof. induction d; simpl; auto. Qed.

Lemma str_int_chars (n : Z) : all_chars sign_or_digit (str_int n) = true.
Proof.
  unfold str_int, NilZero.string_of_int, NilZero.string_of_uint.
  destruct (Z.to_int n) as [d|d]; destruct d; try reflexivity;
    simpl; apply uint_digits.
Qed.

Lemma str_int_inj (a b : Z) : str_int a = str_int b -> a = b.
Proof.
  unfold str_int. intros E.
  assert (Hnn : forall z, Z.to_int z <> Decimal.Pos Decimal.Nil
                          /\ Z.to_int z <> Decimal.Neg Decimal.Nil).
  { intros [|p|p]; simpl; split; try discriminate;
      intros [= H]; now apply Unsigned.to_uint_nonnil in H. }
  assert (E' : Some (Z.to_int a) = Some (Z.to_int b)).
  { rewrite <- (NilZero.isi (Z.to_int a)), <- (NilZero.isi (Z.to_int b));
      try apply Hnn. now rewrite E. }
  injection E' as E'.
  rewrite <- (DecimalZ.of_to a), <- (DecimalZ.of_to b). now rewrite E'.
Qed.

(** Two texts of characters passing a test, each followed by a character
    failing it, are equal when the whole texts are. *)
Lemma append_inj_at_stop (p : ascii -> bool) (x : string) :
  forall x' c r c' r',
    all_chars p x = true -> all_chars p x' = true ->
    p c = false -> p c' = false ->
    x ++ String c r = x' ++ String c' r' ->
    x = x' /\ String c r = String c' r'.
Proof.
  induction x as [|a x IH]; intros [|a' x'] c r c' r' Hx Hx' Hc Hc' E;
    simpl in *.
  - now split.
  - injection E as -> _. apply andb_prop in Hx'. destruct Hx' as [Ha _].
    congruence.
  - injection E as <- _. apply andb_prop in Hx. destruct Hx as [Ha _].
    congruence.
  - injection E as <- E.
    apply andb_prop in Hx, Hx'. destruct Hx as [_ Hx], Hx' as [_ Hx'].
    destruct (IH _ _ _ _ _ Hx Hx' Hc Hc' E) as [-> ?]. now split.
Qed.

Lemma append_cancel_last (c : ascii) (x : string) :
  forall y, x ++ String c "" = y ++ String c "" -> x = y.
Proof.
  induction x as [|a x IH]; intros [|b y] E; simpl in E.
  - reflexivity.
  - injection E as _ E. destruct y; discriminate.
  - injection E as _ E. destruct x; discriminate.
  - injection E as <- E. f_equal. now apply IH.
Qed.

(** X14: two scenarios have the same name exactly when they have the same
    precision and their voltages are written alike; whatever their
    voltages, scenarios of different precisions have different names. *)
Theorem scenario_names_equal (s s' : AxScenario) :
  Scenario.name s = Scenario.name s' <->
  accuracy s = accuracy s' /\
  voltage_to_string (vdd s) = voltage_to_string (vdd s').
Proof.
  unfold Scenario.name. split.
  - intros E. cbn [append] in E. injection E as E.
    apply (append_inj_at_stop sign_or_digit) in E;
      try apply str_int_chars; try reflexivity.
    destruct E as [Ea Ev]. split; [now apply str_int_inj|].
    injection Ev as Ev. now apply append_cancel_last in Ev.
  - intros [-> ->]. reflexivity.
Qed.

(** ** Names of the files of an invocation *)

Lemma concat_snoc (sep : string) (l : list string) (x : string) :
  l <> [] ->
  String.concat sep (l ++ [x]) = String.concat sep l ++ sep ++ x.
Proof.
  induction l as [|y l IH]; [congruence|]. intros _.
  destruct l as [|z l].
  - reflexivity.
  - change (String.concat sep ((y :: z :: l) ++ [x]))
      with (y ++ sep ++ String.concat sep ((z :: l) ++ [x])).
    rewrite IH by discriminate.
    change (String.concat sep (y :: z :: l))
      with (y ++ sep ++ String.concat sep (z :: l)).
    now rewrite !append_assoc.
Qed.

(** X15: the files of an invocation that tries a scenario are named after
    the scenarios it carries, their names joined by underscores; the
    invocation that carries the trial scenario alone has one more
    underscore in front.  So, once the trial scenario is in the table,
    [_save_netlist] names the files that invocation wrote, unless the
    scenario is the only one of the table. *)
Theorem invocation_file_names
    (float_repr : Q -> string) (self : ReconfSynthesis) (s : AxScenario) :
  let c := Reconf.dc_invocation float_repr self (Some s) in
  let joined := String.concat "_" (map Scenario.name (dc_scenarios c)) in
  Reconf._combined_scenario_name self (Some s)
  = match Reconf.accepted self with
    | [] => "_" ++ joined
    | _ :: _ => joined
    end /\
  dc_log_file c
  = log_dir self ++ "/" ++ Reconf._combined_scenario_name self (Some s)
      ++ ".log" /\
  forall self',
    Reconf.accepted self' = (Reconf.accepted self ++ [s])%list ->
    Reconf._combined_scenario_name self' None = joined.
Proof.
  cbv zeta. cbn [Reconf.dc_invocation dc_scenarios dc_log_file].
  unfold Reconf._combined_scenario_name. split; [|split].
  - destruct (Reconf.accepted self) as [|s0 l] eqn:E; [reflexivity|].
    rewrite map_app. cbn [map]. rewrite concat_snoc by discriminate.
    reflexivity.
  - reflexivity.
  - intros self' ->. now rewrite append_nil_r.
Qed.

(** ** The configuration *)

Lemma check_mode_rows_ok (mi : list string) (rows : list (list Z)) :
  Reconf.check_mode_rows mi rows = inr tt <->
  Forall (fun m => length m = length mi /\
                   Forall (fun v => v = 0 \/ v = 1) m) rows.
Proof.
  induction rows as [|m rows IH]; simpl.
  - split; [constructor|reflexivity].
  - destruct (Nat.eqb_spec (length m) (length mi)) as [El|Nl]; simpl.
    + destruct (existsb _ m) eqn:Ev.
      * split; [discriminate|]. intros H. inversion H as [|? ? [_ Hm] _].
        subst. apply existsb_exists in Ev. destruct Ev as (v & Hin & Hv).
        rewrite Forall_forall in Hm. destruct (Hm v Hin) as [-> | ->];
          discriminate.
      * rewrite IH. split.
        -- intros H. constructor; [|assumption]. split; [assumption|].
           apply Forall_forall. intros v Hin.
           destruct (Z.eqb_spec v 0) as [|N0]; [now left|].
           destruct (Z.eqb_spec v 1) as [|N1]; [now right|].
           exfalso. assert (existsb (fun v => negb (v =? 0) && negb (v =? 1)) m
                            = true); [|congruence].
           apply existsb_exists. exists v. split; [assumption|].
           apply Z.eqb_neq in N0, N1. now rewrite N0, N1.
        -- intros H. now inversion H.
    + split; [discriminate|]. intros H. inversion H as [|? ? [Hl _] _].
      contradiction.
Qed.

Lemma check_mode_rows_error (mi : list string) (rows : list (list Z)) e :
  Reconf.check_mode_rows mi rows = inl e -> exists msg, e = ConfigException msg.
Proof.
  induction rows as [|m rows IH]; simpl; [discriminate|].
  destruct (negb _); [intros [= <-]; eauto|].
  destruct (existsb _ m); [intros [= <-]; eauto|assumption].
Qed.

Lemma check_mode_inputs_given (self : ReconfSynthesis)
    (mi : list string) (mv : list (list Z)) :
  _mode_inputs self = Some mi ->
  _mode_values self = Some mv ->
  (Reconf._check_mode_inputs self = inr tt <->
   length mv = length (_acc_list self) /\
   Forall (fun m => length m = length mi /\
                    Forall (fun v => v = 0 \/ v = 1) m) mv).
Proof.
  intros Emi Emv. unfold Reconf._check_mode_inputs. rewrite Emi, Emv.
  destruct (Nat.eqb_spec (length (_acc_list self)) (length mv)) as [E|N];
    simpl.
  - rewrite check_mode_rows_ok. split; [auto|tauto].
  - split; [discriminate|]. intros [E _]. congruence.
Qed.

(** X16: what [_check_mode_inputs] accepts.  Without mode inputs, anything;
    with mode inputs, mode values with one row per precision, each row
    with one value per mode input, each value 0 or 1. *)
Theorem check_mode_inputs_accepts (self : ReconfSynthesis) :
  Reconf._check_mode_inputs self = inr tt <->
  match _mode_inputs self with
  | None => True
  | Some mode_inputs =>
      exists mode_values,
        _mode_values self = Some mode_values /\
        length mode_values = length (_acc_list self) /\
        Forall (fun m => length m = length mode_inputs /\
                         Forall (fun v => v = 0 \/ v = 1) m) mode_values
  end.
Proof.
  destruct (_mode_inputs self) as [mi|] eqn:Emi.
  - destruct (_mode_values self) as [mv|] eqn:Emv.
    + rewrite (check_mode_inputs_given self mi mv Emi Emv). split.
      * intros H. exists mv. tauto.
      * intros (mv' & [= <-] & H). exact H.
    + unfold Reconf._check_mode_inputs. rewrite Emi, Emv.
      split; [discriminate|]. intros (mv' & E & _). discriminate.
  - unfold Reconf._check_mode_inputs. rewrite Emi. tauto.
Qed.

Lemma mapM_seq {B} (f : nat -> result B) (g : nat -> B) (n : nat) :
  forall a,
    (forall j, (a <= j < a + n)%nat -> f j = inr (g j)) ->
    mapM f (seq a n) = inr (map g (seq a n)).
Proof.
  induction n as [|n IH]; intros a Hf; simpl; [reflexivity|].
  rewrite Hf by lia. unfold rbind, ret.
  rewrite IH; [reflexivity|]. intros j Hj. apply Hf. lia.
Qed.

Lemma combine_nth_seq {A B} (l : list A) (l' : list B) (d : A) (d' : B) :
  length l' = length l ->
  map (fun j => (nth j l d, nth j l' d')) (seq 0 (length l)) = combine l l'.
Proof.
  revert l'. induction l as [|x l IH]; intros [|y l'] E; simpl in *;
    try discriminate; [reflexivity|].
  f_equal. rewrite <- seq_shift, map_map. apply IH. lia.
Qed.

Lemma create_mode_rows (self : ReconfSynthesis) (mi : list string)
    (mv : list (list Z)) (i : nat) (row : list Z) :
  _mode_inputs self = Some mi ->
  _mode_values self = Some mv ->
  nth_error mv i = Some row ->
  length row = length mi ->
  Reconf._create_mode self i = inr (Some (combine mi row)).
Proof.
  intros Emi Emv Erow El. unfold Reconf._create_mode. rewrite Emi, Emv.
  unfold range. rewrite Nat.sub_0_r.
  rewrite (mapM_seq _ (fun j => (nth j mi "", nth j row 0))).
  - unfold rbind, ret. now rewrite combine_nth_seq.
  - intros j Hj. unfold index. rewrite Erow. unfold rbind, ret.
    rewrite (nth_error_nth' mi "") by lia.
    rewrite (nth_error_nth' row 0) by lia. reflexivity.
Qed.

(** X17: a configuration with mode inputs that [read_config] accepts gives a
    mode to every precision: [_create_mode] raises for none of them and
    pairs the mode inputs, in order, with the values of the row of the
    precision. *)
Theorem read_config_modes_defined
    (self self' : ReconfSynthesis) (config : ConfigFile)
    (mode_inputs : list string) :
  cf_mode_inputs config = Some mode_inputs ->
  Reconf.read_config self config = inr self' ->
  exists mode_values,
    cf_mode_values config = Some mode_values /\
    _mode_inputs self' = Some mode_inputs /\
    _mode_values self' = Some mode_values /\
    length mode_values = length (_acc_list self') /\
    forall i, (i < length (_acc_list self'))%nat ->
              Reconf._create_mode self' i
              = inr (Some (combine mode_inputs (nth i mode_values []))).
Proof.
  intros Emi. unfold Reconf.read_config, rbind, ret, raise. rewrite Emi.
  destruct (Circuit.init _ _ _) as [|circuit]; [discriminate|].
  destruct (cf_mode_values config) as [mv|]; [|discriminate].
  destruct (Reconf._check_mode_inputs _) as [|[]] eqn:Ec; [discriminate|].
  match type of Ec with
  | Reconf._check_mode_inputs ?s = _ =>
      apply (check_mode_inputs_given s mode_inputs mv eq_refl eq_refl) in Ec
  end.
  destruct Ec as (El & Hrows). cbn [_acc_list] in El.
  assert (Hmk : forall w,
             let s := mkReconfSynthesis (log_dir self) (work_dir self) w
                        circuit (cf_vdd config) (cf_precision config)
                        match cf_clock_multipliers config with
                        | Some l => l
                        | None => map (fun _ => None) (cf_precision config)
                        end (Some mode_inputs) (Some mv)
                        (_power_table self) (_scen_table self) in
             forall i, (i < length (_acc_list s))%nat ->
                       Reconf._create_mode s i
                       = inr (Some (combine mode_inputs (nth i mv [])))).
  { intros w s i Hi. cbn [_acc_list s] in Hi.
    apply (create_mode_rows s mode_inputs mv); try reflexivity.
    - apply nth_error_nth'. lia.
    - rewrite Forall_forall in Hrows. apply Hrows, nth_In. lia. }
  destruct (cf_weights config) as [w|].
  - destruct (negb _); [discriminate|]. intros [= <-]. exists mv.
    repeat (split; [reflexivity || assumption|]). apply Hmk.
  - intros [= <-]. exists mv.
    repeat (split; [reflexivity || assumption|]). apply Hmk.
Qed.

Lemma init_cases (ip op pm : Dict.t string Z) :
  (exists n, In n (Dict.keys pm) /\ Dict.mem n ip = false /\
             Dict.mem n op = false /\
             Circuit.init ip op pm
             = inl (UnknownPortException ("No port with name " ++ n))) \/
  (Circuit.init ip op pm = inr (mkAxCircuit ip op pm) /\
   forall n, In n (Dict.keys pm) ->
             Dict.mem n ip = true \/ Dict.mem n op = true).
Proof.
  unfold Circuit.init.
  destruct (find _ (Dict.keys pm)) as [n|] eqn:E.
  - left. apply find_some in E. destruct E as [Hin Hn].
    apply andb_prop in Hn. destruct Hn as [Hi Ho].
    apply negb_true_iff in Hi, Ho. exists n. auto.
  - right. split; [reflexivity|]. intros n Hin.
    pose proof (find_none _ _ E n Hin) as Hn. cbv beta in Hn.
    destruct (Dict.mem n ip); [now left|].
    destruct (Dict.mem n op); [now right|discriminate].
Qed.

(** X18: [read_config] raises [UnknownPortException] exactly when the
    multipliers of the file name a port that is neither an input nor an
    output of the file; the circuit of a configuration it accepts has a
    multiplier for known ports only. *)
Theorem read_config_unknown_port
    (self : ReconfSynthesis) (config : ConfigFile) :
  ((exists msg,
       Reconf.read_config self config = inl (UnknownPortException msg)) <->
   (exists n, In n (Dict.keys (cf_port_multipliers config)) /\
              Dict.mem n (cf_input_ports config) = false /\
              Dict.mem n (cf_output_ports config) = false)) /\
  (forall self', Reconf.read_config self config = inr self' ->
                 multipliers_known (_circuit self') = true).
Proof.
  unfold Reconf.read_config.
  destruct (init_cases (cf_input_ports config) (cf_output_ports config)
              (cf_port_multipliers config))
    as [(n & Hin & Hi & Ho & ->)|[-> Hknown]]; unfold rbind, ret, raise.
  - split; [|discriminate]. split; eauto.
  - assert (Hk : multipliers_known
                   (mkAxCircuit (cf_input_ports config)
                      (cf_output_ports config) (cf_port_multipliers config))
                 = true).
    { unfold multipliers_known. apply forallb_forall. intros n Hin.
      cbn [input_ports output_ports]. apply orb_true_iff. now apply Hknown. }
    split.
    + split.
      * intros [msg E]. exfalso. revert E.
        destruct (cf_mode_inputs config).
        -- destruct (cf_mode_values config); [|discriminate].
           unfold Reconf._check_mode_inputs. cbn [_mode_inputs _mode_values].
           destruct (negb _); [discriminate|].
           destruct (Reconf.check_mode_rows _ _) as [e|[]] eqn:Ec.
           ++ apply check_mode_rows_error in Ec. destruct Ec as [m ->].
              discriminate.
           ++ destruct (cf_weights config); [|discriminate].
              destruct (negb _); discriminate.
        -- destruct (cf_weights config); [|discriminate].
           destruct (negb _); discriminate.
      * intros (n & Hin & Hi & Ho). destruct (Hknown n Hin); congruence.
    + intros self'.
      destruct (cf_mode_inputs config).
      * destruct (cf_mode_values config); [|discriminate].
        destruct (Reconf._check_mode_inputs _); [discriminate|].
        destruct (cf_weights config).
        -- destruct (negb _); [discriminate|]. now intros [= <-].
        -- now intros [= <-].
      * destruct (cf_weights config).
        -- destruct (negb _); [discriminate|]. now intros [= <-].
        -- now intros [= <-].
Qed.

(** X19: the configurations [read_config] accepts are those whose
    multipliers name known ports, whose mode values, if there are mode
    inputs, have one row of zeros and ones per precision and one value per
    mode input in each row, and whose weights, if any, are as many as the
    precisions.  Nothing else is asked: not that there is a precision or
    a voltage, not that the clock multipliers are as many as the
    precisions. *)
Theorem read_config_accepts (self : ReconfSynthesis) (config : ConfigFile) :
  (exists self', Reconf.read_config self config = inr self') <->
  (forall n, In n (Dict.keys (cf_port_multipliers config)) ->
             Dict.mem n (cf_input_ports config) = true \/
             Dict.mem n (cf_output_ports config) = true) /\
  (forall mode_inputs,
      cf_mode_inputs config = Some mode_inputs ->
      exists mode_values,
        cf_mode_values config = Some mode_values /\
        length mode_values = length (cf_precision config) /\
        Forall (fun m => length m = length mode_inputs /\
                         Forall (fun v => v = 0 \/ v = 1) m) mode_values) /\
  (forall weights,
      cf_weights config = Some weights ->
      length weights = length (cf_precision config)).
Proof.
  unfold Reconf.read_config.
  destruct (init_cases (cf_input_ports config) (cf_output_ports config)
              (cf_port_multipliers config))
    as [(n & Hin & Hi & Ho & ->)|[-> Hknown]]; unfold rbind, ret, raise.
  { split; [intros [self' E]; discriminate|].
    intros (Hk & _). destruct (Hk n Hin); congruence. }
  destruct (cf_mode_inputs config) as [mi|].
  - destruct (cf_mode_values config) as [mv|].
    + destruct (Reconf._check_mode_inputs _) as [e|[]] eqn:Ec.
      * split; [intros [self' E]; discriminate|].
        intros (_ & Hm & _). destruct (Hm mi eq_refl) as (mv' & [= <-] & H).
        assert (Hok : Reconf._check_mode_inputs
                        (mkReconfSynthesis (log_dir self) (work_dir self)
                           (_weights self)
                           (mkAxCircuit (cf_input_ports config)
                              (cf_output_ports config)
                              (cf_port_multipliers config))
                           (cf_vdd config) (cf_precision config)
                           match cf_clock_multipliers config with
                           | Some l => l
                           | None => map (fun _ => None) (cf_precision config)
                           end (Some mi) (Some mv)
                           (_power_table self) (_scen_table self))
                      = inr tt).
        { match goal with
          | |- Reconf._check_mode_inputs ?s = _ =>
              apply (check_mode_inputs_given s mi mv eq_refl eq_refl)
          end.
          cbn [_acc_list]. tauto. }
        congruence.
      * match type of Ec with
        | Reconf._check_mode_inputs ?s = _ =>
            apply (check_mode_inputs_given s mi mv eq_refl eq_refl) in Ec
        end.
        destruct Ec as (Hl & Hrows). cbn [_acc_list] in Hl.
        destruct (cf_weights config) as [w|].
        -- destruct (Nat.eqb_spec (length w) (length (cf_precision config)))
             as [E|N]; cbn [negb].
           ++ split; [|eauto]. intros _. split; [assumption|].
              split; [intros ? [= <-]; eauto|now intros ? [= <-]].
           ++ split; [intros [self' E]; discriminate|].
              intros (_ & _ & Hw). now specialize (Hw w eq_refl).
        -- split; [|eauto]. intros _. split; [assumption|].
           split; [intros ? [= <-]; eauto|discriminate].
    + split; [intros [self' E]; discriminate|].
      intros (_ & Hm & _). destruct (Hm mi eq_refl) as (mv' & E & _).
      discriminate.
  - destruct (cf_weights config) as [w|].
    + destruct (Nat.eqb_spec (length w) (length (cf_precision config)))
        as [E|N]; cbn [negb].
      * split; [|eauto]. intros _. split; [assumption|].
        split; [discriminate|now intros ? [= <-]].
      * split; [intros [self' E]; discriminate|].
        intros (_ & _ & Hw). now specialize (Hw w eq_refl).
    + split; [|eauto]. intros _. split; [assumption|].
      split; discriminate.
Qed.

(** ** The weighted total *)

Section TotalFacts.
Local Open Scope Q_scope.

Lemma combine_app_short {A B} (l extra : list A) (l' : list B) :
  (length l' <= length l)%nat -> combine (l ++ extra) l' = combine l l'.
Proof.
  revert l'. induction l as [|x l IH]; intros [|y l'] H; simpl in *;
    try reflexivity; try lia.
  - now destruct extra.
  - f_equal. apply IH. lia.
Qed.

Lemma combine_snoc {A B} (l : list A) (x : A) (l' : list B) (d : B) :
  (length l < length l')%nat ->
  combine (l ++ [x]) l' = (combine l l' ++ [(x, nth (length l) l' d)])%list.
Proof.
  revert l'. induction l as [|y l IH]; intros [|y' l'] H; simpl in *;
    try lia; [reflexivity|].
  f_equal. apply IH. lia.
Qed.

Lemma combine_firstn_r {A B} (l : list A) (l' : list B) :
  combine l (firstn (length l) l') = combine l l'.
Proof.
  revert l'. induction l as [|x l IH]; intros [|y l']; simpl;
    try reflexivity.
  now rewrite IH.
Qed.

(** X20: one more value at the end of a power vector adds its product with
    the weight at its position to the weighted total, when there is a
    weight at that position, and nothing when the weights are fewer. *)
Theorem weighted_total_of_one_more_power
    (self : ReconfSynthesis) (power : list Q) (x : Q) :
  Reconf._weighted_total_power self (power ++ [x])
  = if (length power <? length (_weights self))%nat
    then Reconf._weighted_total_power self power
         + x * nth (length power) (_weights self) 0
    else Reconf._weighted_total_power self power.
Proof.
  unfold Reconf._weighted_total_power. rewrite !combine_firstn_r.
  destruct (Nat.ltb_spec (length power) (length (_weights self))) as [H|H].
  - rewrite (combine_snoc _ _ _ 0) by assumption.
    now rewrite map_app, fold_left_app.
  - now rewrite combine_app_short.
Qed.
End TotalFacts.

(** ** More on [run] *)

Lemma index_error {A} (l : list A) (i : nat) e :
  index l i = inl e -> e = IndexError.
Proof.
  unfold index, ret, raise. destruct (nth_error l i); [discriminate|].
  now intros [= <-].
Qed.

Lemma getitem_error {V} (d : Dict.t Z V) (k : Z) e :
  getitem d k = inl e -> e = KeyError.
Proof.
  unfold getitem, ret, raise. destruct (Dict.get k d); [discriminate|].
  now intros [= <-].
Qed.

Lemma mapM_error {A B} (P : exn -> Prop) (f : A -> result B) (l : list A) :
  (forall x e, f x = inl e -> P e) ->
  forall e, mapM f l = inl e -> P e.
Proof.
  intros Hf. induction l as [|x l IH]; intros e; simpl; [discriminate|].
  unfold rbind, ret. destruct (f x) as [e'|y] eqn:Ex.
  - intros [= <-]. eauto.
  - destruct (mapM f l) as [e'|ys]; [|discriminate].
    intros [= <-]. now apply IH.
Qed.

Lemma create_mode_error (self : ReconfSynthesis) (i : nat) e :
  Reconf._create_mode self i = inl e -> is_timing e = false.
Proof.
  unfold Reconf._create_mode. destruct (_mode_inputs self) as [mi|];
    [|discriminate].
  unfold rbind at 1. destruct (mapM _ _) as [e'|md] eqn:Em; [|discriminate].
  intros [= <-]. revert e' Em. apply mapM_error. intros j e.
  unfold rbind, ret, raise.
  destruct (index mi j) as [e1|n] eqn:E1.
  { apply index_error in E1. subst. now intros [= <-]. }
  destruct (_mode_values self) as [mv|]; [|now intros [= <-]].
  destruct (index mv i) as [e2|row] eqn:E2.
  { apply index_error in E2. subst. now intros [= <-]. }
  destruct (index row j) as [e3|v] eqn:E3; [|discriminate].
  apply index_error in E3. subst. now intros [= <-].
Qed.

Lemma outputs_only_refl st : outputs_only st st.
Proof.
  split; [reflexivity|]. exists []. now rewrite app_nil_r.
Qed.

Lemma outputs_only_trans st1 st2 st3 :
  outputs_only st1 st2 -> outputs_only st2 st3 -> outputs_only st1 st3.
Proof.
  intros (Hd1 & evs1 & Hf1 & Ho1) (Hd2 & evs2 & Hf2 & Ho2).
  split; [congruence|]. exists (evs1 ++ evs2)%list.
  rewrite Hf2, Hf1, <- app_assoc, forallb_app, Ho1, Ho2. now split.
Qed.

Lemma preserves_output_event (e : FsEvent) :
  is_output_event e = true -> preserves outputs_only (fs_do e).
Proof.
  intros He st. split; [reflexivity|]. exists [e]. simpl.
  now rewrite He.
Qed.

Lemma preserves_put_self self : preserves outputs_only (put_self self).
Proof.
  intros st. split; [reflexivity|]. exists []. simpl.
  now rewrite app_nil_r.
Qed.

Ltac preserves_outputs :=
  lazymatch goal with
  | |- preserves _ (mbind _ _) =>
      apply preserves_bind;
      [exact outputs_only_trans | preserves_outputs
      | intros ?; preserves_outputs]
  | |- preserves _ (lift _) => apply preserves_lift; exact outputs_only_refl
  | |- preserves _ (mret _) => apply preserves_mret; exact outputs_only_refl
  | |- preserves _ (mraise _) =>
      apply preserves_mraise; exact outputs_only_refl
  | |- preserves _ get_self =>
      apply preserves_get_self; exact outputs_only_refl
  | |- preserves _ (put_self _) => apply preserves_put_self
  | |- preserves _ (fs_do _) => apply preserves_output_event; reflexivity
  | |- preserves _ (match ?x with Some _ => _ | None => _ end) =>
      destruct x; preserves_outputs
  | |- preserves _ (let '(_, _) := ?x in _) =>
      destruct x; preserves_outputs
  end.

Lemma save_netlist_outputs_only output_dir :
  preserves outputs_only (Reconf._save_netlist output_dir).
Proof. unfold Reconf._save_netlist. preserves_outputs. Qed.

Lemma finalize_outputs_only output_dir output_table cp :
  preserves outputs_only (Reconf.finalize output_dir output_table cp).
Proof.
  unfold Reconf.finalize. cbv zeta.
  apply preserves_bind; [exact outputs_only_trans|preserves_outputs|].
  intros self.
  apply preserves_bind; [exact outputs_only_trans|preserves_outputs|].
  intros p.
  apply preserves_bind; [exact outputs_only_trans|preserves_outputs|].
  intros _.
  apply preserves_bind; [exact outputs_only_trans|preserves_outputs|].
  intros _.
  apply preserves_bind; [exact outputs_only_trans| |].
  - destruct output_table; [|preserves_outputs].
    destruct (Reconf.table_rows _ _) as [rows e]. preserves_outputs.
  - intros _.
    apply preserves_bind;
      [exact outputs_only_trans|apply save_netlist_outputs_only|].
    intros _. preserves_outputs.
Qed.

Section RunCoverage.
Variable float_repr : Q -> string.
Variable backend : nat -> DcCall -> list Q * bool.
Variable os_path_dirname : string -> string.
Variable os_access_w : list FsEvent -> string -> bool.
Variable os_path_exists : list FsEvent -> string -> bool.

Local Abbreviation _init_dirs :=
  (Reconf._init_dirs os_path_dirname os_access_w os_path_exists).
Local Abbreviation nominal := (Reconf.nominal float_repr backend).
Local Abbreviation descend := (Reconf.descend float_repr backend).
Local Abbreviation run :=
  (Reconf.run float_repr backend os_path_dirname os_access_w os_path_exists).

(** [run], stage by stage. *)
Lemma run_stages output_dir output_table st :
  run output_dir output_table st
  = match _init_dirs output_dir output_table st with
    | (inl e, st1) => (inl e, st1)
    | (inr _, st1) =>
    match Reconf.sort_inputs st1 with
    | (inl e, st2) => (inl e, st2)
    | (inr _, st2) =>
    match nominal st2 with
    | (inl e, st3) => (inl e, st3)
    | (inr _, st3) =>
    match descend (range 1 (length (_acc_list (obj st3)))) 0 None st3 with
    | (inl e, st4) => (inl e, st4)
    | (inr cp, st4) => Reconf.finalize output_dir output_table cp st4
    end end end end.
Proof.
  unfold Reconf.run, mbind.
  destruct (_init_dirs _ _ _) as [[e|[]] st1]; [reflexivity|].
  destruct (Reconf.sort_inputs st1) as [[e|[]] st2]; [reflexivity|].
  destruct (nominal st2) as [[e|[]] st3]; [reflexivity|].
  reflexivity.
Qed.

(** X21: when the directory of the output table is not writable, [run]
    raises [FileNotFoundError] and has done nothing: no directory made or
    removed, no invocation of the tool. *)
Theorem run_unwritable_table_directory
    (output_dir path : string) (st : State) :
  os_path_dirname path <> "" ->
  os_access_w (fs_log st) (os_path_dirname path) = false ->
  run output_dir (Some path) st
  = (inl (FileNotFoundError
            ("Cannot access directory " ++ dquote ++ os_path_dirname path
               ++ dquote ++ " for writing!")), st).
Proof.
  intros Hne Hw. rewrite run_stages.
  unfold Reconf._init_dirs, mbind, lift, get_self, ret. cbv beta iota.
  rewrite Hw. apply String.eqb_neq in Hne. rewrite Hne. reflexivity.
Qed.

Lemma init_dirs_error output_dir output_table st e st' :
  _init_dirs output_dir output_table st = (inl e, st') ->
  (e = TypeError /\ output_table = None) \/
  (exists msg, e = FileNotFoundError msg).
Proof.
  unfold Reconf._init_dirs, mbind, lift, get_self, ret, raise.
  destruct output_table as [path|]; [|intros [= <- _]; now left].
  cbv beta iota.
  destruct (_ && _); [intros [= <- _]; right; eauto|].
  unfold mret, fs_do, ret. cbv beta iota.
  destruct (_ && _); cbv beta iota;
    destruct (negb _); cbv beta iota; cbn [fs_log];
    destruct (negb _); discriminate.
Qed.

Lemma sort_inputs_error st e st' :
  Reconf.sort_inputs st = (inl e, st') -> e = IndexError.
Proof.
  unfold Reconf.sort_inputs, mbind, lift, get_self, put_self, ret.
  cbv beta iota zeta.
  destruct (mapM _ _) as [e1|accs] eqn:E1.
  { intros [= <- _]. revert e1 E1. apply mapM_error.
    intros i e' Hi. exact (index_error _ _ _ Hi). }
  cbn [_mode_values set_acc_list].
  destruct (_mode_values (obj st)) as [mv|]; [|cbv beta iota; discriminate].
  unfold rbind. destruct (mapM (index mv) _) as [e2|mv'] eqn:E2;
    [|cbv beta iota; discriminate].
  intros [= <- _]. revert e2 E2. apply mapM_error.
  intros i e' Hi. exact (index_error _ _ _ Hi).
Qed.

Lemma sort_inputs_modes st st' :
  Reconf.sort_inputs st = (inr tt, st') ->
  _mode_inputs (obj st') = _mode_inputs (obj st) /\
  (_mode_values (obj st') = None <-> _mode_values (obj st) = None).
Proof.
  unfold Reconf.sort_inputs, mbind, lift, get_self, put_self, ret.
  cbv beta iota zeta.
  destruct (mapM _ _) as [e1|accs] eqn:E1; [discriminate|].
  cbn [_mode_values set_acc_list].
  destruct (_mode_values (obj st)) as [mv|].
  - unfold rbind. destruct (mapM (index mv) _) as [e2|mv'] eqn:E2;
      [discriminate|].
    intros [= <-]. cbn. split; [reflexivity|]. split; discriminate.
  - intros [= <-]. cbn. split; [reflexivity|]. split; reflexivity.
Qed.

(** [_create_mode] raises [TypeError] when it indexes mode values that
    are not there, which it does for the first mode input. *)
Lemma create_mode_without_values (self : ReconfSynthesis) (i : nat) :
  modes_without_values self -> Reconf._create_mode self i = inl TypeError.
Proof.
  unfold Reconf._create_mode, modes_without_values.
  intros [(m & ms & ->) ->]. reflexivity.
Qed.

(** Where a [TimingException] of the nominal synthesis comes from. *)
Lemma nominal_timing st e st' :
  nominal st = (inl e, st') ->
  is_timing e = true ->
  exists c, st' = mkState (obj st) (dc_log st ++ [c]) (fs_log st) /\
            snd (backend (length (dc_log st)) c) = false.
Proof.
  unfold Reconf.nominal, mbind, lift, get_self, ret. cbv beta iota.
  destruct (Reconf._create_mode _ _) as [e1|md] eqn:Em.
  { intros [= <- _] Ht. rewrite (create_mode_error _ _ _ Em) in Ht.
    discriminate. }
  destruct (index (_acc_list _) _) as [e1|a] eqn:Ea.
  { intros [= <- _] Ht. now rewrite (index_error _ _ _ Ea) in Ht. }
  destruct (index (_vdd_list _) _) as [e1|v] eqn:Ev.
  { intros [= <- _] Ht. now rewrite (index_error _ _ _ Ev) in Ht. }
  destruct (index (_clock_multipliers _) _) as [e1|cm] eqn:Ec.
  { intros [= <- _] Ht. now rewrite (index_error _ _ _ Ec) in Ht. }
  unfold Reconf._call_dc, ret. cbv beta iota zeta. cbn [snd obj].
  destruct (snd (backend _ _)) eqn:Eok; cbn [negb].
  - unfold put_self. discriminate.
  - unfold mraise, raise. intros [= <- <-] _. eexists. split; [reflexivity|].
    exact Eok.
Qed.

(** Where a [TimingException] of the descent comes from: an invocation
    at the voltage carried over that the tool found not compliant. *)
Lemma descend_timing rest :
  forall v cp st e st',
    descend rest v cp st = (inl e, st') ->
    is_timing e = true ->
    exists pre c,
      dc_log st' = (pre ++ [c])%list /\
      (length (dc_log st) <= length pre)%nat /\
      snd (backend (length pre) c) = false.
Proof.
  induction rest as [|i rest IH]; intros v cp st e st' Hrun Ht.
  - discriminate.
  - rewrite descend_step in Hrun.
    destruct (Reconf._create_mode _ _) as [e1|md] eqn:Em.
    { injection Hrun as <- _.
      rewrite (create_mode_error _ _ _ Em) in Ht. discriminate. }
    destruct (index (_acc_list _) _) as [e1|a] eqn:Ea.
    { injection Hrun as <- _. now rewrite (index_error _ _ _ Ea) in Ht. }
    destruct (index (_vdd_list _) _) as [e1|vv] eqn:Ev.
    { injection Hrun as <- _. now rewrite (index_error _ _ _ Ev) in Ht. }
    destruct (index (_clock_multipliers _) _) as [e1|cm] eqn:Ec.
    { injection Hrun as <- _. now rewrite (index_error _ _ _ Ec) in Ht. }
    cbv zeta in Hrun.
    destruct (snd (backend _ _)) eqn:Eok; cbn [negb] in Hrun.
    + destruct (IH _ _ _ _ _ Hrun Ht) as (pre & c & Hlog & Hlen & Hok).
      exists pre, c. split; [assumption|]. split; [|assumption].
      cbn [dc_log] in Hlen. rewrite length_app in Hlen. lia.
    + injection Hrun as _ <-. eexists _, _. cbn [dc_log].
      split; [reflexivity|]. split; [lia|exact Eok].
Qed.

Lemma table_rows_error self accs rows e :
  Reconf.table_rows self accs = (rows, Some e) -> is_lookup_error e = true.
Proof.
  revert rows. induction accs as [|a accs IH]; intros rows; simpl;
    [discriminate|].
  unfold rbind, ret, raise.
  destruct (getitem (_power_table self) a) as [e1|p] eqn:Ep.
  { intros [= _ <-]. now rewrite (getitem_error _ _ _ Ep). }
  destruct (getitem (_scen_table self) a) as [e1|[s|]] eqn:Es.
  - intros [= _ <-]. now rewrite (getitem_error _ _ _ Es).
  - destruct (Reconf.table_rows self accs) as [rows' e'].
    intros [= _ ->]. eapply IH. reflexivity.
  - now intros [= _ <-].
Qed.

Lemma raises_bind {A B} (P : exn -> Prop) (c : M A) (k : A -> M B) :
  raises_only P c -> (forall a, raises_only P (k a)) ->
  raises_only P (mbind c k).
Proof.
  intros Hc Hk st e st'. unfold mbind.
  destruct (c st) as [[e1|a] st1] eqn:E.
  - intros [= <- <-]. eapply Hc. exact E.
  - apply Hk.
Qed.

Lemma raises_lift {A} (P : exn -> Prop) (r : result A) :
  (forall e, r = inl e -> P e) -> raises_only P (lift r).
Proof. intros Hr st e st'. unfold lift. intros [= -> _]. now apply Hr. Qed.

Lemma raises_never {A} (P : exn -> Prop) (c : M A) :
  (forall st, exists a st', c st = (inr a, st')) -> raises_only P c.
Proof.
  intros Hc st e st' E. destruct (Hc st) as (a & st1 & E1). congruence.
Qed.

Lemma finalize_error output_dir output_table cp :
  raises_only (fun e => is_lookup_error e = true)
              (Reconf.finalize output_dir output_table cp).
Proof.
  unfold Reconf.finalize. cbv zeta.
  apply raises_bind; [apply raises_never; intros st; now eexists _, _|].
  intros self. apply raises_bind.
  { apply raises_lift. destruct cp; [discriminate|]. now intros e [= <-]. }
  intros p. apply raises_bind;
    [apply raises_never; intros st; now eexists _, _|].
  intros _. apply raises_bind.
  { apply raises_lift. apply mapM_error. intros a e. unfold rbind.
    destruct (getitem _ a) as [e2|s] eqn:E2.
    - intros [= <-]. now rewrite (getitem_error _ _ _ E2).
    - intros E3. now rewrite (getitem_error _ _ _ E3). }
  intros _. apply raises_bind.
  { destruct output_table as [path|];
      [|apply raises_never; intros st; now eexists _, _].
    destruct (Reconf.table_rows _ _) as [rows [e1|]] eqn:Er.
    - apply raises_bind; [apply raises_never; intros st; now eexists _, _|].
      intros _ st e st'. unfold mraise, raise. intros [= <- _].
      eapply table_rows_error. exact Er.
    - apply raises_bind; intros; apply raises_never; intros st;
        now eexists _, _. }
  intros _. apply raises_bind.
  { unfold Reconf._save_netlist.
    repeat (apply raises_bind;
            [apply raises_never; intros st; now eexists _, _|intros ?]).
    apply raises_never; intros st; now eexists _, _. }
  intros _. apply raises_lift. apply mapM_error. intros a e.
  unfold rbind, ret.
  destruct (getitem _ a) as [e2|s] eqn:E3.
  - intros [= <-]. now rewrite (getitem_error _ _ _ E3).
  - destruct (getitem (_scen_table _) a) as [e3|s'] eqn:E4; [|discriminate].
    intros [= <-]. now rewrite (getitem_error _ _ _ E4).
Qed.

(** X22: a [TimingException] of [run] comes with nothing written: the last
    invocation of the tool, one of this run, was found not compliant, and
    the file system saw directories prepared and nothing else, no report
    and no artifact. *)
Theorem timing_exception_leaves_no_output
    (output_dir : string) (output_table : option string)
    (st : State) (msg : string) (st' : State) :
  run output_dir output_table st
  = (inl (TimingException msg), st') ->
  (exists pre c,
      dc_log st' = (pre ++ [c])%list /\
      (length (dc_log st) <= length pre)%nat /\
      snd (backend (length pre) c) = false) /\
  (exists evs, fs_log st' = (fs_log st ++ evs)%list /\
               forallb is_dir_event evs = true).
Proof.
  rewrite run_stages.
  pose proof (init_dirs_dirs_only os_path_dirname os_access_w os_path_exists
                output_dir output_table st) as H1.
  destruct (_init_dirs _ _ _) as [[e|[]] st1] eqn:E1.
  { intros [= -> ->]. apply init_dirs_error in E1.
    destruct E1 as [[E _]|[m E]]; discriminate. }
  cbn [snd] in H1. destruct H1 as (_ & Hd1 & Hf1).
  pose proof (sort_inputs_same_logs st1) as H2.
  destruct (Reconf.sort_inputs st1) as [[e|[]] st2] eqn:E2.
  { intros [= -> ->]. now apply sort_inputs_error in E2. }
  cbn [snd] in H2. destruct H2 as [Hd2 Hf2].
  destruct (nominal st2) as [[e|[]] st3] eqn:E3.
  { intros [= -> ->].
    destruct (nominal_timing _ _ _ E3 eq_refl) as (c & -> & Hok).
    cbn [dc_log fs_log]. split.
    - exists (dc_log st2), c. split; [reflexivity|]. split; [|assumption].
      rewrite Hd2, Hd1. lia.
    - now rewrite Hf2. }
  assert (H3 : (length (dc_log st2) <= length (dc_log st3))%nat
               /\ fs_log st3 = fs_log st2).
  { destruct (nominal_cases float_repr backend st2)
      as [[e Hn]|(nom & _ & _ & _ & _ & Hn)].
    - rewrite Hn in E3. discriminate.
    - cbv zeta in Hn. destruct Hn as [[_ Hn]|[_ Hn]]; rewrite Hn in E3;
        [discriminate|].
      injection E3 as <-. cbn [dc_log fs_log]. rewrite length_app.
      split; [lia|reflexivity]. }
  destruct H3 as [Hd3 Hf3].
  pose proof (descend_calls_only float_repr backend
                (range 1 (length (_acc_list (obj st3)))) 0 None st3) as H4.
  destruct (descend _ 0 None st3) as [[e|cp] st4] eqn:E4.
  { intros [= -> ->]. cbn [snd] in H4. destruct H4 as (_ & Hf4 & _).
    destruct (descend_timing _ _ _ _ _ _ E4 eq_refl)
      as (pre & c & Hlog & Hlen & Hok).
    split.
    - exists pre, c. split; [assumption|]. split; [|assumption].
      rewrite Hd2, Hd1 in Hd3. lia.
    - now rewrite Hf4, Hf3, Hf2. }
  intros Hfin. now apply finalize_error in Hfin.
Qed.

(** X23: two ways [run] ends in [TypeError].  Without an output table,
    which is what its signature offers by default, it does so before it
    touches anything; with mode inputs and no mode values it does so once
    the directories are prepared, before it invokes the tool. *)
Theorem run_type_error
    (output_dir : string) (output_table : option string) (st : State) :
  (output_table = None ->
   run output_dir output_table st = (inl TypeError, st)) /\
  (forall st1,
      _init_dirs output_dir output_table st = (inr tt, st1) ->
      modes_without_values (obj st) ->
      exists st',
        run output_dir output_table st = (inl TypeError, st') /\
        dc_log st' = dc_log st /\ fs_log st' = fs_log st1).
Proof.
  split; [intros ->; reflexivity|].
  pose proof (init_dirs_dirs_only os_path_dirname os_access_w os_path_exists
                output_dir output_table st) as H1.
  intros st1 E1 Hmodes. rewrite run_stages, E1.
  rewrite E1 in H1. cbn [snd] in H1. destruct H1 as (Ho1 & Hd1 & _).
  assert (E2 : exists st2, Reconf.sort_inputs st1 = (inr tt, st2)).
  { unfold Reconf.sort_inputs, mbind, lift, get_self, put_self. simpl.
    rewrite (mapM_index _ _ 0) by (apply sort_desc_Forall, range_lt).
    rewrite Ho1, (proj2 Hmodes). eexists. reflexivity. }
  destruct E2 as [st2 E2]. rewrite E2.
  pose proof (sort_inputs_same_logs st1) as H2.
  rewrite E2 in H2. cbn [snd] in H2. destruct H2 as [Hd2 Hf2].
  apply sort_inputs_modes in E2. destruct E2 as [Emi Emv].
  assert (Hm2 : modes_without_values (obj st2)).
  { unfold modes_without_values. rewrite Emi, Emv, Ho1. exact Hmodes. }
  apply (create_mode_without_values (obj st2) 0) in Hm2.
  exists st2. split; [|split; congruence].
  unfold Reconf.nominal, mbind, lift, get_self, ret. cbv beta iota.
  now rewrite Hm2.
Qed.

(** *** The number of invocations *)

Lemma probe_best_vdd_id self base i md v b0 k :
  Reconf.b_vdd_id b0 = v ->
  Reconf.b_vdd_id (probe_best float_repr backend self base i md v b0 k)
  = (v + k)%nat.
Proof.
  intros Hv. destruct k as [|j]; simpl; lia.
Qed.

Lemma descend_same_vdd_list rest :
  forall v cp st,
    _vdd_list (obj (snd (descend rest v cp st))) = _vdd_list (obj st).
Proof.
  intros v cp st.
  destruct (descend_calls_only float_repr backend rest v cp st)
    as (Hcfg & _). unfold same_config in Hcfg. now rewrite Hcfg.
Qed.

(** Each precision costs its trial at the voltage carried over and at
    most one rejected probe; each accepted probe moves the voltage one
    step down the list, and the list is walked once. *)
Lemma descend_invocations rest :
  forall v cp st,
    (v < length (_vdd_list (obj st)))%nat ->
    (length (dc_log (snd (descend rest v cp st))) + v + 1
     <= length (dc_log st) + 2 * length rest
        + length (_vdd_list (obj st)))%nat.
Proof.
  induction rest as [|i rest IH]; intros v cp st Hv.
  - simpl. lia.
  - rewrite descend_step.
    destruct (Reconf._create_mode _ _) as [e1|md]; [simpl; lia|].
    destruct (index (_acc_list _) _) as [e1|a]; [simpl; lia|].
    destruct (index (_vdd_list _) _) as [e1|vv]; [simpl; lia|].
    destruct (index (_clock_multipliers _) _) as [e1|cm]; [simpl; lia|].
    cbv zeta.
    destruct (negb _).
    + cbn [snd dc_log]. rewrite length_app. simpl. lia.
    + set (b0 := Reconf.mkBest _ _ _ v).
      set (m := (length (_vdd_list (obj st)) - (v + 1))%nat).
      set (k := accepted_steps _ 0 m).
      assert (Hk : (k <= m)%nat) by apply accepted_steps_spec.
      rewrite (probe_best_vdd_id _ _ _ _ v b0 k eq_refl).
      change (Reconf.b_vdd_id b0) with v.
      match goal with
      | |- context [descend rest (v + k)%nat ?cp1 ?st1] =>
          specialize (IH (v + k)%nat cp1 st1)
      end.
      cbn [obj dc_log _vdd_list set_scen_table] in IH.
      rewrite length_app in IH. cbn [length] in IH.
      rewrite length_map, length_seq in IH.
      cbn [length]. subst m. lia.
Qed.

(** X24: [run] invokes the tool at most [2 n + V - 2] times for [n]
    precisions and [V] voltages, whatever the tool answers and however the
    run ends: once for the nominal scenario, then, for each other
    precision, once at the voltage carried over and once for a rejected
    probe at most, and once for each step down the voltages. *)
Theorem run_invocations_bound
    (output_dir : string) (output_table : option string) (st : State) :
  (length (dc_log (snd (run output_dir output_table st)))
   <= length (dc_log st)
      + (2 * length (_acc_list (obj st)) - 1)
      + (length (_vdd_list (obj st)) - 1))%nat.
Proof.
  rewrite run_stages.
  pose proof (init_dirs_dirs_only os_path_dirname os_access_w os_path_exists
                output_dir output_table st) as H1.
  destruct (_init_dirs _ _ _) as [[e|[]] st1] eqn:E1; cbn [snd] in H1;
    destruct H1 as (Ho1 & Hd1 & _); [cbn [snd]; rewrite Hd1; lia|].
  pose proof (sort_inputs_same_logs st1) as H2.
  destruct (Reconf.sort_inputs st1) as [[e|[]] st2] eqn:E2; cbn [snd] in H2;
    destruct H2 as [Hd2 _]; [cbn [snd]; rewrite Hd2, Hd1; lia|].
  apply sort_inputs_ok in E2. destruct E2 as [mv E2].
  assert (Hn : length (_acc_list (obj st2)) = length (_acc_list (obj st))).
  { rewrite E2. cbn [obj _acc_list].
    now rewrite sorted_precisions_length, Ho1. }
  assert (HV : length (_vdd_list (obj st2)) = length (_vdd_list (obj st))).
  { rewrite E2. cbn [obj _vdd_list]. now rewrite sort_desc_length, Ho1. }
  destruct (nominal_cases float_repr backend st2)
    as [[e Hn0]|(nom & Ha & Hv & _ & _ & Hn0)].
  { rewrite Hn0. cbn [snd]. rewrite Hd2, Hd1. lia. }
  apply index_inv in Ha, Hv. destruct Ha as [Ha _], Hv as [Hv _].
  cbv zeta in Hn0. destruct Hn0 as [[_ ->]|[_ ->]].
  { cbn [snd dc_log]. rewrite length_app, Hd2, Hd1. simpl. lia. }
  match goal with
  | |- context [descend ?r 0 None ?st3] =>
      pose proof (descend_invocations r 0%nat None st3) as H4;
      pose proof (finalize_outputs_only output_dir output_table
                    (match fst (descend r 0 None st3) with
                     | inr cp => cp
                     | inl _ => None
                     end) (snd (descend r 0 None st3))) as H5;
      destruct (descend r 0 None st3) as [[e|cp] st4]
  end;
    cbn [fst snd obj dc_log _vdd_list _acc_list set_scen_table] in H4, H5;
    unfold range in H4; rewrite length_seq, length_app in H4;
    cbn [length] in H4; specialize (H4 Hv); rewrite Hd2, Hd1 in H4.
  - cbn [snd]. lia.
  - destruct H5 as [-> _]. lia.
Qed.

(** *** The nominal scenario *)

Lemma values_of_empty_table {V} (accs : list Z) :
  Forall (fun v : option V => v = None)
         (Dict.values (empty_table (V := V) accs)).
Proof.
  unfold empty_table, Dict.of_list.
  assert (Hgen : forall (d : Dict.t Z (option V)),
             Forall (fun v => v = None) (Dict.values d) ->
             Forall (fun v : option V => v = None)
                    (Dict.values
                       (fold_left (fun d '(k, v) => Dict.set k v d)
                                  (map (fun a => (a, None)) accs) d))).
  { induction accs as [|a accs IH]; intros d Hd; simpl; [assumption|].
    apply IH. clear IH. unfold Dict.values in *.
    induction d as [|[k v] d IHd]; cbn [Dict.set map snd].
    - constructor; [reflexivity|constructor].
    - cbn [map snd] in Hd. inversion Hd as [|? ? Hv Hd']; subst.
      destruct (keqb a k); cbn [map snd]; constructor; auto. }
  apply Hgen. constructor.
Qed.

Lemma accepted_empty_table self accs :
  _scen_table self = empty_table accs -> Reconf.accepted self = [].
Proof.
  intros E. unfold Reconf.accepted. rewrite E.
  pose proof (values_of_empty_table (V := AxScenario) accs) as H.
  induction H as [|v vs -> H IH]; simpl; [reflexivity|exact IH].
Qed.

Lemma sorted_head {A} (R : A -> A -> Prop) (x : A) (l : list A) :
  StronglySorted R (x :: l) -> forall y, In y l -> R x y.
Proof.
  intros H. inversion H as [|? ? _ Hall]; subst.
  now apply Forall_forall.
Qed.

Lemma app_cons_not_self {A} (l : list A) (x : A) (l' : list A) :
  l <> (l ++ x :: l')%list.
Proof.
  intros E. apply (f_equal (@length A)) in E.
  rewrite length_app in E. simpl in E. lia.
Qed.

(** X25: the first invocation of a run is the nominal one: it carries one
    scenario, of the largest precision and the largest voltage of the
    configuration, wherever the file lists them. *)
Theorem nominal_scenario_is_maximal
    (output_dir : string) (output_table : option string) (st : State)
    (c : DcCall) (calls : list DcCall) :
  dc_log (snd (run output_dir output_table st))
  = (dc_log st ++ c :: calls)%list ->
  exists nom,
    dc_scenarios c = [nom] /\
    In (accuracy nom) (_acc_list (obj st)) /\
    (forall a, In a (_acc_list (obj st)) -> a <= accuracy nom) /\
    In (vdd nom) (_vdd_list (obj st)) /\
    (forall v, In v (_vdd_list (obj st)) -> (v <= vdd nom)%Q).
Proof.
  rewrite run_stages.
  pose proof (init_dirs_dirs_only os_path_dirname os_access_w os_path_exists
                output_dir output_table st) as H1.
  destruct (_init_dirs _ _ _) as [[e|[]] st1] eqn:E1; cbn [snd] in H1;
    destruct H1 as (Ho1 & Hd1 & _).
  { cbn [snd]. rewrite Hd1. intros E. now apply app_cons_not_self in E. }
  pose proof (sort_inputs_same_logs st1) as H2.
  destruct (Reconf.sort_inputs st1) as [[e|[]] st2] eqn:E2; cbn [snd] in H2;
    destruct H2 as [Hd2 _].
  { cbn [snd]. rewrite Hd2, Hd1. intros E.
    now apply app_cons_not_self in E. }
  apply sort_inputs_ok in E2. destruct E2 as [mv E2].
  destruct (nominal_cases float_repr backend st2)
    as [[e Hn0]|(nom & Ha & Hv & _ & _ & Hn0)].
  { rewrite Hn0. cbn [snd]. rewrite Hd2, Hd1. intros E.
    now apply app_cons_not_self in E. }
  intros Hlog. exists nom.
  assert (Hc : exists more,
             (dc_log st ++ c :: calls
              = dc_log st
                  ++ Reconf.dc_invocation float_repr (obj st2) (Some nom)
                  :: more)%list).
  { rewrite <- Hlog. cbv zeta in Hn0. destruct Hn0 as [[_ ->]|[_ ->]].
    - cbn [snd dc_log]. rewrite Hd2, Hd1. now exists [].
    - match goal with
      | |- context [descend ?r 0 None ?st3] =>
          pose proof (descend_calls_only float_repr backend r 0%nat None st3)
            as H4;
          pose proof (finalize_outputs_only output_dir output_table
                        (match fst (descend r 0 None st3) with
                         | inr cp => cp
                         | inl _ => None
                         end) (snd (descend r 0 None st3))) as H5;
          destruct (descend r 0 None st3) as [[e|cp] st4]
      end;
        cbn [fst snd dc_log] in H4, H5;
        destruct H4 as (_ & _ & cs & H4).
      + cbn [snd]. rewrite H4. cbn [dc_log].
        rewrite Hd2, Hd1, <- app_assoc. now exists cs.
      + destruct H5 as [-> _]. rewrite H4. cbn [dc_log].
        rewrite Hd2, Hd1, <- app_assoc. now exists cs. }
  destruct Hc as [more Hc]. apply app_inv_head in Hc.
  injection Hc as -> _.
  rewrite dc_scenarios_invocation.
  rewrite (accepted_empty_table (obj st2)
             (sorted_precisions (_acc_list (obj st1))))
    by (rewrite E2; reflexivity).
  split; [reflexivity|].
  rewrite E2 in Ha, Hv. cbn [obj _acc_list _vdd_list] in Ha, Hv.
  rewrite Ho1 in Ha, Hv. unfold index in Ha, Hv.
  pose proof (sorted_precisions_sorted (_acc_list (obj st))) as Hsa.
  pose proof (sorted_precisions_perm (_acc_list (obj st))) as Hpa.
  pose proof (vdd_list_sorted (_vdd_list (obj st))) as Hsv.
  pose proof (sort_desc_perm Qgeb (_vdd_list (obj st))) as Hpv.
  destruct (sorted_precisions (_acc_list (obj st))) as [|a0 accs];
    [discriminate|].
  destruct (sort_desc Qgeb (_vdd_list (obj st))) as [|v0 vs];
    [discriminate|].
  injection Ha as <-. injection Hv as <-.
  split; [eapply Permutation_in; [exact Hpa|now left]|]. split.
  - intros a Hin. apply (Permutation_in _ (Permutation_sym Hpa)) in Hin.
    destruct Hin as [<-|Hin]; [lia|]. now apply (sorted_head _ _ _ Hsa).
  - split; [eapply Permutation_in; [exact Hpv|now left]|].
    intros v Hin. apply (Permutation_in _ (Permutation_sym Hpv)) in Hin.
    destruct Hin as [<-|Hin]; [apply Qle_refl|].
    now apply (sorted_head _ _ _ Hsv).
Qed.

(** X26: with no precision, no voltage or no clock multiplier at all, [run]
    raises before it invokes the tool, and leaves prepared directories at
    most. *)
Theorem run_of_empty_lists
    (output_dir : string) (output_table : option string) (st : State) :
  _acc_list (obj st) = [] \/ _vdd_list (obj st) = [] \/
  _clock_multipliers (obj st) = [] ->
  exists e st' evs,
    run output_dir output_table st = (inl e, st') /\
    dc_log st' = dc_log st /\
    fs_log st' = (fs_log st ++ evs)%list /\
    forallb is_dir_event evs = true.
Proof.
  intros Hempty. rewrite run_stages.
  pose proof (init_dirs_dirs_only os_path_dirname os_access_w os_path_exists
                output_dir output_table st) as H1.
  destruct (_init_dirs _ _ _) as [[e|[]] st1] eqn:E1; cbn [snd] in H1;
    destruct H1 as (Ho1 & Hd1 & evs & Hf1 & Hdir).
  { now exists e, st1, evs. }
  pose proof (sort_inputs_same_logs st1) as H2.
  destruct (Reconf.sort_inputs st1) as [[e|[]] st2] eqn:E2; cbn [snd] in H2;
    destruct H2 as [Hd2 Hf2].
  { exists e, st2, evs. rewrite Hd2, Hf2. auto. }
  apply sort_inputs_ok in E2. destruct E2 as [mv E2].
  destruct (nominal_cases float_repr backend st2)
    as [[e Hn0]|(nom & Ha & Hv & Hc & _ & _)].
  { rewrite Hn0. exists e, st2, evs. rewrite Hd2, Hf2. auto. }
  exfalso. rewrite E2 in Ha, Hv, Hc.
  cbn [obj _acc_list _vdd_list _clock_multipliers] in Ha, Hv, Hc.
  rewrite Ho1 in Ha, Hv, Hc.
  destruct Hempty as [E|[E|E]]; rewrite E in *; discriminate.
Qed.

(** *** What [run] removes *)

Lemma init_dirs_removes output_dir output_table st :
  exists evs,
    fs_log (snd (_init_dirs output_dir output_table st))
    = (fs_log st ++ evs)%list /\
    forall p, In (RmTree p) evs -> p = work_dir (obj st).
Proof.
  unfold Reconf._init_dirs, mbind, lift, get_self, ret, raise.
  destruct output_table as [path|];
    [|exists []; split; [now rewrite app_nil_r|contradiction]].
  cbv beta iota.
  destruct (_ && _);
    [exists []; split; [now rewrite app_nil_r|contradiction]|].
  unfold mret, fs_do, ret. cbv beta iota.
  destruct (_ && _); cbv beta iota;
    destruct (negb _); cbv beta iota; cbn [fs_log obj];
    destruct (negb _); cbn [snd fs_log]; rewrite <- ?app_assoc;
    eexists; (split; [reflexivity || (symmetry; apply app_nil_r)|]);
    intros p Hin; simpl in Hin;
    repeat (destruct Hin as [Hin|Hin]; [try discriminate|]);
    try contradiction; now injection Hin as <-.
Qed.

(** X27: whatever happens, the one directory [run] ever removes is its work
    directory. *)
Theorem run_removes_work_dir_only
    (output_dir : string) (output_table : option string) (st : State) :
  exists evs,
    fs_log (snd (run output_dir output_table st))
    = (fs_log st ++ evs)%list /\
    forall p, In (RmTree p) evs -> p = work_dir (obj st).
Proof.
  rewrite run_stages.
  destruct (init_dirs_removes output_dir output_table st)
    as (evs & Hf1 & Hrm).
  destruct (_init_dirs _ _ _) as [[e|[]] st1] eqn:E1; cbn [snd] in Hf1.
  { now exists evs. }
  pose proof (sort_inputs_same_logs st1) as H2.
  destruct (Reconf.sort_inputs st1) as [[e|[]] st2] eqn:E2; cbn [snd] in H2;
    destruct H2 as [_ Hf2].
  { exists evs. cbn [snd]. now rewrite Hf2. }
  assert (H3 : fs_log (snd (nominal st2)) = fs_log st2).
  { destruct (nominal_cases float_repr backend st2)
      as [[e Hn0]|(nom & _ & _ & _ & _ & Hn0)].
    - now rewrite Hn0.
    - cbv zeta in Hn0. destruct Hn0 as [[_ ->]|[_ ->]]; reflexivity. }
  destruct (nominal st2) as [[e|[]] st3]; cbn [snd] in H3.
  { exists evs. cbn [snd]. now rewrite H3, Hf2. }
  match goal with
  | |- context [descend ?r 0 None ?st3] =>
      pose proof (descend_calls_only float_repr backend r 0%nat None st3)
        as H4;
      pose proof (finalize_outputs_only output_dir output_table
                    (match fst (descend r 0 None st3) with
                     | inr cp => cp
                     | inl _ => None
                     end) (snd (descend r 0 None st3))) as H5;
      destruct (descend r 0 None st3) as [[e|cp] st4]
  end;
    cbn [fst snd] in H4, H5; destruct H4 as (_ & Hf4 & _).
  - exists evs. cbn [snd]. now rewrite Hf4, H3, Hf2.
  - destruct H5 as (_ & outs & Hf5 & Hout).
    exists (evs ++ outs)%list. split.
    + rewrite Hf5, Hf4, H3, Hf2, Hf1. now rewrite app_assoc.
    + intros p Hin. apply in_app_or in Hin. destruct Hin as [Hin|Hin];
        [now apply Hrm|].
      rewrite forallb_forall in Hout. apply Hout in Hin. discriminate.
Qed.

(** *** What a successful run writes *)

Lemma finalize_events output_dir path cp st tbl st' :
  Reconf.finalize output_dir (Some path) cp st = (inr tbl, st') ->
  exists rows,
    length rows = length (_acc_list (obj st)) /\
    _scen_table (obj st') = _scen_table (obj st) /\
    work_dir (obj st') = work_dir (obj st) /\
    let name := Reconf._combined_scenario_name (obj st') None in
    fs_log st'
    = (fs_log st
         ++ [WriteTable path rows;
             CopyFile (work_dir (obj st') ++ "/" ++ name ++ ".v")
                      (output_dir ++ "/" ++ name ++ ".v");
             CopyFile (work_dir (obj st') ++ "/" ++ name ++ ".sdc")
                      (output_dir ++ "/" ++ name ++ ".sdc");
             CopyFile (work_dir (obj st') ++ "/" ++ name ++ ".spef")
                      (output_dir ++ "/" ++ name ++ ".spef")])%list.
Proof.
  unfold Reconf.finalize.
  unfold mbind at 1, get_self at 1, ret. cbv beta iota.
  unfold mbind at 1, lift at 1.
  destruct cp as [p|]; [|discriminate]. unfold ret. cbv beta iota.
  set (self := set_power_table (obj st) _).
  unfold mbind at 1, put_self at 1, ret. cbv beta iota.
  unfold mbind at 1, lift at 1.
  change (_acc_list self) with (_acc_list (obj st)).
  match goal with
  | |- context [match mapM ?f ?l with _ => _ end] =>
      destruct (mapM f l) as [e|chk]; [discriminate|]
  end.
  destruct (Reconf.table_rows self (_acc_list (obj st))) as [rows e] eqn:Er.
  unfold mbind at 1. unfold mbind at 1, fs_do at 1. cbv beta iota.
  destruct e as [e|]; [discriminate|].
  unfold mret at 1. cbv beta iota.
  unfold Reconf._save_netlist, mbind, get_self, fs_do, lift, ret.
  cbn [obj dc_log fs_log].
  destruct (mapM _ _) as [e|tbl'] eqn:Em; [discriminate|].
  intros [= <- <-]. cbn [obj dc_log fs_log]. exists rows.
  split.
  { apply table_rows_ok in Er. symmetry. eapply Forall2_length. exact Er. }
  split; [reflexivity|]. split; [reflexivity|].
  cbv zeta. rewrite <- !app_assoc. reflexivity.
Qed.

(** X28: what a run that completes leaves in the file system, after the
    directories it prepared: the report, with one row per precision, and
    three copies, of the netlist, the constraints and the parasitics the
    tool wrote in the work directory under the joined names of all
    scenarios of the table; nothing else. *)
Theorem run_success_outputs
    (output_dir path : string) (st : State)
    (tbl : list (option Q * option AxScenario)) (st' : State) :
  run output_dir (Some path) st = (inr tbl, st') ->
  exists dirs rows,
    forallb is_dir_event dirs = true /\
    length rows = length (_acc_list (obj st)) /\
    let name := Reconf._combined_scenario_name (obj st') None in
    let work := work_dir (obj st) in
    fs_log st'
    = (fs_log st ++ dirs
         ++ [WriteTable path rows;
             CopyFile (work ++ "/" ++ name ++ ".v")
                      (output_dir ++ "/" ++ name ++ ".v");
             CopyFile (work ++ "/" ++ name ++ ".sdc")
                      (output_dir ++ "/" ++ name ++ ".sdc");
             CopyFile (work ++ "/" ++ name ++ ".spef")
                      (output_dir ++ "/" ++ name ++ ".spef")])%list.
Proof.
  intros Hrun.
  destruct (run_ok float_repr backend os_path_dirname os_access_w
              os_path_exists _ _ _ _ _ Hrun)
    as (st1 & st2 & st3 & st4 & cp & E1 & E2 & E3 & E4 & E5).
  pose proof (init_dirs_dirs_only os_path_dirname os_access_w os_path_exists
                output_dir (Some path) st) as H1.
  rewrite E1 in H1. cbn [snd] in H1.
  destruct H1 as (Ho1 & _ & dirs & Hf1 & Hdirs).
  pose proof (sort_inputs_same_logs st1) as H2.
  rewrite E2 in H2. cbn [snd] in H2. destruct H2 as [_ Hf2].
  apply sort_inputs_ok in E2. destruct E2 as [mv E2].
  assert (H3 : obj st3 = set_scen_table (obj st2) (_scen_table (obj st3))
               /\ fs_log st3 = fs_log st2).
  { destruct (nominal_cases float_repr backend st2)
      as [[e Hn]|(nom & _ & _ & _ & _ & Hn)].
    - rewrite Hn in E3. discriminate.
    - cbv zeta in Hn. destruct Hn as [[_ Hn]|[_ Hn]]; rewrite Hn in E3;
        [discriminate|].
      injection E3 as <-. split; reflexivity. }
  destruct H3 as [Ho3 Hf3].
  pose proof (descend_calls_only float_repr backend
                (range 1 (length (_acc_list (obj st3)))) 0%nat None st3)
    as H4.
  rewrite E4 in H4. cbn [snd] in H4. destruct H4 as (Ho4 & Hf4 & _).
  unfold same_config in Ho4.
  destruct (finalize_events _ _ _ _ _ _ E5)
    as (rows & Hlen & _ & Hw & Hf5).
  exists dirs, rows. split; [assumption|]. split.
  - rewrite Hlen, Ho4. cbn [_acc_list set_scen_table]. rewrite Ho3.
    cbn [_acc_list set_scen_table]. rewrite E2. cbn [obj _acc_list].
    now rewrite sorted_precisions_length, Ho1.
  - cbv zeta in Hf5 |- *. rewrite Hf5, Hw, Hf4, Hf3, Hf2, Hf1.
    rewrite Ho4. cbn [work_dir set_scen_table]. rewrite Ho3.
    cbn [work_dir set_scen_table]. rewrite E2. cbn [obj work_dir].
    rewrite Ho1, <- app_assoc. reflexivity.
Qed.

End RunCoverage.

(** *** Sorting the inputs *)

Lemma combine_map_same {A B C} (f : A -> B) (g : A -> C) (l : list A) :
  combine (map f l) (map g l) = map (fun x => (f x, g x)) l.
Proof.
  induction l as [|x l IH]; simpl; [reflexivity|]. now rewrite IH.
Qed.

Lemma combine_nth_seq_le {A B} (l : list A) (l' : list B) (d : A) (d' : B) :
  (length l <= length l')%nat ->
  map (fun j => (nth j l d, nth j l' d')) (seq 0 (length l)) = combine l l'.
Proof.
  revert l'. induction l as [|x l IH]; intros [|y l'] E; simpl in *;
    try lia; try reflexivity.
  f_equal. rewrite <- seq_shift, map_map. apply IH. lia.
Qed.

Lemma mapM_index_inv {A} (l : list A) (idxs : list nat) (ys : list A) (d : A) :
  mapM (index l) idxs = inr ys ->
  Forall (fun i => (i < length l)%nat) idxs /\
  ys = map (fun i => nth i l d) idxs.
Proof.
  revert ys. induction idxs as [|i idxs IH]; intros ys; simpl.
  - intros [= <-]. split; constructor.
  - unfold rbind, ret. destruct (index l i) as [e|y] eqn:Ei; [discriminate|].
    destruct (mapM (index l) idxs) as [e|ys']; [discriminate|].
    intros [= <-]. apply index_inv in Ei. destruct Ei as [Hi Hy].
    destruct (IH ys' eq_refl) as [Hall ->].
    split; [now constructor|]. now rewrite (Hy d).
Qed.

(** X29: sorting the precisions takes the rows of the mode values along,
    each row with the precision it stood beside in the file; the weights
    and the clock multipliers stay in the order of the file. *)
Theorem sort_inputs_keeps_mode_rows
    (st st' : State) (mode_values : list (list Z)) :
  _mode_values (obj st) = Some mode_values ->
  Reconf.sort_inputs st = (inr tt, st') ->
  exists mode_values',
    _mode_values (obj st') = Some mode_values' /\
    Permutation (combine (_acc_list (obj st')) mode_values')
                (combine (_acc_list (obj st)) mode_values) /\
    _weights (obj st') = _weights (obj st) /\
    _clock_multipliers (obj st') = _clock_multipliers (obj st).
Proof.
  intros Emv. unfold Reconf.sort_inputs, mbind, lift, get_self, put_self, ret.
  cbv beta iota zeta.
  set (idx := sort_desc _ (range 0 (length (_acc_list (obj st))))).
  destruct (mapM (index (_acc_list (obj st))) idx) as [e|accs] eqn:Ea;
    [discriminate|].
  cbn [_mode_values set_acc_list]. rewrite Emv. unfold rbind.
  destruct (mapM (index mode_values) idx) as [e|mv'] eqn:Em;
    [discriminate|].
  intros [= <-]. exists mv'. cbn. split; [reflexivity|].
  split; [|split; reflexivity].
  apply (mapM_index_inv _ _ _ 0) in Ea. destruct Ea as [_ ->].
  apply (mapM_index_inv _ _ _ []) in Em. destruct Em as [Hlt ->].
  rewrite combine_map_same.
  assert (Hperm : Permutation idx (seq 0 (length (_acc_list (obj st))))).
  { unfold idx, range. rewrite Nat.sub_0_r. apply sort_desc_perm. }
  rewrite (Permutation_map _ Hperm).
  rewrite combine_nth_seq_le; [reflexivity|].
  destruct (_acc_list (obj st)) as [|a0 accs0] eqn:El; [simpl; lia|].
  rewrite Forall_forall in Hlt.
  assert (Hin : In (length accs0) idx).
  { apply (Permutation_in _ (Permutation_sym Hperm)). apply in_seq.
    simpl. lia. }
  apply Hlt in Hin. simpl. lia.
Qed.

(** *** The power table *)

Lemma nth_not_in_firstn {A} (l : list A) (n : nat) (d : A) :
  NoDup l -> (n < length l)%nat -> ~ In (nth n l d) (firstn n l).
Proof.
  intros Hnd. revert n. induction Hnd as [|x l Hx Hnd IH]; intros n Hn;
    [simpl in Hn; lia|].
  destruct n as [|n]; simpl; [tauto|].
  simpl in Hn. intros [E|Hin].
  - apply Hx. rewrite E. apply nth_In. lia.
  - apply (IH n); [lia|assumption].
Qed.

Lemma firstn_NoDup {A} (n : nat) (l : list A) :
  NoDup l -> NoDup (firstn n l).
Proof.
  intros Hnd. rewrite <- (firstn_skipn n l) in Hnd.
  now apply NoDup_app_remove_r in Hnd.
Qed.

Lemma Forall2_In_l {A B} (P : A -> B -> Prop) l l' x :
  Forall2 P l l' -> In x l -> exists y, P x y.
Proof.
  intros H. induction H as [|a b l l' Hab H IH]; [contradiction|].
  intros [<-|Hin]; eauto.
Qed.

(** X30: when the power vector kept by the descent is shorter than the list
    of precisions, all of them different, the run fails at its very end:
    [finalize] raises [KeyError] when it reports the first precision
    without a power, before it writes the report or copies an artifact. *)
Theorem finalize_short_power_vector
    (output_dir : string) (output_table : option string)
    (p : list Q) (st : State) :
  NoDup (_acc_list (obj st)) ->
  (length p < length (_acc_list (obj st)))%nat ->
  exists st',
    Reconf.finalize output_dir output_table (Some p) st
    = (inl KeyError, st') /\
    dc_log st' = dc_log st /\
    fs_log st' = fs_log st.
Proof.
  intros Hnd Hlen.
  unfold Reconf.finalize, mbind, lift, get_self, put_self, ret.
  cbv beta iota zeta.
  set (self := set_power_table (obj st) _).
  destruct (mapM _ (_acc_list self)) as [e|ys] eqn:Em.
  - assert (He : e = KeyError).
    { revert e Em. apply mapM_error. intros a e. unfold rbind.
      destruct (getitem (_scen_table self) a) as [e2|s] eqn:E2.
      - intros [= <-]. exact (getitem_error _ _ _ E2).
      - intros E3. exact (getitem_error _ _ _ E3). }
    subst e. eexists. split; [reflexivity|]. split; reflexivity.
  - exfalso. apply mapM_inr in Em.
    set (a := nth (length p) (_acc_list (obj st)) 0).
    assert (Ha : In a (_acc_list self)) by (apply nth_In; exact Hlen).
    destruct (Forall2_In_l _ _ _ _ Em Ha) as [y Hy].
    unfold rbind in Hy.
    destruct (getitem (_scen_table self) a) as [e2|s]; [discriminate|].
    apply getitem_inr in Hy.
    assert (Hm : Dict.mem a (_power_table self) = true)
      by (apply mem_get; eauto).
    apply mem_In in Hm. unfold self in Hm.
    cbn [_power_table set_power_table] in Hm.
    rewrite of_list_nodup in Hm
      by (rewrite map_fst_combine; now apply firstn_NoDup).
    unfold Dict.keys in Hm. rewrite map_fst_combine, length_map in Hm.
    revert Hm. now apply nth_not_in_firstn.
Qed.

(** ** The further theorems at work on concrete inputs *)

Lemma parse_data_result_witness :
  exists l rest,
    [ "3 5 1" ++ String "010" ""; "0 0 0" ] = l :: rest /\
    floats stub_float_of_str (removelast (Text.split l)) = Some [3%Q; 5%Q] /\
    S (length [3%Q; 5%Q]) = length (Text.split l) /\
    (true = true <-> Text.int_of_str (last (Text.split l) "") = Some 1).
Proof.
  apply (parse_data_result stub_float_of_str
           [ "3 5 1" ++ String "010" ""; "0 0 0" ] [3%Q; 5%Q] true).
  reflexivity.
Defined.

Lemma parse_data_of_written_line_witness :
  _parse_data stub_float_of_str
    [String.concat " " (["12"; "7"] ++ ["0"]) ++ String "010" ""]
  = inr ([12%Q; 7%Q], 0 =? 1).
Proof.
  apply (parse_data_of_written_line stub_float_of_str ["12"; "7"] "0" []
           [12%Q; 7%Q] 0).
  - repeat constructor.
  - reflexivity.
  - reflexivity.
  - reflexivity.
Defined.

Lemma set_csh_env_short_line_witness :
  set_csh_env stub_expandvars stub_putenv_ok
    (["setenv A x"] ++ "setenv B" :: ["setenv C y"]) []
  = (inl Text.IndexError, [("A", "x")]).
Proof.
  apply (set_csh_env_short_line stub_expandvars stub_putenv_ok
           ["setenv A x"] ["setenv C y"] "setenv B" [] [("A", "x")]).
  - reflexivity.
  - reflexivity.
  - simpl. lia.
Defined.

Lemma set_csh_env_last_assignment_witness :
  Dict.get "B" [("A", "z"); ("B", "x")]
  = Some (stub_expandvars [("A", "x")] "$A").
Proof.
  apply (set_csh_env_last_assignment stub_expandvars stub_putenv_ok
           ["setenv A x"] ["# done"; "setenv A z"] "setenv B $A" "B" "$A"
           [] [("A", "x")] [("A", "z"); ("B", "x")]).
  - reflexivity.
  - reflexivity.
  - reflexivity.
  - reflexivity.
  - repeat constructor; simpl; intros _; discriminate.
  - reflexivity.
Defined.

Lemma add_port_lookup_witness :
  let c' := mkAxCircuit [("a", 8); ("b", 4); ("c", 2)] [("y", 8)] [("a", 2)] in
  Dict.get "c" (ports_of INPUT c') = Some 2 /\
  Dict.keys (ports_of INPUT c')
  = (Dict.keys (ports_of INPUT small_circuit) ++ ["c"])%list /\
  (forall n, n <> "c" ->
             Dict.get n (ports_of INPUT c')
             = Dict.get n (ports_of INPUT small_circuit)) /\
  ports_of (opposite INPUT) c' = ports_of (opposite INPUT) small_circuit.
Proof.
  intros c'. apply (add_port_lookup small_circuit c' "c" 2 INPUT 5).
  reflexivity.
Defined.

Lemma change_port_width_in_place_witness :
  let c' := mkAxCircuit [("a", 16); ("b", 4)] [("a", 8)] [("a", 2)] in
  Dict.keys (input_ports c') = Dict.keys (input_ports shared_name_circuit) /\
  Dict.keys (output_ports c') = Dict.keys (output_ports shared_name_circuit) /\
  port_multipliers c' = port_multipliers shared_name_circuit /\
  (if Dict.mem "a" (input_ports shared_name_circuit)
   then Dict.get "a" (input_ports c') = Some 16 /\
        output_ports c' = output_ports shared_name_circuit
   else Dict.get "a" (output_ports c') = Some 16 /\
        input_ports c' = input_ports shared_name_circuit) /\
  (forall n, n <> "a" ->
             Dict.get n (input_ports c')
             = Dict.get n (input_ports shared_name_circuit) /\
             Dict.get n (output_ports c')
             = Dict.get n (output_ports shared_name_circuit)).
Proof.
  intros c'. apply (change_port_width_in_place shared_name_circuit c' "a" 16).
  reflexivity.
Defined.

Lemma change_port_multiplier_serialized_witness :
  let c' := mkAxCircuit [("a", 8); ("b", 4)] [("y", 8)] [("a", 2); ("b", 3)] in
  input_ports c' = input_ports small_circuit /\
  output_ports c' = output_ports small_circuit /\
  (forall w, Circuit.port_item c' "b" w
             = "{" ++ dquote ++ "b" ++ dquote ++ " " ++ str_int w ++ " "
                 ++ str_int 3 ++ "} ") /\
  (forall n w, n <> "b" ->
               Circuit.port_item c' n w = Circuit.port_item small_circuit n w).
Proof.
  intros c'.
  apply (change_port_multiplier_serialized small_circuit c' "b" 3).
  reflexivity.
Defined.

Lemma remove_port_twice_witness :
  let c' := mkAxCircuit [("b", 4)] [("y", 8)] [] in
  Dict.mem "a" (input_ports c') = false /\
  Dict.mem "a" (output_ports c') = false /\
  Dict.mem "a" (port_multipliers c') = false /\
  Circuit.remove_port c' "a"
  = inl (UnknownPortException ("No port with name " ++ "a")).
Proof.
  intros c'. apply (remove_port_twice small_circuit c' "a"); reflexivity.
Defined.

Lemma remove_port_shared_name_witness :
  let c' := mkAxCircuit [("b", 4)] [("a", 8)] [] in
  input_ports c' = Dict.del "a" (input_ports shared_name_circuit) /\
  output_ports c' = output_ports shared_name_circuit /\
  (forall w, Circuit.port_item c' "a" w
             = "{" ++ dquote ++ "a" ++ dquote ++ " " ++ str_int w
                 ++ " 1} ").
Proof.
  intros c'. apply (remove_port_shared_name shared_name_circuit c' "a");
    reflexivity.
Defined.

Lemma read_config_modes_defined_witness :
  exists mode_values,
    cf_mode_values mode_config = Some mode_values /\
    _mode_inputs mode_self = Some ["m0"; "m1"] /\
    _mode_values mode_self = Some mode_values /\
    length mode_values = length (_acc_list mode_self) /\
    forall i, (i < length (_acc_list mode_self))%nat ->
              Reconf._create_mode mode_self i
              = inr (Some (combine ["m0"; "m1"] (nth i mode_values []))).
Proof.
  apply (read_config_modes_defined
           (Reconf.init Reconf.DEFAULT_LOG_DIR Reconf.DEFAULT_WORK_DIR)
           mode_self mode_config ["m0"; "m1"]); reflexivity.
Defined.

Lemma run_unwritable_table_directory_witness :
  Reconf.run stub_float_repr compliant_stub tables_dirname stub_unwritable
             stub_exists "out" (Some "tables/best.txt")
             (mkState example_self [] [])
  = (inl (FileNotFoundError
            ("Cannot access directory " ++ dquote
               ++ tables_dirname "tables/best.txt"
               ++ dquote ++ " for writing!")),
     mkState example_self [] []).
Proof.
  apply (run_unwritable_table_directory stub_float_repr compliant_stub
           tables_dirname stub_unwritable stub_exists "out"
           "tables/best.txt" (mkState example_self [] [])).
  - discriminate.
  - reflexivity.
Defined.

Lemma timing_exception_leaves_no_output_witness :
  let st' := snd (Reconf.run stub_float_repr second_fails_stub stub_dirname
                             stub_writable stub_exists "out"
                             (Some "table.txt")
                             (mkState example_self [] [])) in
  (exists pre c,
      dc_log st' = (pre ++ [c])%list /\
      (length (@nil DcCall) <= length pre)%nat /\
      snd (second_fails_stub (length pre) c) = false) /\
  (exists evs, fs_log st' = ([] ++ evs)%list /\
               forallb is_dir_event evs = true).
Proof.
  intros st'.
  apply (timing_exception_leaves_no_output stub_float_repr second_fails_stub
           stub_dirname stub_writable stub_exists "out" (Some "table.txt")
           (mkState example_self [] [])
           "Timing error when adding smaller precision, at same voltage"
           st').
  vm_compute. reflexivity.
Defined.

Lemma run_type_error_witness :
  Reconf.run stub_float_repr compliant_stub stub_dirname stub_writable
             stub_exists "out" None (mkState no_values_self [] [])
  = (inl TypeError, mkState no_values_self [] []) /\
  exists st',
    Reconf.run stub_float_repr compliant_stub stub_dirname stub_writable
               stub_exists "out" (Some "table.txt")
               (mkState no_values_self [] [])
    = (inl TypeError, st') /\
    dc_log st' = [] /\
    fs_log st' = [MakeDirs "log"; MakeDirs "work_reconf"; MakeDirs "out"].
Proof.
  split.
  - apply (run_type_error stub_float_repr compliant_stub stub_dirname
             stub_writable stub_exists "out" None
             (mkState no_values_self [] [])).
    reflexivity.
  - apply (proj2 (run_type_error stub_float_repr compliant_stub
                    stub_dirname stub_writable stub_exists "out"
                    (Some "table.txt") (mkState no_values_self [] []))
                 (mkState no_values_self []
                    [MakeDirs "log"; MakeDirs "work_reconf";
                     MakeDirs "out"])).
    + reflexivity.
    + split; [now exists "m0", []|reflexivity].
Defined.

Lemma nominal_scenario_is_maximal_witness :
  let log := dc_log (snd (Reconf.run stub_float_repr compliant_stub
                                     stub_dirname stub_writable stub_exists
                                     "out" (Some "table.txt")
                                     (mkState mode_self [] []))) in
  exists nom,
    dc_scenarios (hd no_call log) = [nom] /\
    In (accuracy nom) [4; 8] /\
    (forall a, In a [4; 8] -> a <= accuracy nom) /\
    In (vdd nom) [(9 # 10)%Q; 1%Q] /\
    (forall v, In v [(9 # 10)%Q; 1%Q] -> (v <= vdd nom)%Q).
Proof.
  intros log.
  apply (nominal_scenario_is_maximal stub_float_repr compliant_stub
           stub_dirname stub_writable stub_exists "out" (Some "table.txt")
           (mkState mode_self [] []) (hd no_call log) (tl log)).
  vm_compute. reflexivity.
Defined.

Lemma run_of_empty_lists_witness :
  exists e st' evs,
    Reconf.run stub_float_repr compliant_stub stub_dirname stub_writable
               stub_exists "out" (Some "table.txt") (mkState empty_self [] [])
    = (inl e, st') /\
    dc_log st' = [] /\
    fs_log st' = ([] ++ evs)%list /\
    forallb is_dir_event evs = true.
Proof.
  apply (run_of_empty_lists stub_float_repr compliant_stub stub_dirname
           stub_writable stub_exists "out" (Some "table.txt")
           (mkState empty_self [] [])).
  left. reflexivity.
Defined.

Lemma sort_inputs_keeps_mode_rows_witness :
  let st' := snd (Reconf.sort_inputs (mkState mode_self [] [])) in
  exists mode_values',
    _mode_values (obj st') = Some mode_values' /\
    Permutation (combine (_acc_list (obj st')) mode_values')
                (combine [4; 8] [[0; 1]; [0; 0]]) /\
    _weights (obj st') = [1%Q; 1%Q] /\
    _clock_multipliers (obj st') = [None; None].
Proof.
  intros st'.
  apply (sort_inputs_keeps_mode_rows (mkState mode_self [] []) st'
           [[0; 1]; [0; 0]]); reflexivity.
Defined.

Lemma finalize_short_power_vector_witness :
  exists st',
    Reconf.finalize "out" (Some "table.txt") (Some [1%Q])
                    (mkState two_self [] [])
    = (inl KeyError, st') /\
    dc_log st' = [] /\
    fs_log st' = [].
Proof.
  apply (finalize_short_power_vector "out" (Some "table.txt") [1%Q]
           (mkState two_self [] [])).
  - repeat constructor; simpl; intuition discriminate.
  - simpl. lia.
Defined.

Lemma run_success_outputs_witness :
  let r := Reconf.run stub_float_repr compliant_stub stub_dirname
                      stub_writable stub_exists "out" (Some "table.txt")
                      (mkState example_self [] []) in
  let st' := snd r in
  exists dirs rows,
    forallb is_dir_event dirs = true /\
    length rows = 3%nat /\
    let name := Reconf._combined_scenario_name (obj st') None in
    let work := "work_reconf" in
    fs_log st'
    = ([] ++ dirs
         ++ [WriteTable "table.txt" rows;
             CopyFile (work ++ "/" ++ name ++ ".v")
                      ("out" ++ "/" ++ name ++ ".v");
             CopyFile (work ++ "/" ++ name ++ ".sdc")
                      ("out" ++ "/" ++ name ++ ".sdc");
             CopyFile (work ++ "/" ++ name ++ ".spef")
                      ("out" ++ "/" ++ name ++ ".spef")])%list.
Proof.
  intros r st'.
  apply (run_success_outputs stub_float_repr compliant_stub stub_dirname
           stub_writable stub_exists "out" "table.txt"
           (mkState example_self [] [])
           (match fst r with inr t => t | inl _ => [] end) st').
  vm_compute. reflexivity.
Defined.
